(** * Deferred shader compilation and shader library of the draw manager

    A shallow embedding of [source/blender/draw/intern/draw_manager_shader.c]:
    the shader library (an include system for GLSL fragments), the public
    entry points that turn a node tree into a GPU material, and the deferred
    compiler with its work queue, conclude list and the two locks. *)

From Stdlib Require Import ZArith Lia Bool Ascii String List Sorted.
From stdpp Require Import base list.

Local Open Scope Z_scope.

(** ** C strings

    A [string] is the text of a C string without its terminator. Where the
    code reads on behind a terminator, a [string] is the bytes of the
    memory it reads: there a NUL byte ends a C string, and behind the last
    byte of the list every byte reads as NUL. *)

Module CStr.

Definition NUL : ascii := Ascii.zero.

(** [strstr haystack needle]: the suffix of [haystack] that starts at the
    first occurrence of [needle], or [None] (the C function returns NULL).
    The search ends at the terminator. *)
Fixpoint strstr (haystack needle : string) : option string :=
  if String.prefix needle haystack then Some haystack
  else match haystack with
       | EmptyString => None
       | String c rest => if Ascii.eqb c NUL then None else strstr rest needle
       end.

(** What [%s] prints of a buffer: the bytes before the first NUL. *)
Fixpoint cstr (s : string) : string :=
  match s with
  | EmptyString => EmptyString
  | String c rest => if Ascii.eqb c NUL then EmptyString else String c (cstr rest)
  end.

(** Pointer arithmetic [s += n]; behind the last byte nothing changes. *)
Fixpoint advance (n : nat) (s : string) : string :=
  match n, s with
  | O, _ => s
  | S _, EmptyString => EmptyString
  | S n', String _ rest => advance n' rest
  end.

(** [BLI_strncpy(dst, src, maxncpy)] keeps at most [maxncpy - 1] characters
    and terminates the copy. *)
Definition BLI_strncpy (src : string) (maxncpy : nat) : string :=
  String.substring 0 (maxncpy - 1) src.

(** [strncmp(a, b, strlen(a)) == 0] holds exactly when [a] is a prefix of
    [b]: the first [strlen(a)] characters are compared, and a shorter [b]
    differs at its terminator. *)
Definition strncmp_strlen_eq (a b : string) : bool := String.prefix a b.

End CStr.

(** ** Shader library: a simple include system for GLSL files *)

Module ShaderLib.
Import CStr.

(** 64 because the dependencies are a 64 bit bitmap. *)
Definition MAX_LIB : nat := 64.
Definition MAX_LIB_NAME : nat := 64.
(** [MAX_NAME] sizes the buffer of the debug name; it is declared in
    [DNA_defs.h] (64 there). No statement below depends on its value. *)
Definition MAX_NAME : nat := 64.

Definition pragma_require : string := "BLENDER_REQUIRE(".

(** [uint64_t] arithmetic. *)
Definition u64 (z : Z) : Z := z mod 2 ^ 64.
Definition bit64 (dep : Z) : Z := u64 (Z.shiftl 1 dep).

(** [struct DRWShaderLibrary]: three arrays of [MAX_LIB] entries; a NULL
    pointer in [libs] is [None]. *)
Record DRWShaderLibrary : Type := {
  libs : list (option string);
  libs_name : list string;
  libs_deps : list Z
}.

Definition lib_at (lib : DRWShaderLibrary) (i : nat) : option string :=
  nth i (libs lib) None.
Definition name_at (lib : DRWShaderLibrary) (i : nat) : string :=
  nth i (libs_name lib) EmptyString.
Definition deps_at (lib : DRWShaderLibrary) (i : nat) : Z :=
  nth i (libs_deps lib) 0.

(** [MEM_callocN]: every pointer NULL, every name empty, every mask 0. *)
Definition DRW_shader_library_create : DRWShaderLibrary :=
  {| libs := replicate MAX_LIB None;
     libs_name := replicate MAX_LIB EmptyString;
     libs_deps := replicate MAX_LIB 0 |}.

(** The [for] loop of [drw_shader_library_search], [n] iterations left and
    [i] the loop variable: the first occupied slot whose stored name is a
    prefix of [name]; the scan breaks at the first NULL slot. *)
Fixpoint search_loop (lib : DRWShaderLibrary) (name : string) (n i : nat) : Z :=
  match n with
  | O => -1
  | S n' =>
    match lib_at lib i with
    | Some _ =>
      if strncmp_strlen_eq (name_at lib i) name then Z.of_nat i
      else search_loop lib name n' (S i)
    | None => -1
    end
  end.

Definition drw_shader_library_search (lib : DRWShaderLibrary) (name : string) : Z :=
  search_loop lib name MAX_LIB 0.

(** The loop that copies the unresolved name for the log message. It
    tests for the closing parenthesis and for the counter only, not for
    the terminator: when the text ends first, the code copies the
    terminator and goes on with the bytes behind it. [haystack] is
    therefore the memory from the pointer on; behind its last byte the
    bytes read as NUL, which the loop copies without moving on in the
    list. *)
Fixpoint dbg_name_loop (room : nat) (haystack : string) : string * string :=
  match room, haystack with
  | S room', String c rest =>
    if Ascii.eqb c ")" then (EmptyString, haystack)
    else let '(dbg, h) := dbg_name_loop room' rest in (String c dbg, h)
  | _, _ => (EmptyString, haystack)
  end.

(** The [while] loop of [drw_shader_dependencies_get]; [log] collects the
    names reported through [CLOG_INFO], each as [%s] prints the buffer. *)
Fixpoint deps_loop (fuel : nat) (lib : DRWShaderLibrary) (pragma_str : string)
    (haystack : string) (deps : Z) (log : list string) : Z * list string :=
  match fuel with
  | O => (deps, log)
  | S fuel' =>
    match strstr haystack pragma_str with
    | None => (deps, log)
    | Some found =>
      let haystack := advance (String.length pragma_str) found in
      let dep := drw_shader_library_search lib haystack in
      if dep =? -1 then
        let '(dbg_name, haystack) := dbg_name_loop (MAX_NAME - 2) haystack in
        deps_loop fuel' lib pragma_str haystack deps (log ++ [cstr dbg_name])
      else
        deps_loop fuel' lib pragma_str haystack (Z.lor deps (bit64 dep)) log
    end
  end.

Section Memory.

(** [behind text]: the bytes that lie in memory behind the terminator of
    [text]. They are no part of the arguments of the functions below; the
    copy loop above can reach them, so they are a parameter of the model. *)
Variable behind : string -> string.

(** The memory at the pointer [text]: the text, its terminator, and what
    lies behind. *)
Definition region (text : string) : string :=
  (text ++ String NUL (behind text))%string.

(** Return bitmap of dependencies (and what was logged). Every iteration
    consumes the directive it found, so the length of the memory bounds
    the number of iterations (see [deps_loop_fuel]). *)
Definition drw_shader_dependencies_get (lib : DRWShaderLibrary)
    (pragma_str lib_code : string) : Z * list string :=
  deps_loop (S (String.length (region lib_code))) lib pragma_str (region lib_code) 0 [].

(** What a call of [DRW_shader_library_add_file] did. [assert_failed]
    records that [BLI_assert(0)] was reached. *)
Record add_result : Type := {
  lib_after : DRWShaderLibrary;
  clog : list string;
  printed : list string;
  assert_failed : bool
}.

(** The first [for] loop of [DRW_shader_library_add_file]: index of the
    first NULL slot, or -1. *)
Fixpoint free_slot_loop (lib : DRWShaderLibrary) (n i : nat) : Z :=
  match n with
  | O => -1
  | S n' =>
    match lib_at lib i with
    | None => Z.of_nat i
    | Some _ => free_slot_loop lib n' (S i)
    end
  end.

Definition DRW_shader_library_add_file (lib : DRWShaderLibrary)
    (lib_code lib_name : string) : add_result :=
  let index := free_slot_loop lib MAX_LIB 0 in
  if index >? -1 then
    let i := Z.to_nat index in
    let lib1 :=
      {| libs := <[i := Some lib_code]> (libs lib);
         libs_name := <[i := BLI_strncpy lib_name MAX_LIB_NAME]> (libs_name lib);
         libs_deps := libs_deps lib |} in
    let '(deps, log) := drw_shader_dependencies_get lib1 pragma_require lib_code in
    {| lib_after :=
         {| libs := libs lib1; libs_name := libs_name lib1;
            libs_deps := <[i := deps]> (libs_deps lib1) |};
       clog := log; printed := []; assert_failed := false |}
  else
    {| lib_after := lib; clog := [];
       printed := ["Error: Too many libraries. Cannot add " ++ lib_name ++ "."]%string;
       assert_failed := true |}.

(** [BLI_assert] is a macro of [BLI_assert.h], outside this file: whether
    a failed assertion ends the program is a property of the build. *)
Definition aborts (assert_aborts : bool) (r : add_result) : bool :=
  assert_failed r && assert_aborts.

(** "Add all dependencies recursively": the loop [for (i = MAX_LIB - 1;
    i > -1; i--)], with [n = i + 1]. *)
Fixpoint closure_loop (lib : DRWShaderLibrary) (n : nat) (deps : Z) : Z :=
  match n with
  | O => deps
  | S i =>
    closure_loop lib i
      (if match lib_at lib i with Some _ => Z.testbit deps (Z.of_nat i) | None => false end
       then Z.lor deps (deps_at lib i) else deps)
  end.

(** [BLI_dynstr_append(ds, cstr)]; a NULL [cstr] is dereferenced, the
    model returns [None] from then on. *)
Definition dynstr_append (ds : option string) (cstr : option string) : option string :=
  match ds, cstr with
  | Some d, Some c => Some (d ++ c)%string
  | _, _ => None
  end.

(** "Concatenate all needed libs into one string": the loop [for (i = 0;
    i < MAX_LIB && deps != 0; i++, deps >>= 1)]. *)
Fixpoint concat_loop (lib : DRWShaderLibrary) (n i : nat) (deps : Z)
    (ds : option string) : option string :=
  match n with
  | O => ds
  | S n' =>
    if deps =? 0 then ds
    else concat_loop lib n' (S i) (Z.shiftr deps 1)
           (if Z.land deps 1 =? 0 then ds else dynstr_append ds (lib_at lib i))
  end.

Definition DRW_shader_library_create_shader_string (lib : DRWShaderLibrary)
    (shader_code : string) : option string :=
  let deps := fst (drw_shader_dependencies_get lib pragma_require shader_code) in
  let deps := closure_loop lib MAX_LIB deps in
  let ds := concat_loop lib MAX_LIB 0 deps (Some EmptyString) in
  dynstr_append ds (Some shader_code).

(** A library as a program builds it: created, then files added in order. *)
Definition add_files (lib : DRWShaderLibrary) (files : list (string * string))
  : DRWShaderLibrary :=
  fold_left (fun l f => lib_after (DRW_shader_library_add_file l (fst f) (snd f)))
            files lib.

Definition build (files : list (string * string)) : DRWShaderLibrary :=
  add_files DRW_shader_library_create files.

End Memory.

End ShaderLib.

(** ** Deferred compilation (DRW_deferred)

    Since compiling shader can take a long time, it is done in a non
    blocking manner in another thread. *)

Module Deferred.

Local Open Scope nat_scope.

(** [eGPUMaterialStatus], declared in [GPU_material.h]. *)
Inductive eGPUMaterialStatus : Type :=
| GPU_MAT_FAILED | GPU_MAT_CREATED | GPU_MAT_QUEUED | GPU_MAT_SUCCESS.

Definition status_eqb (a b : eGPUMaterialStatus) : bool :=
  match a, b with
  | GPU_MAT_FAILED, GPU_MAT_FAILED | GPU_MAT_CREATED, GPU_MAT_CREATED
  | GPU_MAT_QUEUED, GPU_MAT_QUEUED | GPU_MAT_SUCCESS, GPU_MAT_SUCCESS => true
  | _, _ => false
  end.

(** A [GPUMaterial *] is known by its address only. *)
Definition GPUMaterial : Type := nat.

(** [struct DRWDeferredShader]: the list links are the position in the
    list that holds it; [addr] is the address of the allocation. *)
Record DRWDeferredShader : Type := { addr : nat; mat : GPUMaterial }.

Definition dsh_eqb (a b : DRWDeferredShader) : bool :=
  Nat.eqb (addr a) (addr b) && Nat.eqb (mat a) (mat b).

(** *** [ListBase], head first

    The functions of [BLI_listbase.h] are outside this file; they are the
    usual operations of a doubly linked list. *)

Definition BLI_addtail {A} (lb : list A) (x : A) : list A := lb ++ [x].

Definition BLI_pophead {A} (lb : list A) : option A * list A :=
  match lb with
  | [] => (None, [])
  | x :: rest => (Some x, rest)
  end.

Definition BLI_poptail {A} (lb : list A) : option A * list A :=
  match rev lb with
  | [] => (None, [])
  | x :: rest => (Some x, rev rest)
  end.

(** [BLI_findptr(lb, mat, offsetof(DRWDeferredShader, mat))]: the first
    link whose [mat] field is the pointer. *)
Definition BLI_findptr (lb : list DRWDeferredShader) (m : GPUMaterial)
  : option DRWDeferredShader :=
  find (fun d => Nat.eqb (mat d) m) lb.

Fixpoint BLI_remlink (lb : list DRWDeferredShader) (d : DRWDeferredShader)
  : list DRWDeferredShader :=
  match lb with
  | [] => []
  | x :: rest => if dsh_eqb x d then rest else x :: BLI_remlink rest d
  end.

(** [BLI_movelisttolist(dst, src)]: [src] is appended to [dst] and left
    empty. *)
Definition BLI_movelisttolist {A} (dst src : list A) : list A * list A :=
  (dst ++ src, []).

(** A C [int]: 32 bits, two's complement. [int_wrap z] is the [int] that
    has the low 32 bits of [z]; an addition that overflows (undefined in C)
    wraps around here. *)
Definition INT_MIN : Z := (-2147483648)%Z.
Definition INT_MAX : Z := 2147483647%Z.

Definition int_wrap (z : Z) : Z := ((z + 2147483648) mod 4294967296 - 2147483648)%Z.

(** [BLI_listbase_count] returns an [int]. *)
Definition BLI_listbase_count {A} (lb : list A) : Z := int_wrap (Z.of_nat (length lb)).

Definition BLI_listbase_is_empty {A} (lb : list A) : bool :=
  match lb with [] => true | _ => false end.

(** *** The compiler *)

(** [struct DRWShaderCompiler]; the two locks are part of the interleaving
    model further down. A NULL context is [None]. *)
Record DRWShaderCompiler : Type := {
  queue : list DRWDeferredShader;
  queue_conclude : list DRWDeferredShader;
  mat_compiling : option DRWDeferredShader;
  gl_context : option nat;
  gpu_context : option nat;
  own_context : bool;
  shaders_done : Z (* int; to compute progress *)
}.

Definition with_queue (q : list DRWDeferredShader) (c : DRWShaderCompiler) :=
  {| queue := q; queue_conclude := queue_conclude c; mat_compiling := mat_compiling c;
     gl_context := gl_context c; gpu_context := gpu_context c;
     own_context := own_context c; shaders_done := shaders_done c |}.

Definition with_conclude (q : list DRWDeferredShader) (c : DRWShaderCompiler) :=
  {| queue := queue c; queue_conclude := q; mat_compiling := mat_compiling c;
     gl_context := gl_context c; gpu_context := gpu_context c;
     own_context := own_context c; shaders_done := shaders_done c |}.

Definition with_compiling (m : option DRWDeferredShader) (c : DRWShaderCompiler) :=
  {| queue := queue c; queue_conclude := queue_conclude c; mat_compiling := m;
     gl_context := gl_context c; gpu_context := gpu_context c;
     own_context := own_context c; shaders_done := shaders_done c |}.

Definition with_context (gl gpu : option nat) (c : DRWShaderCompiler) :=
  {| queue := queue c; queue_conclude := queue_conclude c; mat_compiling := mat_compiling c;
     gl_context := gl; gpu_context := gpu;
     own_context := own_context c; shaders_done := shaders_done c |}.

Definition with_own (b : bool) (c : DRWShaderCompiler) :=
  {| queue := queue c; queue_conclude := queue_conclude c; mat_compiling := mat_compiling c;
     gl_context := gl_context c; gpu_context := gpu_context c;
     own_context := b; shaders_done := shaders_done c |}.

Definition with_done (n : Z) (c : DRWShaderCompiler) :=
  {| queue := queue c; queue_conclude := queue_conclude c; mat_compiling := mat_compiling c;
     gl_context := gl_context c; gpu_context := gpu_context c;
     own_context := own_context c; shaders_done := n |}.

(** [MEM_callocN(sizeof(DRWShaderCompiler), ...)]. *)
Definition compiler_calloc : DRWShaderCompiler :=
  {| queue := []; queue_conclude := []; mat_compiling := None;
     gl_context := None; gpu_context := None; own_context := false;
     shaders_done := 0%Z |}.

(** What the functions do to the world outside the compiler. *)
Inductive event : Type :=
| EvFree (d : DRWDeferredShader)        (* drw_deferred_shader_free *)
| EvCompile (m : GPUMaterial)           (* GPU_material_compile *)
| EvProgress (done total : Z)           (* *progress = (float)done / (float)total *)
| EvFlush                               (* GPU_flush *)
| EvWait                                (* lock and unlock of compilation_lock *)
| EvContextEnable                       (* DRW_opengl_context_enable_ex *)
| EvContextDisable                      (* DRW_opengl_context_disable_ex *)
| EvContextCreate (gl gpu : nat)        (* WM_opengl_context_create, GPU_context_create *)
| EvContextDestroy (gl gpu : option nat)
                                        (* GPU_context_discard, WM_opengl_context_dispose *)
| EvFreeCompiler.                       (* MEM_freeN(comp) *)

(** The status field of every material. *)
Definition statuses : Type := GPUMaterial -> eGPUMaterialStatus.

Definition GPU_material_status (st : statuses) (m : GPUMaterial) := st m.

Definition GPU_material_status_set (st : statuses) (m : GPUMaterial)
    (s : eGPUMaterialStatus) : statuses :=
  fun m' => if Nat.eqb m' m then s else st m'.

Section WithGPU.

(** [GPU_material_compile] is outside this file; [gpu_compile m] is the
    status it leaves in the material. *)
Variable gpu_compile : GPUMaterial -> eGPUMaterialStatus.

Definition GPU_material_compile (st : statuses) (m : GPUMaterial) : statuses :=
  GPU_material_status_set st m (gpu_compile m).

(** [drw_deferred_shader_queue_free]: pop the head and free it, until the
    list is empty. *)
Fixpoint drw_deferred_shader_queue_free (queue : list DRWDeferredShader)
  : list event :=
  match queue with
  | [] => []
  | dsh :: rest => EvFree dsh :: drw_deferred_shader_queue_free rest
  end.

(** The loop over [queue_conclude] in [drw_deferred_shader_compilation_free]:
    "compile the shaders in the context they will be deleted". *)
Fixpoint conclude_loop (fuel : nat) (queue_conclude : list DRWDeferredShader)
    (st : statuses) : statuses * list event :=
  match fuel with
  | O => (st, [])
  | S fuel' =>
    match BLI_poptail queue_conclude with
    | (None, _) => (st, [])
    | (Some mat_conclude, rest) =>
      let st := GPU_material_compile st (mat mat_conclude) in
      let '(st, ev) := conclude_loop fuel' rest st in
      (st, EvCompile (mat mat_conclude) :: EvFree mat_conclude :: ev)
    end
  end.

Definition drw_deferred_shader_compilation_free (comp : DRWShaderCompiler)
    (st : statuses) : statuses * list event :=
  let ev_queue := drw_deferred_shader_queue_free (queue comp) in
  let '(st, ev_conclude) :=
    if negb (BLI_listbase_is_empty (queue_conclude comp)) then
      let '(st, ev) :=
        conclude_loop (S (length (queue_conclude comp))) (queue_conclude comp) st in
      (st, EvContextEnable :: ev ++ [EvContextDisable])
    else (st, []) in
  let ev_context :=
    if own_context comp then
      (* only destroy if the job owns the context; the two pointers are
         handed over as they are, NULL or not *)
      [EvContextDestroy (gl_context comp) (gpu_context comp)]
    else [] in
  (st, ev_queue ++ ev_conclude ++ ev_context ++ [EvFreeCompiler]).

(** How a turn of the worker's loop ends. *)
Inductive turn : Type :=
| Break (comp : DRWShaderCompiler)
| Continue (comp : DRWShaderCompiler) (st : statuses) (ev : list event).

(** One turn of the [while (true)] loop of
    [drw_deferred_shader_compilation_exec], run without another thread
    stepping in. [stop] is the value of [*stop] read at the top, [opengl]
    whether the backend is OpenGL. *)
Definition exec_turn (opengl stop : bool) (comp : DRWShaderCompiler) (st : statuses)
  : turn :=
  if stop then Break comp
  else
    (* pop tail because it will be less likely to lock the main thread *)
    match BLI_poptail (queue comp) with
    | (None, rest) =>
      (* no more shader to compile *)
      Break (with_compiling None (with_queue rest comp))
    | (Some dsh, rest) =>
      (* comp->shaders_done++; int total = count(queue) + shaders_done *)
      let done := int_wrap (shaders_done comp + 1) in
      let total := int_wrap (BLI_listbase_count rest + done) in
      let comp := with_done done (with_compiling (Some dsh) (with_queue rest comp)) in
      let st := GPU_material_compile st (mat dsh) in
      let ev := [EvCompile (mat dsh); EvProgress done total]
                ++ (if opengl then [EvFlush] else []) in
      if status_eqb (GPU_material_status st (mat dsh)) GPU_MAT_QUEUED then
        Continue (with_compiling None
                    (with_conclude (BLI_addtail (queue_conclude comp) dsh) comp))
                 st ev
      else
        Continue (with_compiling None comp) st (ev ++ [EvFree dsh])
    end.

(** The loop; [stop k] is what the [k]-th read of [*stop] gives. *)
Fixpoint exec_loop (fuel : nat) (opengl : bool) (stop : nat -> bool) (k : nat)
    (comp : DRWShaderCompiler) (st : statuses)
  : DRWShaderCompiler * statuses * list event :=
  match fuel with
  | O => (comp, st, [])
  | S fuel' =>
    match exec_turn opengl (stop k) comp st with
    | Break comp => (comp, st, [])
    | Continue comp st ev =>
      let '(comp, st, ev') := exec_loop fuel' opengl stop (S k) comp st in
      (comp, st, ev ++ ev')
    end
  end.

(** Every turn takes a request off the queue, so one turn more than the
    queue is long is enough. *)
Definition drw_deferred_shader_compilation_exec (opengl : bool) (stop : nat -> bool)
    (comp : DRWShaderCompiler) (st : statuses)
  : DRWShaderCompiler * statuses * list event :=
  exec_loop (S (length (queue comp))) opengl stop 0 comp st.

(** *** Requests from the draw engines *)

(** What the functions read from the draw manager and the window manager:
    [DST.draw_ctx.evil_C != NULL], [DRW_state_is_image_render()],
    [GPU_use_main_context_workaround()], the contexts of the draw manager,
    and the number of windows of the window manager. *)
Record DrawEnv : Type := {
  evil_C : bool;
  image_render : bool;
  main_context_workaround : bool;
  DST_gl_context : nat;
  DST_gpu_context : nat;
  windows : nat
}.

Definition USE_DEFERRED_COMPILATION : bool := true.

(** The state the functions act on. [job] is the custom data of the
    "Shaders Compilation" job of the scene ([WM_jobs_customdata_get], NULL
    when there is none); the job is found by its owner and type, so every
    window finds the same one. [retired] holds the compilers that
    [WM_jobs_customdata_set] has replaced and that the job system frees
    through [drw_deferred_shader_compilation_free]. [next] is the next
    address an allocation returns. *)
Record DRWState : Type := {
  status : statuses;
  job : option DRWShaderCompiler;
  retired : list DRWShaderCompiler;
  next : nat;
  events : list event
}.

(** The body of the loops of [DRW_deferred_shader_remove], for one
    compiler: unlink the request of [m] from the queue, wait for the
    compilation lock if [m] is being compiled, free the request. *)
Definition remove_from_compiler (comp : DRWShaderCompiler) (m : GPUMaterial)
  : DRWShaderCompiler * list event :=
  let dsh := BLI_findptr (queue comp) m in
  let comp' :=
    match dsh with
    | Some d => with_queue (BLI_remlink (queue comp) d) comp
    | None => comp
    end in
  let ev_wait :=
    match mat_compiling comp with
    | Some c => if Nat.eqb (mat c) m then [EvWait] else []
    | None => []
    end in
  let ev_free := match dsh with Some d => [EvFree d] | None => [] end in
  (comp', ev_wait ++ ev_free).

(** The loop over the windows. *)
Fixpoint remove_windows (n : nat) (comp : DRWShaderCompiler) (m : GPUMaterial)
  : DRWShaderCompiler * list event :=
  match n with
  | O => (comp, [])
  | S n' =>
    let '(comp, ev) := remove_from_compiler comp m in
    let '(comp, ev') := remove_windows n' comp m in
    (comp, ev ++ ev')
  end.

Definition DRW_deferred_shader_remove (env : DrawEnv) (m : GPUMaterial)
    (s : DRWState) : DRWState :=
  match job s with
  | None => s (* no job running, or no compiler attached *)
  | Some comp =>
    let '(comp, ev) := remove_windows (windows env) comp m in
    {| status := status s; job := Some comp; retired := retired s;
       next := next s; events := events s ++ ev |}
  end.

(** The deferred branch of [drw_deferred_shader_add], from the allocation
    of the new compiler to the context it ends up with: the compiler the
    job had, as it is left; the new compiler; the events. [fresh] and
    [fresh + 1], [fresh + 2] are the addresses of the request and of a new
    context. *)
Definition add_to_new_compiler (env : DrawEnv) (old_comp : option DRWShaderCompiler)
    (m : GPUMaterial) (fresh : nat)
  : option DRWShaderCompiler * DRWShaderCompiler * list event :=
  let use_main_context := main_context_workaround env in
  let job_own_context := negb use_main_context in
  let dsh := {| addr := fresh; mat := m |} in
  let comp := compiler_calloc in
  let '(old_comp, comp) :=
    match old_comp with
    | Some old =>
      let '(q, old_q) := BLI_movelisttolist (queue comp) (queue old) in
      let old := with_queue old_q old in
      let comp := with_queue q comp in
      (* do not recreate context, just pass ownership *)
      match gl_context old with
      | Some _ =>
        (Some (with_own false old),
         with_own job_own_context (with_context (gl_context old) (gpu_context old) comp))
      | None => (Some old, comp)
      end
    | None => (None, comp)
    end in
  let comp := with_queue (BLI_addtail (queue comp) dsh) comp in
  (* create only one context *)
  let '(comp, ev) :=
    match gl_context comp with
    | None =>
      if use_main_context then
        (with_own job_own_context
           (with_context (Some (DST_gl_context env)) (Some (DST_gpu_context env)) comp), [])
      else
        (with_own job_own_context
           (with_context (Some (fresh + 1)) (Some (fresh + 2)) comp),
         [EvContextCreate (fresh + 1) (fresh + 2)])
    | Some _ => (comp, [])
    end in
  (old_comp, comp, ev).

Definition drw_deferred_shader_add (env : DrawEnv) (m : GPUMaterial) (deferred : bool)
    (s : DRWState) : DRWState :=
  (* do not defer the compilation if we are rendering for image *)
  if negb (evil_C env) || image_render env || negb USE_DEFERRED_COMPILATION
     || negb deferred then
    (* double checking that this GPUMaterial is not going to be compiled by
       another thread *)
    let s := DRW_deferred_shader_remove env m s in
    {| status := GPU_material_compile (status s) m; job := job s;
       retired := retired s; next := next s;
       events := events s ++ [EvCompile m] |}
  else
    let '(old_comp, comp, ev) := add_to_new_compiler env (job s) m (next s) in
    {| status := status s; job := Some comp;
       retired := match old_comp with
                  | Some old => old :: retired s
                  | None => retired s
                  end;
       next := next s + 3; events := events s ++ ev |}.

(** [DRW_shader_from_material], from the material that
    [GPU_material_from_nodetree] returned. *)
Definition DRW_shader_from_material (env : DrawEnv) (m : GPUMaterial) (deferred : bool)
    (s : DRWState) : DRWState :=
  (* do not deferred if doing render *)
  let deferred := if image_render env then false else deferred in
  if deferred && status_eqb (GPU_material_status (status s) m) GPU_MAT_QUEUED then
    s (* shader has been already queued *)
  else
    let s :=
      if status_eqb (GPU_material_status (status s) m) GPU_MAT_CREATED then
        drw_deferred_shader_add env m deferred
          {| status := GPU_material_status_set (status s) m GPU_MAT_QUEUED;
             job := job s; retired := retired s; next := next s; events := events s |}
      else s in
    if negb deferred && status_eqb (GPU_material_status (status s) m) GPU_MAT_QUEUED then
      (* force compilation for shaders already queued *)
      drw_deferred_shader_add env m false s
    else s.

(** [DRW_shader_from_world], likewise. *)
Definition DRW_shader_from_world (env : DrawEnv) (m : GPUMaterial) (deferred : bool)
    (s : DRWState) : DRWState :=
  if negb (image_render env) && deferred
     && status_eqb (GPU_material_status (status s) m) GPU_MAT_QUEUED then
    s (* shader has been already queued *)
  else
    let s :=
      if status_eqb (GPU_material_status (status s) m) GPU_MAT_CREATED then
        drw_deferred_shader_add env m deferred
          {| status := GPU_material_status_set (status s) m GPU_MAT_QUEUED;
             job := job s; retired := retired s; next := next s; events := events s |}
      else s in
    if negb deferred && status_eqb (GPU_material_status (status s) m) GPU_MAT_QUEUED then
      (* force compilation for shaders already queued *)
      drw_deferred_shader_add env m false s
    else s.

End WithGPU.

End Deferred.

(** ** The worker and the main thread on one compiler

    The worker runs [drw_deferred_shader_compilation_exec] on a compiler
    while the main thread calls [DRW_deferred_shader_remove], or
    [drw_deferred_shader_add], which takes the queue away for a new
    compiler and installs that one as the custom data of the job. A step is
    one lock operation, or what a thread does between two of them; the call
    of [GPU_material_compile] has a step for its start and one for its
    return.

    Both functions of the main thread reach a compiler through
    [WM_jobs_customdata_get]. Until [drw_deferred_shader_add] has called
    [WM_jobs_customdata_set] that is the compiler the worker runs on; from
    then on it is the compiler that was installed, which has locks of its
    own, an empty compiling slot, and in its queue the requests that were
    taken, in their order, followed by the requests of the calls that
    installed it. The state follows the requests the worker's compiler
    started with; the requests created later are behind them in the queue
    of the installed compiler and are not part of the state. *)

Module Interleaving.
Import Deferred.

Local Open Scope nat_scope.

Inductive thread : Type := Worker | Main.

(** Where the worker is in [drw_deferred_shader_compilation_exec]. *)
Inductive worker_pc : Type :=
| W_top             (* before BLI_spin_lock at the top of the loop *)
| W_locked          (* holds list_lock; before the test of *stop and the pop *)
| W_popped          (* holds list_lock, mat_compiling set; before BLI_mutex_lock *)
| W_has_mutex       (* holds both locks; before BLI_spin_unlock *)
| W_before_compile  (* holds compilation_lock; before GPU_material_compile *)
| W_in_compile      (* inside GPU_material_compile *)
| W_after_compile   (* the call has returned; before BLI_mutex_unlock *)
| W_unlocked        (* before the second BLI_spin_lock *)
| W_relocked        (* holds list_lock; before the test of the status *)
| W_finish          (* holds list_lock; before the last BLI_spin_unlock *)
| W_break           (* holds list_lock; before the BLI_spin_unlock of a break *)
| W_done.           (* left the loop *)

(** Where the main thread is: in [DRW_deferred_shader_remove] for a
    material, with the request it has found, or in the part of
    [drw_deferred_shader_add] that takes the queue of the old compiler.
    [M_remove_*] are the points of a remove on the compiler of the worker,
    [M_iremove_*] those of a remove on the installed one. *)
Inductive main_pc : Type :=
| M_idle
| M_remove_start (m : GPUMaterial)     (* before BLI_spin_lock *)
| M_remove_locked (m : GPUMaterial)    (* holds list_lock; before BLI_findptr *)
| M_remove_check (m : GPUMaterial) (dsh : option DRWDeferredShader)
                                       (* holds list_lock; before the test of mat_compiling *)
| M_remove_wait (m : GPUMaterial) (dsh : option DRWDeferredShader)
                                       (* holds list_lock; before BLI_mutex_lock *)
| M_remove_has_mutex (m : GPUMaterial) (dsh : option DRWDeferredShader)
                                       (* holds both locks; before BLI_mutex_unlock *)
| M_remove_unlock (m : GPUMaterial) (dsh : option DRWDeferredShader)
                                       (* holds list_lock; before BLI_spin_unlock *)
| M_remove_free (m : GPUMaterial) (dsh : option DRWDeferredShader)
                                       (* before drw_deferred_shader_free and the return *)
| M_take_start                         (* before BLI_spin_lock(&old_comp->list_lock) *)
| M_take_locked                        (* holds list_lock; before BLI_movelisttolist *)
| M_take_unlock                        (* holds list_lock; before BLI_spin_unlock *)
| M_take_disown                        (* before old_comp->own_context = false *)
| M_take_install                       (* before WM_jobs_customdata_set *)
| M_iremove_locked (m : GPUMaterial)   (* holds the lock of the installed compiler;
                                          before BLI_findptr *)
| M_iremove_check (m : GPUMaterial) (dsh : option DRWDeferredShader)
                                       (* before the test of its mat_compiling *)
| M_iremove_unlock (m : GPUMaterial) (dsh : option DRWDeferredShader)
                                       (* before BLI_spin_unlock *)
| M_iremove_free (m : GPUMaterial) (dsh : option DRWDeferredShader).
                                       (* before drw_deferred_shader_free and the return *)

(** What the trace records: the call and the return of
    [GPU_material_compile], the free of a request by the worker (the result
    is discarded) and by [DRW_deferred_shader_remove], and the return of
    the latter: [RemoveReturn] when it has visited the compiler of the
    worker, [RemoveReturnInstalled] when it has visited the installed one. *)
Inductive trace_event : Type :=
| CompileBegin (d : DRWDeferredShader)
| CompileEnd (d : DRWDeferredShader)
| Discarded (d : DRWDeferredShader)
| Removed (d : DRWDeferredShader)
| RemoveReturn (m : GPUMaterial)
| RemoveReturnInstalled (m : GPUMaterial).

(** [comp], [list_lock] and [compilation_lock] are the compiler of the
    worker and its two locks. [installed] says that a new compiler has been
    installed; [taken] is what its queue holds of the requests that were
    moved to it. *)
Record cstate : Type := {
  comp : DRWShaderCompiler;
  list_lock : option thread;
  compilation_lock : option thread;
  wpc : worker_pc;
  mpc : main_pc;
  stat : statuses;
  taken : list DRWDeferredShader;   (* the requests moved to a new compiler *)
  installed : bool;                 (* WM_jobs_customdata_set has been called *)
  trace : list trace_event          (* oldest first *)
}.

Definition set_comp (c : DRWShaderCompiler) (s : cstate) : cstate :=
  {| comp := c; list_lock := list_lock s; compilation_lock := compilation_lock s;
     wpc := wpc s; mpc := mpc s; stat := stat s;
     taken := taken s; installed := installed s; trace := trace s |}.
Definition set_list_lock (l : option thread) (s : cstate) : cstate :=
  {| comp := comp s; list_lock := l; compilation_lock := compilation_lock s;
     wpc := wpc s; mpc := mpc s; stat := stat s;
     taken := taken s; installed := installed s; trace := trace s |}.
Definition set_compilation_lock (l : option thread) (s : cstate) : cstate :=
  {| comp := comp s; list_lock := list_lock s; compilation_lock := l;
     wpc := wpc s; mpc := mpc s; stat := stat s;
     taken := taken s; installed := installed s; trace := trace s |}.
Definition set_wpc (p : worker_pc) (s : cstate) : cstate :=
  {| comp := comp s; list_lock := list_lock s; compilation_lock := compilation_lock s;
     wpc := p; mpc := mpc s; stat := stat s;
     taken := taken s; installed := installed s; trace := trace s |}.
Definition set_mpc (p : main_pc) (s : cstate) : cstate :=
  {| comp := comp s; list_lock := list_lock s; compilation_lock := compilation_lock s;
     wpc := wpc s; mpc := p; stat := stat s;
     taken := taken s; installed := installed s; trace := trace s |}.
Definition set_stat (st : statuses) (s : cstate) : cstate :=
  {| comp := comp s; list_lock := list_lock s; compilation_lock := compilation_lock s;
     wpc := wpc s; mpc := mpc s; stat := st;
     taken := taken s; installed := installed s; trace := trace s |}.
Definition set_taken (l : list DRWDeferredShader) (s : cstate) : cstate :=
  {| comp := comp s; list_lock := list_lock s; compilation_lock := compilation_lock s;
     wpc := wpc s; mpc := mpc s; stat := stat s;
     taken := l; installed := installed s; trace := trace s |}.
Definition set_installed (b : bool) (s : cstate) : cstate :=
  {| comp := comp s; list_lock := list_lock s; compilation_lock := compilation_lock s;
     wpc := wpc s; mpc := mpc s; stat := stat s;
     taken := taken s; installed := b; trace := trace s |}.
Definition log (e : trace_event) (s : cstate) : cstate :=
  {| comp := comp s; list_lock := list_lock s; compilation_lock := compilation_lock s;
     wpc := wpc s; mpc := mpc s; stat := stat s;
     taken := taken s; installed := installed s; trace := trace s ++ [e] |}.

(** Whether [m] is the material in the compiling slot. *)
Definition is_compiling (c : DRWShaderCompiler) (m : GPUMaterial) : bool :=
  match mat_compiling c with
  | Some d => Nat.eqb (mat d) m
  | None => false
  end.

Section Steps.
Variable gpu_compile : GPUMaterial -> eGPUMaterialStatus.

(** The steps of the worker, in the order of the code. *)
Inductive worker_step : cstate -> cstate -> Prop :=
| ws_lock s :
    wpc s = W_top -> list_lock s = None ->
    worker_step s (set_wpc W_locked (set_list_lock (Some Worker) s))
| ws_stop s :
    (* *stop != 0 *)
    wpc s = W_locked ->
    worker_step s (set_wpc W_break s)
| ws_pop_empty s rest :
    wpc s = W_locked -> BLI_poptail (queue (comp s)) = (None, rest) ->
    worker_step s
      (set_wpc W_break (set_comp (with_compiling None (with_queue rest (comp s))) s))
| ws_pop s dsh rest :
    wpc s = W_locked -> BLI_poptail (queue (comp s)) = (Some dsh, rest) ->
    worker_step s
      (set_wpc W_popped
         (set_comp (with_done (int_wrap (shaders_done (comp s) + 1))
                      (with_compiling (Some dsh) (with_queue rest (comp s)))) s))
| ws_break_unlock s :
    wpc s = W_break ->
    worker_step s (set_wpc W_done (set_list_lock None s))
| ws_mutex_lock s :
    wpc s = W_popped -> compilation_lock s = None ->
    worker_step s (set_wpc W_has_mutex (set_compilation_lock (Some Worker) s))
| ws_spin_unlock s :
    wpc s = W_has_mutex ->
    worker_step s (set_wpc W_before_compile (set_list_lock None s))
| ws_compile_call s dsh :
    wpc s = W_before_compile -> mat_compiling (comp s) = Some dsh ->
    worker_step s (set_wpc W_in_compile (log (CompileBegin dsh) s))
| ws_compile_return s dsh :
    wpc s = W_in_compile -> mat_compiling (comp s) = Some dsh ->
    worker_step s
      (set_wpc W_after_compile
         (log (CompileEnd dsh)
            (set_stat (GPU_material_compile gpu_compile (stat s) (mat dsh)) s)))
| ws_mutex_unlock s :
    wpc s = W_after_compile ->
    worker_step s (set_wpc W_unlocked (set_compilation_lock None s))
| ws_relock s :
    wpc s = W_unlocked -> list_lock s = None ->
    worker_step s (set_wpc W_relocked (set_list_lock (Some Worker) s))
| ws_conclude s dsh :
    wpc s = W_relocked -> mat_compiling (comp s) = Some dsh ->
    status_eqb (GPU_material_status (stat s) (mat dsh)) GPU_MAT_QUEUED = true ->
    worker_step s
      (set_wpc W_finish
         (set_comp (with_compiling None
                      (with_conclude (BLI_addtail (queue_conclude (comp s)) dsh) (comp s)))
            s))
| ws_discard s dsh :
    wpc s = W_relocked -> mat_compiling (comp s) = Some dsh ->
    status_eqb (GPU_material_status (stat s) (mat dsh)) GPU_MAT_QUEUED = false ->
    worker_step s
      (set_wpc W_finish (log (Discarded dsh) (set_comp (with_compiling None (comp s)) s)))
| ws_finish_unlock s :
    wpc s = W_finish ->
    worker_step s (set_wpc W_top (set_list_lock None s)).

(** The steps of the main thread. A remove and a take lock the compiler
    that [WM_jobs_customdata_get] gives them: the compiler of the worker
    as long as none is installed, the installed one after that. *)
Inductive main_step : cstate -> cstate -> Prop :=
| ms_remove_call s m :
    mpc s = M_idle ->
    main_step s (set_mpc (M_remove_start m) s)
| ms_remove_lock s m :
    mpc s = M_remove_start m -> installed s = false -> list_lock s = None ->
    main_step s (set_mpc (M_remove_locked m) (set_list_lock (Some Main) s))
| ms_remove_unlink s m :
    mpc s = M_remove_locked m ->
    main_step s
      (set_mpc (M_remove_check m (BLI_findptr (queue (comp s)) m))
         (match BLI_findptr (queue (comp s)) m with
          | Some dsh => set_comp (with_queue (BLI_remlink (queue (comp s)) dsh) (comp s)) s
          | None => s
          end))
| ms_remove_compiling s m dsh :
    mpc s = M_remove_check m dsh -> is_compiling (comp s) m = true ->
    main_step s (set_mpc (M_remove_wait m dsh) s)
| ms_remove_not_compiling s m dsh :
    mpc s = M_remove_check m dsh -> is_compiling (comp s) m = false ->
    main_step s (set_mpc (M_remove_unlock m dsh) s)
| ms_remove_mutex_lock s m dsh :
    mpc s = M_remove_wait m dsh -> compilation_lock s = None ->
    main_step s (set_mpc (M_remove_has_mutex m dsh) (set_compilation_lock (Some Main) s))
| ms_remove_mutex_unlock s m dsh :
    mpc s = M_remove_has_mutex m dsh ->
    main_step s (set_mpc (M_remove_unlock m dsh) (set_compilation_lock None s))
| ms_remove_spin_unlock s m dsh :
    mpc s = M_remove_unlock m dsh ->
    main_step s (set_mpc (M_remove_free m dsh) (set_list_lock None s))
| ms_remove_return s m dsh :
    mpc s = M_remove_free m dsh ->
    main_step s
      (set_mpc M_idle
         (log (RemoveReturn m)
            (match dsh with Some d => log (Removed d) s | None => s end)))
| ms_take_call s :
    mpc s = M_idle ->
    main_step s (set_mpc M_take_start s)
| ms_take_lock s :
    mpc s = M_take_start -> installed s = false -> list_lock s = None ->
    main_step s (set_mpc M_take_locked (set_list_lock (Some Main) s))
| ms_take_move s :
    mpc s = M_take_locked ->
    main_step s
      (set_mpc M_take_unlock
         (set_taken (fst (BLI_movelisttolist (taken s) (queue (comp s))))
            (set_comp (with_queue (snd (BLI_movelisttolist (taken s) (queue (comp s))))
                         (comp s)) s)))
| ms_take_spin_unlock s :
    mpc s = M_take_unlock ->
    main_step s (set_mpc M_take_disown (set_list_lock None s))
| ms_take_disown s :
    mpc s = M_take_disown ->
    main_step s
      (set_mpc M_take_install
         (match gl_context (comp s) with
          | Some _ => set_comp (with_own false (comp s)) s
          | None => s
          end))
| ms_take_install s :
    (* the new request is added behind the taken ones, the context is
       there, and WM_jobs_customdata_set installs the new compiler *)
    mpc s = M_take_install ->
    main_step s (set_mpc M_idle (set_installed true s))
| ms_take_installed s :
    (* old_comp is the installed compiler: its queue goes to the next
       compiler, which is installed in its place; the compiler of the
       worker is not touched *)
    mpc s = M_take_start -> installed s = true ->
    main_step s (set_mpc M_idle s)
| ms_iremove_lock s m :
    (* the lock of the installed compiler, which no other thread takes *)
    mpc s = M_remove_start m -> installed s = true ->
    main_step s (set_mpc (M_iremove_locked m) s)
| ms_iremove_unlink s m :
    mpc s = M_iremove_locked m ->
    main_step s
      (set_mpc (M_iremove_check m (BLI_findptr (taken s) m))
         (match BLI_findptr (taken s) m with
          | Some dsh => set_taken (BLI_remlink (taken s) dsh) s
          | None => s
          end))
| ms_iremove_not_compiling s m dsh :
    (* the compiling slot of the installed compiler is NULL: no wait *)
    mpc s = M_iremove_check m dsh ->
    main_step s (set_mpc (M_iremove_unlock m dsh) s)
| ms_iremove_spin_unlock s m dsh :
    mpc s = M_iremove_unlock m dsh ->
    main_step s (set_mpc (M_iremove_free m dsh) s)
| ms_iremove_return s m dsh :
    mpc s = M_iremove_free m dsh ->
    main_step s
      (set_mpc M_idle
         (log (RemoveReturnInstalled m)
            (match dsh with Some d => log (Removed d) s | None => s end))).

Inductive cstep : cstate -> cstate -> Prop :=
| cstep_worker s s' : worker_step s s' -> cstep s s'
| cstep_main s s' : main_step s s' -> cstep s s'.

(** The job starts on a compiler that [drw_deferred_shader_add] has
    filled, with both locks free. *)
Definition start (c : DRWShaderCompiler) (st : statuses) : cstate :=
  {| comp := c; list_lock := None; compilation_lock := None;
     wpc := W_top; mpc := M_idle; stat := st; taken := []; installed := false;
     trace := [] |}.

Inductive creachable (c : DRWShaderCompiler) (st : statuses) : cstate -> Prop :=
| creachable_start : creachable c st (start c st)
| creachable_step s s' : creachable c st s -> cstep s s' -> creachable c st s'.

End Steps.

End Interleaving.

(** ** Specification vocabulary for the shader library *)

Module ShaderLibSpec.
Import CStr ShaderLib.

(** Bit [j] of a dependency mask. *)
Definition has_bit (d : Z) (j : nat) : Prop := Z.testbit d (Z.of_nat j) = true.

(** What every library built by [DRW_shader_library_add_file] satisfies. *)
Record lib_inv (lib : DRWShaderLibrary) : Prop := {
  inv_len_libs : length (libs lib) = MAX_LIB;
  inv_len_name : length (libs_name lib) = MAX_LIB;
  inv_len_deps : length (libs_deps lib) = MAX_LIB;
  (* the occupied slots are the first ones *)
  inv_prefix : forall i j, (j <= i)%nat -> lib_at lib i <> None -> lib_at lib j <> None;
  (* a stored mask names occupied slots that are not later than its own *)
  inv_deps : forall i j, has_bit (deps_at lib i) j ->
               (j <= i)%nat /\ lib_at lib i <> None
}.

(** The shape of a successful registration at slot [i]. *)
Definition stored (lib : DRWShaderLibrary) (i : nat) (lib_code lib_name : string)
  : DRWShaderLibrary :=
  {| libs := <[i := Some lib_code]> (libs lib);
     libs_name := <[i := BLI_strncpy lib_name MAX_LIB_NAME]> (libs_name lib);
     libs_deps := libs_deps lib |}.

(** The reference meaning of "transitively required": the least set of
    slots that holds the direct dependencies [d0] and, with a registered
    fragment, every bit of its stored mask. *)
Inductive required (lib : DRWShaderLibrary) (d0 : Z) : nat -> Prop :=
| required_direct j : has_bit d0 j -> required lib d0 j
| required_via i j :
    required lib d0 i -> lib_at lib i <> None -> has_bit (deps_at lib i) j ->
    required lib d0 j.

(** The precondition of the single backward pass, as a test: the stored
    mask of every registered fragment [i] is below [2 ^ i], that is, all
    its bits are at strictly lower indices. *)
Definition deps_strictly_below (lib : DRWShaderLibrary) : bool :=
  forallb (fun i => match lib_at lib i with
                    | Some _ => (0 <=? deps_at lib i) && (deps_at lib i <? 2 ^ Z.of_nat i)
                    | None => true
                    end) (seq 0 MAX_LIB).

(** The arrays have [MAX_LIB] entries. *)
Definition sized (lib : DRWShaderLibrary) : bool :=
  (length (libs lib) =? MAX_LIB)%nat && (length (libs_name lib) =? MAX_LIB)%nat
  && (length (libs_deps lib) =? MAX_LIB)%nat.

(** The text of slot [i]. *)
Definition source_at (lib : DRWShaderLibrary) (i : nat) : string :=
  match lib_at lib i with Some c => c | None => EmptyString end.

(** The loop variable values at which the concatenation loop appends. *)
Fixpoint set_bits (n i : nat) (deps : Z) : list nat :=
  match n with
  | O => []
  | S n' => (if Z.testbit deps 0 then [i] else []) ++ set_bits n' (S i) (Z.shiftr deps 1)
  end.

Definition concat_sources (lib : DRWShaderLibrary) (idx : list nat) : string :=
  fold_right (fun i acc => (source_at lib i ++ acc)%string) EmptyString idx.

(** Every one of the [MAX_LIB] slots is taken. *)
Definition registry_full (lib : DRWShaderLibrary) : bool :=
  forallb (fun i => match lib_at lib i with Some _ => true | None => false end)
          (seq 0 MAX_LIB).

(** Slot [i] is where the next registration goes. *)
Definition next_slot (lib : DRWShaderLibrary) (i : nat) : bool :=
  (free_slot_loop lib MAX_LIB 0 =? Z.of_nat i).

(** A registry with all its slots taken, for the examples. *)
Definition full_library : DRWShaderLibrary :=
  {| libs := replicate MAX_LIB (Some "x;"%string);
     libs_name := replicate MAX_LIB "x"%string;
     libs_deps := replicate MAX_LIB 0 |}.


(** *** The texts and their directives *)

Fixpoint has_char (c : ascii) (s : string) : bool :=
  match s with
  | EmptyString => false
  | String x rest => Ascii.eqb x c || has_char c rest
  end.

(** What follows the marker [pragma], for every position of [text] at
    which the marker stands, first position first. *)
Fixpoint directives (pragma text : string) : list string :=
  (if String.prefix pragma text then [advance (String.length pragma) text] else [])
  ++ match text with
     | EmptyString => []
     | String _ rest => directives pragma rest
     end.

(** A name as a directive carries it: no parenthesis and no NUL in it. *)
Definition plain (n : string) : Prop :=
  has_char "(" n = false /\ has_char ")" n = false /\ has_char NUL n = false.

(** [post], the text behind a marker, is the name [n], the closing
    parenthesis and the rest. *)
Definition starts_with_name (n post : string) : Prop :=
  exists rest, post = (n ++ String ")" rest)%string.

(** The text of [post] before the first closing parenthesis. *)
Fixpoint name_of (post : string) : string :=
  match post with
  | EmptyString => EmptyString
  | String c rest => if Ascii.eqb c ")" then EmptyString else String c (name_of rest)
  end.

(** A directive in full: the marker, a plain name, the closing
    parenthesis. *)
Definition closed_directive (post : string) : Prop :=
  exists n, plain n /\ starts_with_name n post.

(** A text without NUL, as a C string is, in which every marker opens a
    directive in full. *)
Definition well_formed (text : string) : Prop :=
  has_char NUL text = false /\
  Forall closed_directive (directives pragma_require text).

(** [text] has a directive that names [n]. *)
Definition names_fragment (text n : string) : Prop :=
  exists post, In post (directives pragma_require text) /\ starts_with_name n post.

(** The name the log shows for the unresolved directive [post]: the
    buffer of the copy loop holds [MAX_NAME - 2] characters of it. *)
Definition logged_name (post : string) : string :=
  String.substring 0 (MAX_NAME - 2) (name_of post).

(** *** Libraries, as the registrations describe them

    [files] are the calls of [DRW_shader_library_add_file] in their order,
    each the code and the name. *)

Definition names_of (files : list (string * string)) : list string := map snd files.

(** Names the registry can tell apart: plain, short enough to be stored
    in full, none a prefix of another; and no more files than slots. *)
Record well_named (files : list (string * string)) : Prop := {
  wn_count : (length files <= MAX_LIB)%nat;
  wn_plain : forall n, In n (names_of files) ->
               plain n /\ (String.length n < MAX_LIB_NAME)%nat;
  wn_free : forall i j ni nj,
              nth_error (names_of files) i = Some ni ->
              nth_error (names_of files) j = Some nj ->
              i <> j -> String.prefix ni nj = false
}.

(** Every directive of a fragment names a fragment registered before
    it. *)
Definition dependency_order (files : list (string * string)) : Prop :=
  forall j code name, nth_error files j = Some (code, name) ->
    has_char NUL code = false /\
    Forall (fun post => exists i n,
              (i < j)%nat /\ nth_error (names_of files) i = Some n /\
              starts_with_name n post)
           (directives pragma_require code).

(** Every directive of a shader source is a directive in full, and no
    registered name is a proper prefix of the name it carries: it names a
    registered fragment or none. *)
Definition source_directives (files : list (string * string)) (source : string) : Prop :=
  has_char NUL source = false /\
  Forall (fun post => exists n,
            plain n /\ starts_with_name n post /\
            forall m, In m (names_of files) -> String.prefix m n = true -> m = n)
         (directives pragma_require source).

(** "Transitively required", read off the texts: the fragments that the
    source names, and those that a required fragment names. *)
Inductive spec_required (files : list (string * string)) (source : string)
  : nat -> Prop :=
| spec_required_direct k code name :
    nth_error files k = Some (code, name) -> names_fragment source name ->
    spec_required files source k
| spec_required_via i k code_i name_i code_k name_k :
    spec_required files source i ->
    nth_error files i = Some (code_i, name_i) ->
    nth_error files k = Some (code_k, name_k) ->
    names_fragment code_i name_k ->
    spec_required files source k.

(** The codes of the files [idx], one behind the other. *)
Definition concat_texts (files : list (string * string)) (idx : list nat) : string :=
  fold_right (fun k acc => (fst (nth k files (EmptyString, EmptyString)) ++ acc)%string)
             EmptyString idx.

(** The slot [k] is the first one whose stored name is a prefix of [post],
    all slots up to it being taken. *)
Definition first_prefix (lib : DRWShaderLibrary) (post : string) (k : nat) : Prop :=
  (k < MAX_LIB)%nat /\
  (forall m, (m <= k)%nat -> lib_at lib m <> None) /\
  String.prefix (name_at lib k) post = true /\
  (forall m, (m < k)%nat -> String.prefix (name_at lib m) post = false).

(** No slot resolves [post]: no stored name up to the first free slot is
    a prefix of it. *)
Definition no_prefix (lib : DRWShaderLibrary) (post : string) : Prop :=
  forall k, (k < MAX_LIB)%nat ->
    (forall m, (m <= k)%nat -> lib_at lib m <> None) ->
    String.prefix (name_at lib k) post = false.

(** The registry holds fragments under exactly the names [names], in
    their order, and nothing else. *)
Definition registered (lib : DRWShaderLibrary) (names : list string) : Prop :=
  (length names <= MAX_LIB)%nat /\
  forall m,
    ((m < length names)%nat ->
     lib_at lib m <> None /\ name_at lib m = nth m names EmptyString) /\
    ((length names <= m)%nat -> lib_at lib m = None).

(** Names the registry can tell apart. *)
Definition distinct_names (names : list string) : Prop :=
  (forall n, In n names -> plain n) /\
  forall i j ni nj,
    nth_error names i = Some ni -> nth_error names j = Some nj ->
    i <> j -> String.prefix ni nj = false.

(** Memory in which nothing lies behind a text, for the examples. *)
Definition nothing_behind (text : string) : string := EmptyString.

(** Memory in which every text is followed by two bytes, a closing
    parenthesis and a directive that names [A]. *)
Definition directive_behind (text : string) : string := "xx) BLENDER_REQUIRE(A)"%string.

(** Sixty-five files: the codes are [0;] to [p;], the names [0#] to
    [p#]. *)
Definition sixty_five_files : list (string * string) :=
  map (fun k => (String (ascii_of_nat (48 + k)) ";", String (ascii_of_nat (48 + k)) "#"))
      (seq 0 65).

(** [n] times the letter [a]. *)
Fixpoint stem (n : nat) : string :=
  match n with
  | O => EmptyString
  | S n' => String "a" (stem n')
  end.

(** Two names of [MAX_LIB_NAME] characters that differ in the last one. *)
Definition long_named_files : list (string * string) :=
  [("x;", stem 63 ++ "x"); ("y;", stem 63 ++ "y")]%string.

End ShaderLibSpec.

(** ** Specification vocabulary for the deferred compiler *)

Module DeferredSpec.
Import Deferred.

Local Open Scope nat_scope.

(** The requests a run has freed, the materials it has compiled and the
    progress it has reported, in order. *)
Definition freed (ev : list event) : list DRWDeferredShader :=
  flat_map (fun e => match e with EvFree d => [d] | _ => [] end) ev.

Definition compiled (ev : list event) : list GPUMaterial :=
  flat_map (fun e => match e with EvCompile m => [m] | _ => [] end) ev.

Definition progress_of (ev : list event) : list (Z * Z) :=
  flat_map (fun e => match e with EvProgress d t => [(d, t)] | _ => [] end) ev.

(** The pairs of pointers handed to [GPU_context_discard] and
    [WM_opengl_context_dispose], NULL or not; and, of those, the contexts
    that were there to destroy. *)
Definition disposals (ev : list event) : list (option nat * option nat) :=
  flat_map (fun e => match e with EvContextDestroy gl gpu => [(gl, gpu)] | _ => [] end) ev.

Definition destroyed (ev : list event) : list (nat * nat) :=
  flat_map (fun e => match e with
                     | EvContextDestroy (Some gl) (Some gpu) => [(gl, gpu)]
                     | _ => []
                     end) ev.

(** How often the caller has waited for the compilation lock. *)
Definition waits (ev : list event) : nat :=
  length (List.filter (fun e => match e with EvWait => true | _ => false end) ev).

(** [comp->mat_compiling != NULL && comp->mat_compiling->mat == mat]. *)
Definition compiling (comp : DRWShaderCompiler) (m : GPUMaterial) : bool :=
  match mat_compiling comp with
  | Some c => Nat.eqb (mat c) m
  | None => false
  end.

Definition created (ev : list event) : list (nat * nat) :=
  flat_map (fun e => match e with EvContextCreate gl gpu => [(gl, gpu)] | _ => [] end) ev.

(** The status after compiling the materials of [l] one after the other. *)
Definition compile_all (gpu_compile : GPUMaterial -> eGPUMaterialStatus)
    (l : list DRWDeferredShader) (st : statuses) : statuses :=
  fold_left (fun st d => GPU_material_compile gpu_compile st (mat d)) l st.

(** Whether compiling leaves the material queued. *)
Definition stays_queued (gpu_compile : GPUMaterial -> eGPUMaterialStatus)
    (d : DRWDeferredShader) : bool :=
  status_eqb (gpu_compile (mat d)) GPU_MAT_QUEUED.

(** The progress reports [(first, total)], [(first + 1, total)], ... *)
Fixpoint progress_ramp (n : nat) (first total : Z) : list (Z * Z) :=
  match n with
  | O => []
  | S n' => (first, total) :: progress_ramp n' (first + 1)%Z total
  end.

(** No two requests of the list are for the same material. *)
Definition distinct_mats (l : list DRWDeferredShader) : Prop :=
  List.NoDup (map mat l).

(** The requests of a list that are for material [m], and the others. *)
Definition requests_of (m : GPUMaterial) (l : list DRWDeferredShader) :=
  List.filter (fun d => Nat.eqb (mat d) m) l.

Definition without (m : GPUMaterial) (l : list DRWDeferredShader) :=
  List.filter (fun d => negb (Nat.eqb (mat d) m)) l.

(** The test of [drw_deferred_shader_add]: compile at once, on the calling
    thread. *)
Definition sync_compile (env : DrawEnv) (deferred : bool) : bool :=
  negb (evil_C env) || image_render env || negb USE_DEFERRED_COMPILATION || negb deferred.

(** An interactive viewport with one window, and an image render. *)
Definition viewport_env : DrawEnv :=
  {| evil_C := true; image_render := false; main_context_workaround := false;
     DST_gl_context := 1; DST_gpu_context := 2; windows := 1 |}.

Definition render_env : DrawEnv :=
  {| evil_C := true; image_render := true; main_context_workaround := false;
     DST_gl_context := 1; DST_gpu_context := 2; windows := 1 |}.

(** Nothing queued, no job, every material just created. *)
Definition initial_state : DRWState :=
  {| status := fun _ => GPU_MAT_CREATED; job := None; retired := [];
     next := 1000; events := [] |}.

(** The state with the material marked as queued. *)
Definition mark_queued (m : GPUMaterial) (s : DRWState) : DRWState :=
  {| status := GPU_material_status_set (status s) m GPU_MAT_QUEUED;
     job := job s; retired := retired s; next := next s; events := events s |}.

(** *** Runs

    What can happen to the state, one thing at a time: a call of an entry
    point or of [DRW_deferred_shader_remove], a turn of the worker on the
    compiler of the job, the end of the job (the job system calls the free
    callback, [drw_deferred_shader_compilation_free], on its compiler), and
    the release of a compiler that was replaced. [workaround] is what
    [GPU_use_main_context_workaround()] answers, the same all along. *)
Inductive step (gpu_compile : GPUMaterial -> eGPUMaterialStatus) (workaround : bool)
  : DRWState -> DRWState -> Prop :=
| step_from_material env m deferred s :
    main_context_workaround env = workaround ->
    step gpu_compile workaround s (DRW_shader_from_material gpu_compile env m deferred s)
| step_from_world env m deferred s :
    main_context_workaround env = workaround ->
    step gpu_compile workaround s (DRW_shader_from_world gpu_compile env m deferred s)
| step_remove env m s :
    step gpu_compile workaround s (DRW_deferred_shader_remove env m s)
| step_worker opengl s comp comp' st' ev :
    job s = Some comp ->
    exec_turn gpu_compile opengl false comp (status s) = Continue comp' st' ev ->
    step gpu_compile workaround s
      {| status := st'; job := Some comp'; retired := retired s; next := next s;
         events := events s ++ ev |}
| step_job_end s comp :
    job s = Some comp ->
    step gpu_compile workaround s
      {| status := fst (drw_deferred_shader_compilation_free gpu_compile comp (status s));
         job := None; retired := retired s; next := next s;
         events := events s
                   ++ snd (drw_deferred_shader_compilation_free gpu_compile comp (status s)) |}
| step_release s l1 comp l2 :
    retired s = l1 ++ comp :: l2 ->
    step gpu_compile workaround s
      {| status := fst (drw_deferred_shader_compilation_free gpu_compile comp (status s));
         job := job s; retired := l1 ++ l2; next := next s;
         events := events s
                   ++ snd (drw_deferred_shader_compilation_free gpu_compile comp (status s)) |}.

(** The states a run reaches when it starts without a job. *)
Inductive reachable (gpu_compile : GPUMaterial -> eGPUMaterialStatus) (workaround : bool)
  : DRWState -> Prop :=
| reachable_start st n :
    reachable gpu_compile workaround
      {| status := st; job := None; retired := []; next := n; events := [] |}
| reachable_step s s' :
    reachable gpu_compile workaround s -> step gpu_compile workaround s s' ->
    reachable gpu_compile workaround s'.

(** The queue of the job holds a material at most once, and none that is
    merely created. *)
Definition queue_inv (s : DRWState) : Prop :=
  forall comp, job s = Some comp ->
    distinct_mats (queue comp) /\
    forall d, In d (queue comp) -> status s (mat d) <> GPU_MAT_CREATED.

(** Who owns a context. *)
Definition context_inv (workaround : bool) (s : DRWState) : Prop :=
  (forall c, In c (retired s) -> own_context c = false) /\
  (forall c, job s = Some c ->
     own_context c = negb workaround /\
     exists gl gpu, gl_context c = Some gl /\ gpu_context c = Some gpu /\
       (workaround = false ->
        gl < next s /\ In (gl, gpu) (created (events s)) /\
        ~ In (gl, gpu) (destroyed (events s)))) /\
  (forall p, In p (destroyed (events s)) ->
     fst p < next s /\ In p (created (events s))) /\
  (forall p, In p (created (events s)) -> fst p < next s) /\
  List.NoDup (destroyed (events s)).

(** The compilers there are: the one of the job, and those that were
    replaced and are not freed yet. Among them, the ones that own a
    context. *)
Definition instances (s : DRWState) : list DRWShaderCompiler :=
  match job s with Some c => [c] | None => [] end ++ retired s.

Definition owners (s : DRWState) : list DRWShaderCompiler :=
  List.filter own_context (instances s).

(** The queue of the compiler of the job. *)
Definition queue_of (s : DRWState) : list DRWDeferredShader :=
  match job s with Some comp => queue comp | None => [] end.

(** Deferred requests for the materials of [ms], one after the other. *)
Definition request_all (gpu_compile : GPUMaterial -> eGPUMaterialStatus) (env : DrawEnv)
    (ms : list GPUMaterial) (s : DRWState) : DRWState :=
  fold_left (fun s m => DRW_shader_from_material gpu_compile env m true s) ms s.

(** A compiler and a GPU for the examples: three requests queued, for the
    materials 10, 11 and 12; compiling succeeds but for material 11. *)
Definition example_compiler : DRWShaderCompiler :=
  with_own true
    (with_context (Some 100) (Some 101)
       (with_queue [ {| addr := 1; mat := 10 |}; {| addr := 2; mat := 11 |};
                     {| addr := 3; mat := 12 |} ] compiler_calloc)).

Definition example_gpu (m : GPUMaterial) : eGPUMaterialStatus :=
  if Nat.eqb m 11 then GPU_MAT_FAILED else GPU_MAT_SUCCESS.

Definition all_queued : statuses := fun _ => GPU_MAT_QUEUED.

Definition never_stop : nat -> bool := fun _ => false.

End DeferredSpec.

(** ** Specification vocabulary for the interleavings *)

Module InterleavingSpec.
Import Deferred Interleaving.

Local Open Scope nat_scope.

(** The program points at which a thread holds a lock of the compiler of
    the worker, and those at which the compiling slot is filled. *)
Definition worker_holds_list (p : worker_pc) : bool :=
  match p with
  | W_locked | W_popped | W_has_mutex | W_relocked | W_finish | W_break => true
  | _ => false
  end.

Definition main_holds_list (p : main_pc) : bool :=
  match p with
  | M_remove_locked _ | M_remove_check _ _ | M_remove_wait _ _
  | M_remove_has_mutex _ _ | M_remove_unlock _ _ | M_take_locked | M_take_unlock => true
  | _ => false
  end.

Definition worker_holds_mutex (p : worker_pc) : bool :=
  match p with
  | W_has_mutex | W_before_compile | W_in_compile | W_after_compile => true
  | _ => false
  end.

Definition main_holds_mutex (p : main_pc) : bool :=
  match p with M_remove_has_mutex _ _ => true | _ => false end.

Definition slot_filled (p : worker_pc) : bool :=
  match p with
  | W_popped | W_has_mutex | W_before_compile | W_in_compile | W_after_compile
  | W_unlocked | W_relocked => true
  | _ => false
  end.

(** The program points at which the main thread asks for a lock of the
    compiler of the worker. *)
Definition main_wants_list (s : cstate) : bool :=
  match mpc s with
  | M_remove_start _ | M_take_start => negb (installed s)
  | _ => false
  end.

Definition main_wants_mutex (p : main_pc) : bool :=
  match p with M_remove_wait _ _ => true | _ => false end.

(** The locks are held by the thread whose program point says so, by one
    thread at a time, and the slot is filled exactly between the pop and
    the end of the turn. *)
Definition lock_inv (s : cstate) : Prop :=
  list_lock s = (if worker_holds_list (wpc s) then Some Worker
                 else if main_holds_list (mpc s) then Some Main else None) /\
  worker_holds_list (wpc s) && main_holds_list (mpc s) = false /\
  compilation_lock s = (if worker_holds_mutex (wpc s) then Some Worker
                        else if main_holds_mutex (mpc s) then Some Main else None) /\
  worker_holds_mutex (wpc s) && main_holds_mutex (mpc s) = false /\
  (if slot_filled (wpc s) then mat_compiling (comp s) <> None
   else mat_compiling (comp s) = None).

(** The request the main thread has unlinked and not yet freed. *)
Definition in_hand (p : main_pc) : list DRWDeferredShader :=
  match p with
  | M_remove_check _ (Some d) | M_remove_wait _ (Some d) | M_remove_has_mutex _ (Some d)
  | M_remove_unlock _ (Some d) | M_remove_free _ (Some d)
  | M_iremove_check _ (Some d) | M_iremove_unlock _ (Some d)
  | M_iremove_free _ (Some d) => [d]
  | _ => []
  end.

Definition in_slot (c : DRWShaderCompiler) : list DRWDeferredShader :=
  match mat_compiling c with Some d => [d] | None => [] end.

Definition discarded_in (tr : list trace_event) : list DRWDeferredShader :=
  flat_map (fun e => match e with Discarded d => [d] | _ => [] end) tr.

Definition removed_in (tr : list trace_event) : list DRWDeferredShader :=
  flat_map (fun e => match e with Removed d => [d] | _ => [] end) tr.

(** Every place a request can be. *)
Definition places (s : cstate) : list DRWDeferredShader :=
  queue (comp s) ++ queue_conclude (comp s) ++ in_slot (comp s)
  ++ in_hand (mpc s) ++ taken s ++ discarded_in (trace s) ++ removed_in (trace s).

(** The places by name. *)
Inductive place : Type :=
| P_queue | P_conclude | P_slot | P_hand | P_taken | P_discarded | P_removed.

Definition at_place (s : cstate) (p : place) : list DRWDeferredShader :=
  match p with
  | P_queue => queue (comp s)
  | P_conclude => queue_conclude (comp s)
  | P_slot => in_slot (comp s)
  | P_hand => in_hand (mpc s)
  | P_taken => taken s
  | P_discarded => discarded_in (trace s)
  | P_removed => removed_in (trace s)
  end.

(** The places of a request that has been freed. *)
Definition freed_place (p : place) : bool :=
  match p with P_discarded | P_removed => true | _ => false end.

(** The material of a remove that is past its wait. *)
Definition removing_past_wait (p : main_pc) (m : GPUMaterial) : Prop :=
  exists dsh, p = M_remove_unlock m dsh \/ p = M_remove_free m dsh.

(** The material of a remove that has looked through the queue. *)
Definition removing_past_unlink (p : main_pc) (m : GPUMaterial) : Prop :=
  exists dsh, p = M_remove_check m dsh \/ p = M_remove_wait m dsh \/
              p = M_remove_has_mutex m dsh \/ p = M_remove_unlock m dsh \/
              p = M_remove_free m dsh.

(** The worker is at or before the call of [GPU_material_compile] for the
    request in the slot, or inside it. *)
Definition compile_ahead (p : worker_pc) : bool :=
  match p with
  | W_popped | W_has_mutex | W_before_compile | W_in_compile => true
  | _ => false
  end.

(** Nothing of material [m] is left to compile. *)
Definition settled (s : cstate) (m : GPUMaterial) : Prop :=
  (forall d, In d (queue (comp s)) -> mat d <> m) /\
  (forall d, mat_compiling (comp s) = Some d -> mat d = m ->
     compile_ahead (wpc s) = false).

Definition remove_inv (s : cstate) : Prop :=
  List.NoDup (map mat (queue (comp s) ++ in_slot (comp s))) /\
  (forall m, removing_past_unlink (mpc s) m ->
     forall d, In d (queue (comp s)) -> mat d <> m) /\
  (forall m, removing_past_wait (mpc s) m -> settled s m) /\
  (forall m, In (RemoveReturn m) (trace s) -> settled s m) /\
  (forall d, In (CompileBegin d) (trace s) ->
     In (CompileEnd d) (trace s) \/
     (wpc s = W_in_compile /\ mat_compiling (comp s) = Some d)).

(** What the trace has to look like around the return of a remove. *)
Definition trace_ok (tr : list trace_event) : Prop :=
  forall l1 m l2, tr = l1 ++ RemoveReturn m :: l2 ->
    forall d, mat d = m ->
      (In (CompileBegin d) l1 -> In (CompileEnd d) l1) /\
      ~ In (CompileBegin d) l2.

(** Where a request is once its compile has been started. *)
Definition after_begin (s : cstate) : list DRWDeferredShader :=
  in_slot (comp s) ++ queue_conclude (comp s) ++ discarded_in (trace s).

(** A request in the hand of the remove or freed by it. *)
Definition removed_by_main (s : cstate) (d : DRWDeferredShader) : Prop :=
  In d (in_hand (mpc s)) \/ In (Removed d) (trace s).

(** A compiler with two requests and the statuses for the examples. *)
Definition example_start : cstate :=
  start (with_queue [ {| addr := 1; mat := 10 |}; {| addr := 2; mat := 11 |} ]
           compiler_calloc)
        (fun _ => GPU_MAT_QUEUED).

(** A run from [example_start]: the main thread removes material 11, whose
    request is still in the queue, while the worker has not started. *)
Definition example_run1 : cstate := set_mpc (M_remove_start 11) example_start.
Definition example_run2 : cstate :=
  set_mpc (M_remove_locked 11) (set_list_lock (Some Main) example_run1).
Definition example_run3 : cstate :=
  set_mpc (M_remove_check 11 (BLI_findptr (queue (comp example_run2)) 11))
    (match BLI_findptr (queue (comp example_run2)) 11 with
     | Some dsh =>
       set_comp (with_queue (BLI_remlink (queue (comp example_run2)) dsh)
                   (comp example_run2)) example_run2
     | None => example_run2
     end).
Definition example_run4 : cstate :=
  set_mpc (M_remove_unlock 11 (Some {| addr := 2; mat := 11 |})) example_run3.
Definition example_run5 : cstate :=
  set_mpc (M_remove_free 11 (Some {| addr := 2; mat := 11 |}))
    (set_list_lock None example_run4).
Definition example_run6 : cstate :=
  set_mpc M_idle
    (log (RemoveReturn 11) (log (Removed {| addr := 2; mat := 11 |}) example_run5)).

End InterleavingSpec.

(** ** Shader creation through the library *)

Module ShaderCreate.
Import CStr ShaderLib ShaderLibSpec.

Section WithGPUShader.

(** [GPU_shader_create(vertexcode, fragcode, geocode, libcode, defines,
    shname)] belongs to the GPU module; a NULL argument is [None]. The
    vertex shader of the fullscreen passes is a data file of the build. *)
Variable GPUShader : Type.
Variable GPU_shader_create :
  option string -> option string -> option string -> option string ->
  option string -> option string -> GPUShader.
Variable datatoc_common_fullscreen_vert_glsl : string.

(** What lies in memory behind the texts, as in the library. *)
Variable behind : string -> string.

Definition DRW_shader_create_ex (vert geom frag defines name : option string)
  : GPUShader :=
  GPU_shader_create vert frag geom None defines name.

(** [vert] and [frag] are read by [strstr], so they are strings; [geom]
    may be NULL. The result is [None] when an expansion dereferences a
    NULL fragment. The three strings are freed after the call. *)
Definition DRW_shader_create_with_shaderlib_ex (vert : string) (geom : option string)
    (frag : string) (lib : DRWShaderLibrary) (defines name : option string)
  : option GPUShader :=
  match DRW_shader_library_create_shader_string behind lib vert with
  | None => None
  | Some vert_with_lib =>
    match DRW_shader_library_create_shader_string behind lib frag with
    | None => None
    | Some frag_with_lib =>
      match geom with
      | Some g =>
        match DRW_shader_library_create_shader_string behind lib g with
        | None => None
        | Some geom_with_lib =>
          Some (GPU_shader_create (Some vert_with_lib) (Some frag_with_lib)
                  (Some geom_with_lib) None defines name)
        end
      | None =>
        Some (GPU_shader_create (Some vert_with_lib) (Some frag_with_lib)
                None None defines name)
      end
    end
  end.

Definition DRW_shader_create_fullscreen_ex (frag defines name : option string)
  : GPUShader :=
  GPU_shader_create (Some datatoc_common_fullscreen_vert_glsl) frag None None
    defines name.

Definition DRW_shader_create_fullscreen_with_shaderlib_ex (frag : string)
    (lib : DRWShaderLibrary) (defines name : option string) : option GPUShader :=
  let vert := datatoc_common_fullscreen_vert_glsl in
  match DRW_shader_library_create_shader_string behind lib frag with
  | None => None
  | Some frag_with_lib =>
    Some (GPU_shader_create (Some vert) (Some frag_with_lib) None None defines name)
  end.

End WithGPUShader.

(** [out] is [code] behind the codes of the fragments that it requires,
    directly or through other fragments, as the texts say it: each once,
    in the order of registration. *)
Definition expansion_of (files : list (string * string)) (code out : string) : Prop :=
  exists idx : list nat,
    StronglySorted lt idx /\
    (forall k, In k idx <-> spec_required files code k) /\
    out = (concat_texts files idx ++ code)%string.

(** A GPU module that records its arguments, for the examples. *)
Definition recording_gpu (vert frag geom libcode defines name : option string)
  : list (option string) :=
  [vert; frag; geom; libcode; defines; name].

End ShaderCreate.

(** ** Facts about the C string functions *)

Module CStrFacts.
Import CStr.

Lemma strstr_unfold haystack needle :
  strstr haystack needle =
  if String.prefix needle haystack then Some haystack
  else match haystack with
       | EmptyString => None
       | String c rest => if Ascii.eqb c NUL then None else strstr rest needle
       end.
Proof. destruct haystack; reflexivity. Qed.

Lemma strstr_suffix haystack needle h :
  strstr haystack needle = Some h ->
  String.prefix needle h = true /\
  (String.length h <= String.length haystack)%nat.
Proof.
  induction haystack as [|c rest IH]; rewrite strstr_unfold.
  - destruct (String.prefix needle "") eqn:E; [|discriminate].
    intros [= <-]. split; [exact E|lia].
  - destruct (String.prefix needle (String c rest)) eqn:E.
    + intros [= <-]. split; [exact E|lia].
    + destruct (Ascii.eqb c NUL); [discriminate|].
      intros H. destruct (IH H) as [Hp Hl].
      split; [exact Hp|cbn [String.length]; lia].
Qed.

Lemma prefix_length a b :
  String.prefix a b = true -> (String.length a <= String.length b)%nat.
Proof.
  revert a. induction b as [|c b IH]; intros [|d a]; simpl; try lia; try discriminate.
  destruct (ascii_dec d c); [|discriminate].
  intros H. apply IH in H. lia.
Qed.

Lemma advance_length n s :
  String.length (advance n s) = (String.length s - n)%nat.
Proof.
  revert s. induction n as [|n IH]; intros [|c s]; simpl; try lia.
  rewrite IH. lia.
Qed.

Lemma string_app_nil_r (s : string) : (s ++ "")%string = s.
Proof. induction s as [|c s IH]; simpl; [reflexivity|]. rewrite IH. reflexivity. Qed.

Lemma string_app_assoc (a b c : string) : ((a ++ b) ++ c = a ++ (b ++ c))%string.
Proof. induction a as [|x a IH]; simpl; [reflexivity|]. rewrite IH. reflexivity. Qed.

Lemma prefix_trans (a b c : string) :
  String.prefix a b = true -> String.prefix b c = true -> String.prefix a c = true.
Proof.
  revert a b. induction c as [|x c IH]; intros [|y a] [|z b]; simpl; auto; try discriminate.
  destruct (ascii_dec y z) as [->|]; [|discriminate].
  destruct (ascii_dec z x) as [->|]; [|discriminate].
  apply IH.
Qed.

End CStrFacts.

(** ** Facts about the shader library *)

Module ShaderLibFacts.
Import CStr CStrFacts ShaderLib ShaderLibSpec.

(** *** Arrays *)

Lemma nth_insert_eq {A} (l : list A) (i : nat) (x d : A) :
  (i < length l)%nat -> nth i (<[i:=x]> l) d = x.
Proof.
  intros Hi. rewrite nth_lookup, list_lookup_insert_eq by exact Hi. reflexivity.
Qed.

Lemma nth_insert_ne {A} (l : list A) (i j : nat) (x d : A) :
  i <> j -> nth j (<[i:=x]> l) d = nth j l d.
Proof.
  intros Hij. rewrite !nth_lookup, list_lookup_insert_ne by exact Hij. reflexivity.
Qed.

Lemma nth_replicate_default {A} (n i : nat) (d : A) : nth i (replicate n d) d = d.
Proof.
  revert i. induction n as [|n IH]; intros [|i]; simpl; auto.
Qed.

(** *** Bits *)

Lemma bit64_small (k : nat) : (k < MAX_LIB)%nat -> bit64 (Z.of_nat k) = 2 ^ Z.of_nat k.
Proof.
  unfold MAX_LIB, bit64, u64. intros Hk.
  rewrite Z.shiftl_1_l. apply Z.mod_small. split.
  - apply Z.pow_nonneg. lia.
  - apply Z.pow_lt_mono_r; lia.
Qed.

Lemma has_bit_pow2 (k j : nat) : has_bit (2 ^ Z.of_nat k) j <-> j = k.
Proof.
  unfold has_bit. rewrite Z.pow2_bits_eqb by lia.
  rewrite Z.eqb_eq. lia.
Qed.

Lemma has_bit_lor (a b : Z) (j : nat) : has_bit (Z.lor a b) j <-> has_bit a j \/ has_bit b j.
Proof. unfold has_bit. rewrite Z.lor_spec, orb_true_iff. reflexivity. Qed.

Lemma has_bit_0 (j : nat) : ~ has_bit 0 j.
Proof. unfold has_bit. rewrite Z.bits_0. discriminate. Qed.

(** *** [drw_shader_library_search] *)

Lemma search_loop_found lib name n i r :
  search_loop lib name n i = r -> r <> -1 ->
  exists k, r = Z.of_nat k /\ (i <= k < i + n)%nat /\
    lib_at lib k <> None /\ String.prefix (name_at lib k) name = true /\
    forall m, (i <= m < k)%nat ->
      lib_at lib m <> None /\ String.prefix (name_at lib m) name = false.
Proof.
  revert i. induction n as [|n IH]; intros i; simpl.
  - intros <- H. contradiction.
  - destruct (lib_at lib i) as [c|] eqn:Hc; [|intros <- H; contradiction].
    unfold strncmp_strlen_eq.
    destruct (String.prefix (name_at lib i) name) eqn:Hp.
    + intros <- _. exists i. repeat split; try lia; try congruence.
    + intros Hr Hne. destruct (IH _ Hr Hne) as (k & -> & Hk & Hocc & Hpk & Hlow).
      exists k. repeat split; try lia; auto.
      * destruct (decide (m = i)) as [->|]; [congruence|]. apply Hlow. lia.
      * destruct (decide (m = i)) as [->|]; [exact Hp|]. apply Hlow. lia.
Qed.

Lemma search_loop_none lib name n i :
  search_loop lib name n i = -1 ->
  forall k, (i <= k < i + n)%nat ->
    (forall m, (i <= m <= k)%nat -> lib_at lib m <> None) ->
    String.prefix (name_at lib k) name = false.
Proof.
  revert i. induction n as [|n IH]; intros i; simpl.
  - intros _ k Hk. lia.
  - destruct (lib_at lib i) as [c|] eqn:Hc.
    + unfold strncmp_strlen_eq.
      destruct (String.prefix (name_at lib i) name) eqn:Hp; [lia|].
      intros Hr k Hk Hocc.
      destruct (decide (k = i)) as [->|]; [exact Hp|].
      apply (IH _ Hr); [lia|]. intros m Hm. apply Hocc. lia.
    + intros _ k Hk Hocc. exfalso. apply (Hocc i); [lia|exact Hc].
Qed.

Lemma search_loop_intro lib name n i k :
  (i <= k < i + n)%nat ->
  (forall m, (i <= m <= k)%nat -> lib_at lib m <> None) ->
  String.prefix (name_at lib k) name = true ->
  (forall m, (i <= m < k)%nat -> String.prefix (name_at lib m) name = false) ->
  search_loop lib name n i = Z.of_nat k.
Proof.
  revert i. induction n as [|n IH]; intros i Hk Hocc Hp Hlow; simpl; [lia|].
  destruct (lib_at lib i) as [c|] eqn:Hc.
  - unfold strncmp_strlen_eq.
    destruct (decide (k = i)) as [->|Hne].
    + rewrite Hp. reflexivity.
    + rewrite (Hlow i) by lia. apply IH; auto; try lia.
      * intros m Hm. apply Hocc. lia.
      * intros m Hm. apply Hlow. lia.
  - exfalso. apply (Hocc i); [lia|exact Hc].
Qed.

(** *** [drw_shader_dependencies_get] *)

Lemma search_range lib name :
  drw_shader_library_search lib name <> -1 ->
  exists k, drw_shader_library_search lib name = Z.of_nat k /\
    (k < MAX_LIB)%nat /\ lib_at lib k <> None.
Proof.
  intros Hne. unfold drw_shader_library_search in *.
  destruct (search_loop_found lib name MAX_LIB 0 _ eq_refl Hne)
    as (k & Hk & Hr & Hocc & _).
  exists k. repeat split; auto. lia.
Qed.

Lemma dbg_name_loop_length room h :
  (String.length (snd (dbg_name_loop room h)) <= String.length h)%nat.
Proof.
  revert h. induction room as [|room IH]; intros [|c h]; simpl; try lia.
  destruct (Ascii.eqb c ")"); simpl; [lia|].
  specialize (IH h). destruct (dbg_name_loop room h) as [dbg h']. simpl in *. lia.
Qed.

(** Every set bit of the result was set before or is an occupied slot. *)
Lemma deps_loop_bits fuel lib p h d log j :
  has_bit (fst (deps_loop fuel lib p h d log)) j ->
  has_bit d j \/ ((j < MAX_LIB)%nat /\ lib_at lib j <> None).
Proof.
  revert h d log. induction fuel as [|fuel IH]; intros h d log; cbn [deps_loop]; [auto|].
  destruct (strstr h p) as [found|]; [|auto].
  set (h1 := advance (String.length p) found).
  destruct (Z.eqb_spec (drw_shader_library_search lib h1) (-1)) as [He|Hne].
  - destruct (dbg_name_loop (MAX_NAME - 2) h1) as [dbg h2]. apply IH.
  - intros H. apply IH in H. destruct H as [H|H]; [|auto].
    destruct (search_range lib h1 Hne) as (k & Hk & Hlt & Hocc).
    rewrite Hk, bit64_small in H by exact Hlt.
    apply has_bit_lor in H. destruct H as [H|H]; [auto|].
    apply has_bit_pow2 in H. subst j. auto.
Qed.

(** The loop only adds bits. *)
Lemma deps_loop_mono fuel lib p h d log j :
  has_bit d j -> has_bit (fst (deps_loop fuel lib p h d log)) j.
Proof.
  revert h d log. induction fuel as [|fuel IH]; intros h d log Hd; cbn [deps_loop]; [auto|].
  destruct (strstr h p) as [found|]; [|auto].
  destruct (Z.eqb_spec (drw_shader_library_search lib (advance (String.length p) found)) (-1)).
  - destruct (dbg_name_loop _ _) as [dbg h2]. apply IH, Hd.
  - apply IH, has_bit_lor. auto.
Qed.

(** With a directive that is not empty, more fuel than the code is long
    changes nothing: the loop ends because [strstr] finds nothing more. *)
Lemma deps_loop_fuel f1 f2 lib p h d log :
  (0 < String.length p)%nat ->
  (String.length h < f1)%nat -> (String.length h < f2)%nat ->
  deps_loop f1 lib p h d log = deps_loop f2 lib p h d log.
Proof.
  intros Hp. revert f2 h d log.
  induction f1 as [|f1 IH]; intros [|f2] h d log H1 H2; try lia.
  cbn [deps_loop]. destruct (strstr h p) as [found|] eqn:Hs; [|reflexivity].
  apply strstr_suffix in Hs. destruct Hs as [Hpre Hlen].
  apply prefix_length in Hpre.
  pose proof (advance_length (String.length p) found) as Hadv.
  destruct (Z.eqb_spec (drw_shader_library_search lib (advance (String.length p) found)) (-1)).
  - pose proof (dbg_name_loop_length (MAX_NAME - 2) (advance (String.length p) found)) as Hdbg.
    destruct (dbg_name_loop _ _) as [dbg h2]. simpl in Hdbg.
    apply IH; lia.
  - apply IH; lia.
Qed.

Lemma deps_loop_S fuel lib p h d log :
  deps_loop (S fuel) lib p h d log =
  match strstr h p with
  | None => (d, log)
  | Some found =>
    let h1 := advance (String.length p) found in
    let dep := drw_shader_library_search lib h1 in
    if dep =? -1 then
      let '(dbg_name, h2) := dbg_name_loop (MAX_NAME - 2) h1 in
      deps_loop fuel lib p h2 d (log ++ [cstr dbg_name])
    else deps_loop fuel lib p h1 (Z.lor d (bit64 dep)) log
  end.
Proof. reflexivity. Qed.

(** One turn of the [while] loop of [drw_shader_dependencies_get]. *)
Lemma deps_loop_unroll lib p h d log :
  (0 < String.length p)%nat ->
  deps_loop (S (String.length h)) lib p h d log =
  match strstr h p with
  | None => (d, log)
  | Some found =>
    let h1 := advance (String.length p) found in
    let dep := drw_shader_library_search lib h1 in
    if dep =? -1 then
      let '(dbg_name, h2) := dbg_name_loop (MAX_NAME - 2) h1 in
      deps_loop (S (String.length h2)) lib p h2 d (log ++ [cstr dbg_name])
    else deps_loop (S (String.length h1)) lib p h1 (Z.lor d (bit64 dep)) log
  end.
Proof.
  intros Hp. rewrite (deps_loop_S (String.length h)).
  destruct (strstr h p) as [found|] eqn:Hs; [|reflexivity].
  apply strstr_suffix in Hs. destruct Hs as [Hpre Hlen].
  apply prefix_length in Hpre.
  pose proof (advance_length (String.length p) found) as Hadv.
  cbv zeta.
  destruct (Z.eqb_spec (drw_shader_library_search lib (advance (String.length p) found)) (-1)).
  - pose proof (dbg_name_loop_length (MAX_NAME - 2) (advance (String.length p) found)) as Hdbg.
    destruct (dbg_name_loop _ _) as [dbg h2]. simpl in Hdbg.
    apply deps_loop_fuel; lia.
  - apply deps_loop_fuel; lia.
Qed.

(** *** What every library built by [DRW_shader_library_add_file] satisfies *)

Lemma lib_at_range lib i :
  length (libs lib) = MAX_LIB -> lib_at lib i <> None -> (i < MAX_LIB)%nat.
Proof.
  intros Hlen Hocc. destruct (Nat.lt_ge_cases i MAX_LIB) as [H|H]; [exact H|].
  exfalso. apply Hocc. unfold lib_at. apply nth_overflow. lia.
Qed.

Lemma lib_inv_create : lib_inv DRW_shader_library_create.
Proof.
  split; try reflexivity.
  - intros i j _ H. exfalso. apply H. apply (nth_replicate_default MAX_LIB i None).
  - intros i j H. exfalso.
    unfold deps_at in H. cbn [libs_deps DRW_shader_library_create] in H.
    rewrite nth_replicate_default in H. exact (has_bit_0 j H).
Qed.

Lemma free_slot_loop_found lib n i r :
  free_slot_loop lib n i = r -> r <> -1 ->
  exists k, r = Z.of_nat k /\ (i <= k < i + n)%nat /\ lib_at lib k = None /\
    forall m, (i <= m < k)%nat -> lib_at lib m <> None.
Proof.
  revert i. induction n as [|n IH]; intros i; simpl.
  - intros <- H. contradiction.
  - destruct (lib_at lib i) as [c|] eqn:Hc.
    + intros Hr Hne. destruct (IH _ Hr Hne) as (k & -> & Hk & Hfree & Hlow).
      exists k. repeat split; auto; try lia.
      intros m Hm. destruct (decide (m = i)) as [->|]; [congruence|]. apply Hlow. lia.
    + intros <- _. exists i. repeat split; auto; try lia.
Qed.

Lemma free_slot_loop_full lib n i :
  free_slot_loop lib n i = -1 <->
  forall k, (i <= k < i + n)%nat -> lib_at lib k <> None.
Proof.
  revert i. induction n as [|n IH]; intros i; simpl.
  - split; [intros _ k Hk; lia|reflexivity].
  - destruct (lib_at lib i) as [c|] eqn:Hc.
    + rewrite IH. split; intros H k Hk.
      * destruct (decide (k = i)) as [->|]; [congruence|]. apply H. lia.
      * apply H. lia.
    + split; [lia|]. intros H. exfalso. apply (H i); [lia|exact Hc].
Qed.

Section WithMemory.
Variable behind : string -> string.

Lemma add_file_cases lib lib_code lib_name :
  (exists i,
     (i < MAX_LIB)%nat /\ lib_at lib i = None /\
     (forall m, (m < i)%nat -> lib_at lib m <> None) /\
     let lib1 := stored lib i lib_code lib_name in
     let r := drw_shader_dependencies_get behind lib1 pragma_require lib_code in
     DRW_shader_library_add_file behind lib lib_code lib_name =
     {| lib_after := {| libs := libs lib1; libs_name := libs_name lib1;
                        libs_deps := <[i := fst r]> (libs_deps lib) |};
        clog := snd r; printed := []; assert_failed := false |})
  \/
  ((forall k, (k < MAX_LIB)%nat -> lib_at lib k <> None) /\
   DRW_shader_library_add_file behind lib lib_code lib_name =
   {| lib_after := lib; clog := [];
      printed := ["Error: Too many libraries. Cannot add " ++ lib_name ++ "."]%string;
      assert_failed := true |}).
Proof.
  unfold DRW_shader_library_add_file.
  destruct (Z.eq_dec (free_slot_loop lib MAX_LIB 0) (-1)) as [He|Hne].
  - right. rewrite He. simpl. split; [|reflexivity].
    intros k Hk. apply (proj1 (free_slot_loop_full lib MAX_LIB 0) He). lia.
  - left. destruct (free_slot_loop_found lib MAX_LIB 0 _ eq_refl Hne)
      as (i & Hi & Hr & Hfree & Hlow).
    exists i. rewrite Hi.
    replace (Z.of_nat i >? -1) with true by (symmetry; apply Z.gtb_lt; lia).
    rewrite Nat2Z.id. repeat split; auto; try lia.
    + intros m Hm. apply Hlow. lia.
    + cbv zeta. fold (stored lib i lib_code lib_name).
      destruct (drw_shader_dependencies_get behind _ _ _) as [deps log]. reflexivity.
Qed.

Lemma add_file_preserves_inv lib lib_code lib_name :
  lib_inv lib -> lib_inv (lib_after (DRW_shader_library_add_file behind lib lib_code lib_name)).
Proof.
  intros Hinv.
  destruct (add_file_cases lib lib_code lib_name)
    as [(i & Hi & Hfree & Hlow & Heq)|[_ Heq]]; rewrite Heq; [|exact Hinv].
  cbv zeta. cbn [lib_after].
  set (r := drw_shader_dependencies_get behind (stored lib i lib_code lib_name) pragma_require lib_code).
  destruct Hinv as [Hl1 Hl2 Hl3 Hpre Hdeps].
  assert (Hat : forall k, lib_at (stored lib i lib_code lib_name) k <> None ->
                          k = i \/ lib_at lib k <> None).
  { intros k. unfold lib_at. cbn [libs stored].
    destruct (decide (k = i)) as [->|Hne]; [auto|].
    rewrite nth_insert_ne by congruence. auto. }
  assert (Hold : forall k, lib_at lib k <> None -> (k < i)%nat).
  { intros k Hk. destruct (Nat.lt_ge_cases k i) as [H|H]; [exact H|].
    exfalso. apply (Hpre k i H Hk). exact Hfree. }
  split; cbn [libs libs_name libs_deps stored].
  - rewrite length_insert. exact Hl1.
  - rewrite length_insert. exact Hl2.
  - rewrite length_insert. exact Hl3.
  - intros k j Hjk. unfold lib_at. cbn [libs].
    destruct (decide (j = i)) as [->|Hji].
    + intros _. rewrite nth_insert_eq by lia. discriminate.
    + rewrite (nth_insert_ne _ i j) by congruence.
      intros Hk. apply Hlow.
      destruct (decide (k = i)) as [->|Hki]; [lia|].
      rewrite nth_insert_ne in Hk by congruence.
      apply Hold in Hk. lia.
  - intros k j. unfold deps_at, lib_at. cbn [libs libs_deps].
    destruct (decide (k = i)) as [->|Hki].
    + rewrite !nth_insert_eq by lia. intros Hb. split; [|discriminate].
      apply deps_loop_bits in Hb. destruct Hb as [Hb|[_ Hb]].
      * destruct (has_bit_0 _ Hb).
      * apply Hat in Hb. destruct Hb as [->|Hb]; [lia|]. apply Hold in Hb. lia.
    + rewrite !nth_insert_ne by congruence. apply Hdeps.
Qed.

Lemma add_files_inv files lib : lib_inv lib -> lib_inv (add_files behind lib files).
Proof.
  revert lib. induction files as [|f files IH]; intros lib Hinv; simpl; [exact Hinv|].
  apply IH, add_file_preserves_inv, Hinv.
Qed.

Lemma build_inv files : lib_inv (build behind files).
Proof. apply add_files_inv, lib_inv_create. Qed.


(** *** The backward pass of [DRW_shader_library_create_shader_string] *)

Section Closure.
Variable lib : DRWShaderLibrary.

(** One turn of the loop at slot [i]. *)
Let turn (i : nat) (deps : Z) : Z :=
  if match lib_at lib i with Some _ => Z.testbit deps (Z.of_nat i) | None => false end
  then Z.lor deps (deps_at lib i) else deps.

Lemma closure_loop_S n deps :
  closure_loop lib (S n) deps = closure_loop lib n (turn n deps).
Proof. reflexivity. Qed.

Lemma turn_mono i deps j : has_bit deps j -> has_bit (turn i deps) j.
Proof.
  unfold turn. intros H. destruct (match lib_at lib i with Some _ => _ | None => _ end); auto.
  apply has_bit_lor. auto.
Qed.

Lemma turn_bits i deps j :
  has_bit (turn i deps) j ->
  has_bit deps j \/ (lib_at lib i <> None /\ has_bit deps i /\ has_bit (deps_at lib i) j).
Proof.
  unfold turn. destruct (lib_at lib i) as [c|] eqn:Hc; [|auto].
  destruct (Z.testbit deps (Z.of_nat i)) eqn:Hb; [|auto].
  intros H. apply has_bit_lor in H. destruct H as [H|H]; [left; exact H|]. right.
  split; [discriminate|]. split; [exact Hb|exact H].
Qed.

Lemma closure_loop_mono n deps j :
  has_bit deps j -> has_bit (closure_loop lib n deps) j.
Proof.
  revert deps. induction n as [|n IH]; intros deps H; [exact H|].
  rewrite closure_loop_S. apply IH, turn_mono, H.
Qed.

(** The pass adds nothing that is not required. *)
Lemma closure_loop_sound d0 n deps :
  (forall j, has_bit deps j -> required lib d0 j) ->
  forall j, has_bit (closure_loop lib n deps) j -> required lib d0 j.
Proof.
  revert deps. induction n as [|n IH]; intros deps Hd j; [apply Hd|].
  rewrite closure_loop_S. apply IH. clear j. intros j Hj.
  apply turn_bits in Hj. destruct Hj as [Hj|(Hocc & Hi & Hj)]; [auto|].
  apply (required_via lib d0 n j); auto.
Qed.

Hypothesis below : forall i j,
  lib_at lib i <> None -> has_bit (deps_at lib i) j -> (j <= i)%nat.

(** Slots from [n] on are not touched by the turns below [n]. *)
Lemma closure_loop_high n deps j :
  (n <= j)%nat -> has_bit (closure_loop lib n deps) j -> has_bit deps j.
Proof.
  revert deps. induction n as [|n IH]; intros deps Hj H; [exact H|].
  rewrite closure_loop_S in H. apply IH in H; [|lia].
  apply turn_bits in H. destruct H as [H|(Hocc & _ & H)]; [exact H|].
  apply below in H; [lia|exact Hocc].
Qed.

(** After the pass the mask is closed under the stored masks. *)
Lemma closure_loop_closed n deps i j :
  (i < n)%nat -> lib_at lib i <> None ->
  has_bit (closure_loop lib n deps) i -> has_bit (deps_at lib i) j ->
  has_bit (closure_loop lib n deps) j.
Proof.
  revert deps. induction n as [|n IH]; intros deps Hi Hocc Hb Hj; [lia|].
  rewrite closure_loop_S in *.
  destruct (decide (i = n)) as [->|Hne]; [|apply (IH _ ltac:(lia) Hocc Hb Hj)].
  apply closure_loop_mono.
  apply closure_loop_high in Hb; [|lia].
  assert (Hn : has_bit deps n).
  { apply turn_bits in Hb. destruct Hb as [Hb|(_ & Hb & _)]; exact Hb. }
  unfold turn. destruct (lib_at lib n) as [c|]; [|congruence].
  unfold has_bit in Hn. rewrite Hn. apply has_bit_lor. auto.
Qed.

Hypothesis bounded : forall i, lib_at lib i <> None -> (i < MAX_LIB)%nat.

Lemma closure_loop_complete d0 j :
  required lib d0 j -> has_bit (closure_loop lib MAX_LIB d0) j.
Proof.
  induction 1 as [j Hj|i j _ IH Hocc Hj].
  - apply closure_loop_mono, Hj.
  - apply (closure_loop_closed MAX_LIB d0 i j); auto.
Qed.

Lemma closure_loop_spec d0 j :
  has_bit (closure_loop lib MAX_LIB d0) j <-> required lib d0 j.
Proof.
  split; [|apply closure_loop_complete].
  apply closure_loop_sound. intros k Hk. apply required_direct, Hk.
Qed.

End Closure.

(** *** The concatenation loop *)

Lemma land_1_testbit deps : (Z.land deps 1 =? 0) = negb (Z.testbit deps 0).
Proof.
  change 1 with (Z.ones 1). rewrite Z.land_ones by lia.
  change (2 ^ 1) with 2.
  replace (deps mod 2) with (Z.b2z (Z.testbit deps 0)) by apply Z.bit0_mod.
  destruct (Z.testbit deps 0); reflexivity.
Qed.

Lemma set_bits_0 n i : set_bits n i 0 = [].
Proof.
  revert i. induction n as [|n IH]; intros i; simpl; [reflexivity|].
  rewrite Z.shiftr_0_l. apply IH.
Qed.

Lemma set_bits_In n i deps k :
  In k (set_bits n i deps) <->
  (i <= k < i + n)%nat /\ has_bit deps (k - i).
Proof.
  revert i deps. induction n as [|n IH]; intros i deps; cbn [set_bits].
  - simpl. split; [tauto|lia].
  - rewrite in_app_iff, IH. unfold has_bit.
    rewrite Z.shiftr_spec by lia. split.
    + intros [H|[Hk Hb]].
      * destruct (Z.testbit deps 0) eqn:Hb; [|destruct H].
        destruct H as [<-|[]]. rewrite Nat.sub_diag. split; [lia|exact Hb].
      * split; [lia|]. replace (Z.of_nat (k - i)) with (Z.of_nat (k - S i) + 1) by lia.
        exact Hb.
    + intros [Hk Hb]. destruct (decide (k = i)) as [->|Hne].
      * left. rewrite Nat.sub_diag in Hb. change (Z.of_nat 0) with 0 in Hb. rewrite Hb. left. reflexivity.
      * right. split; [lia|].
        replace (Z.of_nat (k - S i) + 1) with (Z.of_nat (k - i)) by lia. exact Hb.
Qed.

Lemma set_bits_sorted n i deps : StronglySorted lt (set_bits n i deps).
Proof.
  revert i deps. induction n as [|n IH]; intros i deps; cbn [set_bits].
  - constructor.
  - destruct (Z.testbit deps 0); [|apply IH]. simpl.
    constructor; [apply IH|]. apply List.Forall_forall. intros k Hk.
    apply set_bits_In in Hk. lia.
Qed.

Lemma concat_loop_spec lib n i deps acc :
  (forall k, In k (set_bits n i deps) -> lib_at lib k <> None) ->
  concat_loop lib n i deps (Some acc) =
  Some (acc ++ concat_sources lib (set_bits n i deps))%string.
Proof.
  revert i deps acc. induction n as [|n IH]; intros i deps acc Hocc; cbn [concat_loop set_bits].
  - simpl. rewrite string_app_nil_r. reflexivity.
  - destruct (Z.eqb_spec deps 0) as [->|Hne].
    + rewrite Z.bits_0, Z.shiftr_0_l, set_bits_0. simpl.
      rewrite string_app_nil_r. reflexivity.
    + rewrite land_1_testbit. cbn [set_bits] in Hocc.
      destruct (Z.testbit deps 0) eqn:Hb; cbn [negb].
      * destruct (lib_at lib i) as [c|] eqn:Hc.
        2:{ exfalso. apply (Hocc i); [left; reflexivity|exact Hc]. }
        cbn [dynstr_append app concat_sources fold_right].
        rewrite IH by (intros k Hk; apply Hocc; right; exact Hk).
        replace (source_at lib i) with c by (unfold source_at; rewrite Hc; reflexivity).
        rewrite string_app_assoc. reflexivity.
      * apply IH. intros k Hk. apply Hocc. exact Hk.
Qed.

(** *** Registration leaves the earlier slots alone *)

Lemma registry_full_spec lib :
  registry_full lib = true <-> forall k, (k < MAX_LIB)%nat -> lib_at lib k <> None.
Proof.
  unfold registry_full. rewrite forallb_forall. split; intros H k Hk.
  - specialize (H k ltac:(apply in_seq; lia)).
    destruct (lib_at lib k); [discriminate|discriminate].
  - apply in_seq in Hk. specialize (H k ltac:(lia)).
    destruct (lib_at lib k); [reflexivity|congruence].
Qed.

Lemma add_file_keeps lib lib_code lib_name k :
  length (libs lib) = MAX_LIB ->
  lib_at lib k <> None ->
  let lib' := lib_after (DRW_shader_library_add_file behind lib lib_code lib_name) in
  lib_at lib' k = lib_at lib k /\ name_at lib' k = name_at lib k /\
  deps_at lib' k = deps_at lib k.
Proof.
  intros Hlen Hocc.
  destruct (add_file_cases lib lib_code lib_name)
    as [(i & Hi & Hfree & Hlow & Heq)|[_ Heq]]; rewrite Heq; [|auto].
  cbv zeta. cbn [lib_after]. unfold lib_at, name_at, deps_at.
  cbn [libs libs_name libs_deps stored].
  assert (i <> k) by (intros ->; contradiction).
  rewrite !nth_insert_ne by assumption. auto.
Qed.

Lemma add_files_keeps files lib k :
  lib_inv lib -> lib_at lib k <> None ->
  lib_at (add_files behind lib files) k = lib_at lib k /\
  name_at (add_files behind lib files) k = name_at lib k /\
  deps_at (add_files behind lib files) k = deps_at lib k.
Proof.
  revert lib. induction files as [|f files IH]; intros lib Hinv Hocc; simpl; [auto|].
  destruct (add_file_keeps lib (fst f) (snd f) k (inv_len_libs _ Hinv) Hocc)
    as (H1 & H2 & H3).
  destruct (IH (lib_after (DRW_shader_library_add_file behind lib (fst f) (snd f))))
    as (G1 & G2 & G3).
  - apply add_file_preserves_inv, Hinv.
  - rewrite H1. exact Hocc.
  - fold (add_files behind (lib_after (DRW_shader_library_add_file behind lib (fst f) (snd f))) files).
    rewrite G1, G2, G3. auto.
Qed.

(** Whatever is required sits at or below a direct dependency. *)
Lemma required_below_direct lib d0 k :
  lib_inv lib -> required lib d0 k -> exists j, has_bit d0 j /\ (k <= j)%nat.
Proof.
  intros Hinv. induction 1 as [j Hj|i j _ (m & Hm & Him) Hocc Hj].
  - exists j. auto.
  - exists m. split; [exact Hm|]. apply (inv_deps _ Hinv) in Hj. lia.
Qed.

Lemma add_file_at lib lib_code lib_name i :
  next_slot lib i = true ->
  (i < MAX_LIB)%nat /\ lib_at lib i = None /\
  let lib1 := stored lib i lib_code lib_name in
  let r := drw_shader_dependencies_get behind lib1 pragma_require lib_code in
  DRW_shader_library_add_file behind lib lib_code lib_name =
  {| lib_after := {| libs := libs lib1; libs_name := libs_name lib1;
                     libs_deps := <[i := fst r]> (libs_deps lib) |};
     clog := snd r; printed := []; assert_failed := false |}.
Proof.
  unfold next_slot. intros Hn. apply Z.eqb_eq in Hn.
  destruct (free_slot_loop_found lib MAX_LIB 0 _ Hn ltac:(lia))
    as (k & Hk & Hrange & Hfree & Hlow).
  apply Nat2Z.inj in Hk. subst k.
  destruct (add_file_cases lib lib_code lib_name)
    as [(i' & Hi' & Hfree' & Hlow' & Heq)|[Hfull _]].
  - assert (i' = i) as ->.
    { destruct (Nat.lt_trichotomy i' i) as [H|[H|H]]; [|exact H|].
      - destruct (Hlow i' ltac:(lia)). exact Hfree'.
      - destruct (Hlow' i H). exact Hfree. }
    repeat split; auto.
  - exfalso. apply (Hfull i); [lia|exact Hfree].
Qed.

End WithMemory.

End ShaderLibFacts.

(** ** Facts about the deferred compiler *)

Module DeferredFacts.
Import Deferred DeferredSpec.

Local Open Scope nat_scope.

(** *** Lists *)

Lemma BLI_poptail_snoc {A} (l : list A) (x : A) : BLI_poptail (l ++ [x]) = (Some x, l).
Proof.
  unfold BLI_poptail. rewrite rev_app_distr. simpl. rewrite rev_involutive. reflexivity.
Qed.

Lemma BLI_poptail_nil {A} : BLI_poptail (@nil A) = (None, []).
Proof. reflexivity. Qed.

Lemma BLI_poptail_Some {A} (l rest : list A) (x : A) :
  BLI_poptail l = (Some x, rest) -> l = rest ++ [x].
Proof.
  unfold BLI_poptail. destruct (rev l) as [|y r] eqn:Hr; [discriminate|].
  intros [= <- <-]. rewrite <- (rev_involutive l), Hr. reflexivity.
Qed.

Lemma BLI_poptail_None {A} (l rest : list A) :
  BLI_poptail l = (None, rest) -> l = [] /\ rest = [].
Proof.
  unfold BLI_poptail. destruct (rev l) as [|y r] eqn:Hr; [|discriminate].
  intros [= <-]. split; [|reflexivity].
  rewrite <- (rev_involutive l), Hr. reflexivity.
Qed.

Lemma status_eqb_eq a b : status_eqb a b = true <-> a = b.
Proof. destruct a, b; simpl; split; congruence. Qed.

Lemma dsh_eqb_eq a b : dsh_eqb a b = true <-> a = b.
Proof.
  unfold dsh_eqb. rewrite andb_true_iff, !Nat.eqb_eq.
  destruct a, b; simpl. split; [intros [-> ->]; reflexivity|intros [= -> ->]; auto].
Qed.

Lemma freed_app a b : freed (a ++ b) = freed a ++ freed b.
Proof. apply flat_map_app. Qed.

Lemma compiled_app a b : compiled (a ++ b) = compiled a ++ compiled b.
Proof. apply flat_map_app. Qed.

Lemma progress_of_app a b : progress_of (a ++ b) = progress_of a ++ progress_of b.
Proof. apply flat_map_app. Qed.

Lemma destroyed_app a b : destroyed (a ++ b) = destroyed a ++ destroyed b.
Proof. apply flat_map_app. Qed.

Lemma created_app a b : created (a ++ b) = created a ++ created b.
Proof. apply flat_map_app. Qed.

Lemma disposals_app a b : disposals (a ++ b) = disposals a ++ disposals b.
Proof. apply flat_map_app. Qed.

Lemma waits_app a b : waits (a ++ b) = waits a + waits b.
Proof. unfold waits. rewrite List.filter_app, length_app. reflexivity. Qed.

Lemma int_wrap_id z : (INT_MIN <= z <= INT_MAX)%Z -> int_wrap z = z.
Proof.
  unfold int_wrap, INT_MIN, INT_MAX. intros H. rewrite Z.mod_small; lia.
Qed.

(** *** Teardown *)

Lemma queue_free_freed q : freed (drw_deferred_shader_queue_free q) = q.
Proof. unfold freed. induction q as [|d q IH]; simpl; [reflexivity|]. rewrite IH. reflexivity. Qed.

Lemma queue_free_compiled q : compiled (drw_deferred_shader_queue_free q) = [].
Proof. induction q as [|d q IH]; simpl; auto. Qed.

Lemma queue_free_destroyed q : destroyed (drw_deferred_shader_queue_free q) = [].
Proof. induction q as [|d q IH]; simpl; auto. Qed.

Lemma queue_free_disposals q : disposals (drw_deferred_shader_queue_free q) = [].
Proof. induction q as [|d q IH]; simpl; auto. Qed.

Lemma conclude_loop_spec gpu_compile fuel l st :
  length l < fuel ->
  conclude_loop gpu_compile fuel l st =
  (compile_all gpu_compile (rev l) st,
   flat_map (fun d => [EvCompile (mat d); EvFree d]) (rev l)).
Proof.
  revert l st. induction fuel as [|fuel IH]; intros l st Hlen; [lia|].
  cbn [conclude_loop]. destruct (BLI_poptail l) as [[x|] rest] eqn:Hp.
  - apply BLI_poptail_Some in Hp. subst l.
    rewrite rev_app_distr. cbn [rev app flat_map compile_all fold_left].
    rewrite length_app in Hlen. simpl in Hlen.
    rewrite IH by lia. reflexivity.
  - apply BLI_poptail_None in Hp. destruct Hp as [-> _]. reflexivity.
Qed.

Lemma conclude_events_freed l :
  freed (flat_map (fun d => [EvCompile (mat d); EvFree d]) l) = l.
Proof. unfold freed. induction l as [|d l IH]; simpl; [reflexivity|]. rewrite IH. reflexivity. Qed.

Lemma conclude_events_compiled l :
  compiled (flat_map (fun d => [EvCompile (mat d); EvFree d]) l) = map mat l.
Proof. unfold compiled. induction l as [|d l IH]; simpl; [reflexivity|]. rewrite IH. reflexivity. Qed.

Lemma conclude_events_destroyed l :
  destroyed (flat_map (fun d => [EvCompile (mat d); EvFree d]) l) = [].
Proof. induction l as [|d l IH]; simpl; auto. Qed.

Lemma conclude_events_disposals l :
  disposals (flat_map (fun d => [EvCompile (mat d); EvFree d]) l) = [].
Proof. induction l as [|d l IH]; simpl; auto. Qed.

(** *** The worker's loop *)

Lemma progress_ramp_length n first total : length (progress_ramp n first total) = n.
Proof. revert first. induction n as [|n IH]; intros first; simpl; auto. Qed.

Lemma exec_loop_drains gpu_compile opengl stop fuel k comp st :
  (forall i, stop i = false) ->
  length (queue comp) < fuel ->
  let r := exec_loop gpu_compile fuel opengl stop k comp st in
  let n := length (queue comp) in
  queue (fst (fst r)) = [] /\
  mat_compiling (fst (fst r)) = None /\
  queue_conclude (fst (fst r)) =
    queue_conclude comp ++ List.filter (stays_queued gpu_compile) (rev (queue comp)) /\
  ((0 <= shaders_done comp)%Z -> (shaders_done comp + Z.of_nat n <= INT_MAX)%Z ->
   shaders_done (fst (fst r)) = (shaders_done comp + Z.of_nat n)%Z) /\
  gl_context (fst (fst r)) = gl_context comp /\
  gpu_context (fst (fst r)) = gpu_context comp /\
  own_context (fst (fst r)) = own_context comp /\
  snd (fst r) = compile_all gpu_compile (rev (queue comp)) st /\
  compiled (snd r) = map mat (rev (queue comp)) /\
  freed (snd r) = List.filter (fun d => negb (stays_queued gpu_compile d)) (rev (queue comp)) /\
  ((0 <= shaders_done comp)%Z -> (shaders_done comp + Z.of_nat n <= INT_MAX)%Z ->
   progress_of (snd r) =
     progress_ramp n (shaders_done comp + 1)%Z (shaders_done comp + Z.of_nat n)%Z).
Proof.
  intros Hstop. revert k comp st.
  induction fuel as [|fuel IH]; intros k comp st Hlen; [lia|].
  cbn [exec_loop]. unfold exec_turn. rewrite Hstop.
  destruct (BLI_poptail (queue comp)) as [[dsh|] rest] eqn:Hp.
  - apply BLI_poptail_Some in Hp.
    rewrite Hp, length_app, rev_app_distr in *. cbn [length rev app] in *.
    cbv zeta.
    set (st1 := GPU_material_compile gpu_compile st (mat dsh)).
    assert (Hst1 : GPU_material_status st1 (mat dsh) = gpu_compile (mat dsh)).
    { unfold st1, GPU_material_status, GPU_material_compile, GPU_material_status_set.
      rewrite Nat.eqb_refl. reflexivity. }
    rewrite Hst1. fold (stays_queued gpu_compile dsh).
    cbn [List.filter map compile_all fold_left].
    set (done := int_wrap (shaders_done comp + 1)).
    set (total := int_wrap (BLI_listbase_count rest + done)).
    assert (Hin : (0 <= shaders_done comp)%Z ->
                  (shaders_done comp + Z.of_nat (length rest + 1) <= INT_MAX)%Z ->
                  done = (shaders_done comp + 1)%Z /\
                  total = (shaders_done comp + Z.of_nat (length rest + 1))%Z).
    { intros Hp0 Hmax. subst done total. unfold BLI_listbase_count.
      rewrite (int_wrap_id (shaders_done comp + 1))
        by (unfold INT_MIN, INT_MAX in *; lia).
      rewrite (int_wrap_id (Z.of_nat (length rest)))
        by (unfold INT_MIN, INT_MAX in *; lia).
      rewrite int_wrap_id by (unfold INT_MIN, INT_MAX in *; lia).
      split; lia. }
    destruct (stays_queued gpu_compile dsh) eqn:Hq; cbn [negb].
    + match goal with |- context [exec_loop _ _ _ _ _ ?c _] => set (comp1 := c) end.
      specialize (IH (S k) comp1 st1 ltac:(subst comp1; cbn; lia)).
      destruct (exec_loop gpu_compile fuel opengl stop (S k) comp1 st1) as [[c2 st2] ev2].
      cbn [fst snd] in *. subst comp1. cbn [queue queue_conclude shaders_done gl_context
        gpu_context own_context with_compiling with_conclude with_done with_queue] in IH.
      destruct IH as (H1 & H2 & H3 & H4 & H5 & H6 & H7 & H8 & H9 & H10 & H11).
      unfold BLI_addtail in H3.
      rewrite !compiled_app, !freed_app, !progress_of_app, H9, H10.
      split; [exact H1|]. split; [exact H2|].
      split; [rewrite H3, <- app_assoc; reflexivity|].
      split; [intros Hp0 Hmax; destruct (Hin Hp0 Hmax) as [Hd Ht];
              rewrite H4 by (rewrite Hd; lia); rewrite Hd; lia|].
      split; [exact H5|]. split; [exact H6|]. split; [exact H7|]. split; [exact H8|].
      split; [destruct opengl; reflexivity|].
      split; [destruct opengl; reflexivity|].
      intros Hp0 Hmax. destruct (Hin Hp0 Hmax) as [Hd Ht].
      rewrite H11 by (rewrite Hd; lia). rewrite Hd, Ht.
      replace (length rest + 1) with (S (length rest)) by lia.
      cbn [progress_ramp].
      replace (shaders_done comp + 1 + Z.of_nat (length rest))%Z
        with (shaders_done comp + Z.of_nat (S (length rest)))%Z by lia.
      destruct opengl; reflexivity.
    + match goal with |- context [exec_loop _ _ _ _ _ ?c _] => set (comp1 := c) end.
      specialize (IH (S k) comp1 st1 ltac:(subst comp1; cbn; lia)).
      destruct (exec_loop gpu_compile fuel opengl stop (S k) comp1 st1) as [[c2 st2] ev2].
      cbn [fst snd] in *. subst comp1. cbn [queue queue_conclude shaders_done gl_context
        gpu_context own_context with_compiling with_conclude with_done with_queue] in IH.
      destruct IH as (H1 & H2 & H3 & H4 & H5 & H6 & H7 & H8 & H9 & H10 & H11).
      rewrite !compiled_app, !freed_app, !progress_of_app, H9, H10.
      split; [exact H1|]. split; [exact H2|].
      split; [exact H3|].
      split; [intros Hp0 Hmax; destruct (Hin Hp0 Hmax) as [Hd Ht];
              rewrite H4 by (rewrite Hd; lia); rewrite Hd; lia|].
      split; [exact H5|]. split; [exact H6|]. split; [exact H7|]. split; [exact H8|].
      split; [destruct opengl; reflexivity|].
      split; [destruct opengl; reflexivity|].
      intros Hp0 Hmax. destruct (Hin Hp0 Hmax) as [Hd Ht].
      rewrite H11 by (rewrite Hd; lia). rewrite Hd, Ht.
      replace (length rest + 1) with (S (length rest)) by lia.
      cbn [progress_ramp].
      replace (shaders_done comp + 1 + Z.of_nat (length rest))%Z
        with (shaders_done comp + Z.of_nat (S (length rest)))%Z by lia.
      destruct opengl; reflexivity.
  - apply BLI_poptail_None in Hp. destruct Hp as [Hq ->].
    rewrite Hq. cbn. rewrite app_nil_r, Z.add_0_r.
    split; [reflexivity|]. split; [reflexivity|]. split; [reflexivity|].
    split; [intros _ _; reflexivity|].
    split; [reflexivity|]. split; [reflexivity|]. split; [reflexivity|].
    split; [reflexivity|]. split; [reflexivity|]. split; [reflexivity|].
    intros _ _; reflexivity.
Qed.

Lemma exec_loop_stops gpu_compile opengl stop fuel k j comp st :
  (forall i, k <= i < k + j -> stop i = false) ->
  stop (k + j) = true ->
  j <= length (queue comp) -> j < fuel ->
  let r := exec_loop gpu_compile fuel opengl stop k comp st in
  let taken := firstn j (rev (queue comp)) in
  queue (fst (fst r)) = firstn (length (queue comp) - j) (queue comp) /\
  queue_conclude (fst (fst r)) =
    queue_conclude comp ++ List.filter (stays_queued gpu_compile) taken /\
  snd (fst r) = compile_all gpu_compile taken st /\
  compiled (snd r) = map mat taken /\
  freed (snd r) = List.filter (fun d => negb (stays_queued gpu_compile d)) taken.
Proof.
  revert fuel k comp st. induction j as [|j IH]; intros fuel k comp st Hfalse Htrue Hj Hfuel.
  - destruct fuel as [|fuel]; [lia|]. cbn [exec_loop]. unfold exec_turn.
    rewrite Nat.add_0_r in Htrue. rewrite Htrue. cbn [fst snd firstn].
    rewrite Nat.sub_0_r, firstn_all, app_nil_r. repeat split; reflexivity.
  - destruct fuel as [|fuel]; [lia|]. cbn [exec_loop]. unfold exec_turn.
    rewrite (Hfalse k) by lia.
    destruct (BLI_poptail (queue comp)) as [[dsh|] rest] eqn:Hp.
    2:{ apply BLI_poptail_None in Hp. destruct Hp as [Hq _]. rewrite Hq in Hj.
        simpl in Hj. lia. }
    apply BLI_poptail_Some in Hp.
    rewrite Hp, length_app, rev_app_distr in *. cbn [length rev app firstn] in *.
    cbv zeta.
    set (st1 := GPU_material_compile gpu_compile st (mat dsh)).
    assert (Hst1 : GPU_material_status st1 (mat dsh) = gpu_compile (mat dsh)).
    { unfold st1, GPU_material_status, GPU_material_compile, GPU_material_status_set.
      rewrite Nat.eqb_refl. reflexivity. }
    rewrite Hst1. fold (stays_queued gpu_compile dsh).
    cbn [List.filter map compile_all fold_left].
    assert (Hfirst : firstn (length rest + 1 - S j) (rest ++ [dsh]) =
                     firstn (length rest - j) rest).
    { replace (length rest + 1 - S j) with (length rest - j) by lia.
      rewrite firstn_app. replace (length rest - j - length rest) with 0 by lia.
      cbn [firstn]. rewrite app_nil_r. reflexivity. }
    rewrite Hfirst.
    destruct (stays_queued gpu_compile dsh) eqn:Hq; cbn [negb].
    + match goal with |- context [exec_loop _ _ _ _ _ ?c _] => set (comp1 := c) end.
      specialize (IH fuel (S k) comp1 st1).
      destruct IH as (H1 & H2 & H3 & H4 & H5).
      { intros i Hi. apply Hfalse. lia. }
      { replace (S k + j) with (k + S j) by lia. exact Htrue. }
      { subst comp1. cbn. lia. }
      { lia. }
      destruct (exec_loop gpu_compile fuel opengl stop (S k) comp1 st1) as [[c2 st2] ev2].
      cbn [fst snd] in *. subst comp1. cbn [queue queue_conclude with_compiling
        with_conclude with_done with_queue] in *.
      unfold BLI_addtail in H2.
      rewrite !compiled_app, !freed_app, H4, H5.
      repeat split; auto.
      * rewrite H2, <- app_assoc. reflexivity.
      * destruct opengl; reflexivity.
      * destruct opengl; reflexivity.
    + match goal with |- context [exec_loop _ _ _ _ _ ?c _] => set (comp1 := c) end.
      specialize (IH fuel (S k) comp1 st1).
      destruct IH as (H1 & H2 & H3 & H4 & H5).
      { intros i Hi. apply Hfalse. lia. }
      { replace (S k + j) with (k + S j) by lia. exact Htrue. }
      { subst comp1. cbn. lia. }
      { lia. }
      destruct (exec_loop gpu_compile fuel opengl stop (S k) comp1 st1) as [[c2 st2] ev2].
      cbn [fst snd] in *. subst comp1. cbn [queue queue_conclude with_compiling
        with_conclude with_done with_queue] in *.
      rewrite !compiled_app, !freed_app, H4, H5.
      repeat split; auto.
      * destruct opengl; reflexivity.
      * destruct opengl; reflexivity.
Qed.

(** *** Removing a request *)

Lemma BLI_findptr_Some q m d :
  BLI_findptr q m = Some d ->
  exists l1 l2, q = l1 ++ d :: l2 /\ mat d = m /\ forall x, In x l1 -> mat x <> m.
Proof.
  unfold BLI_findptr. induction q as [|x q IH]; simpl; [discriminate|].
  destruct (Nat.eqb_spec (mat x) m) as [He|Hne].
  - intros [= <-]. exists [], q. split; [reflexivity|]. split; [exact He|]. intros y [].
  - intros H. destruct (IH H) as (l1 & l2 & -> & Hm & Hl1).
    exists (x :: l1), l2. split; [reflexivity|]. split; [exact Hm|].
    intros y [<-|Hy]; auto.
Qed.

Lemma BLI_findptr_None q m :
  BLI_findptr q m = None <-> forall x, In x q -> mat x <> m.
Proof.
  unfold BLI_findptr. induction q as [|x q IH]; simpl.
  - split; [intros _ y []|reflexivity].
  - destruct (Nat.eqb_spec (mat x) m) as [He|Hne].
    + split; [discriminate|]. intros H. destruct (H x (or_introl eq_refl) He).
    + rewrite IH. split; intros H y.
      * intros [<-|Hy]; auto.
      * intros Hy. apply H. right. exact Hy.
Qed.

Lemma BLI_remlink_first l1 d l2 :
  (forall x, In x l1 -> x <> d) -> BLI_remlink (l1 ++ d :: l2) d = l1 ++ l2.
Proof.
  induction l1 as [|x l1 IH]; intros H; simpl.
  - replace (dsh_eqb d d) with true by (symmetry; apply dsh_eqb_eq; reflexivity).
    reflexivity.
  - destruct (dsh_eqb x d) eqn:He.
    + apply dsh_eqb_eq in He. destruct (H x (or_introl eq_refl) He).
    + rewrite IH; [reflexivity|]. intros y Hy. apply H. right. exact Hy.
Qed.

Lemma without_none m l : (forall x, In x l -> mat x <> m) -> without m l = l.
Proof.
  unfold without. induction l as [|x l IH]; intros H; simpl; [reflexivity|].
  destruct (Nat.eqb_spec (mat x) m) as [He|Hne].
  - destruct (H x (or_introl eq_refl) He).
  - simpl. rewrite IH; [reflexivity|]. intros y Hy. apply H. right. exact Hy.
Qed.

Lemma requests_of_none m l : (forall x, In x l -> mat x <> m) -> requests_of m l = [].
Proof.
  unfold requests_of. induction l as [|x l IH]; intros H; simpl; [reflexivity|].
  destruct (Nat.eqb_spec (mat x) m) as [He|Hne].
  - destruct (H x (or_introl eq_refl) He).
  - apply IH. intros y Hy. apply H. right. exact Hy.
Qed.

Lemma without_app m a b : without m (a ++ b) = without m a ++ without m b.
Proof. apply List.filter_app. Qed.

Lemma requests_of_app m a b : requests_of m (a ++ b) = requests_of m a ++ requests_of m b.
Proof. apply List.filter_app. Qed.

Lemma distinct_mats_split l1 d l2 :
  distinct_mats (l1 ++ d :: l2) ->
  (forall x, In x l1 -> mat x <> mat d) /\ (forall x, In x l2 -> mat x <> mat d).
Proof.
  unfold distinct_mats. rewrite map_app. cbn [map]. intros H.
  apply List.NoDup_remove_2 in H. rewrite in_app_iff in H.
  split; intros x Hx He; apply H; [left|right]; rewrite <- He; apply in_map, Hx.
Qed.

Lemma without_In m l x : In x (without m l) <-> In x l /\ mat x <> m.
Proof.
  unfold without. rewrite List.filter_In, negb_true_iff, Nat.eqb_neq. reflexivity.
Qed.

Lemma distinct_mats_without m l : distinct_mats l -> distinct_mats (without m l).
Proof.
  unfold distinct_mats, without. induction l as [|x l IH]; simpl; intros H; [exact H|].
  inversion H as [|? ? Hnot Hnd]; subst.
  destruct (negb (Nat.eqb (mat x) m)); [|apply IH, Hnd].
  simpl. constructor; [|apply IH, Hnd].
  intros Hin. apply Hnot. apply in_map_iff in Hin. destruct Hin as (y & Hy & Hin).
  apply List.filter_In in Hin. rewrite <- Hy. apply in_map, Hin.
Qed.

(** What one visit of [DRW_deferred_shader_remove] does to a compiler
    whose queue holds a material at most once. *)
Lemma remove_from_compiler_distinct comp m :
  distinct_mats (queue comp) ->
  let r := remove_from_compiler comp m in
  fst r = with_queue (without m (queue comp)) comp /\
  freed (snd r) = requests_of m (queue comp) /\
  compiled (snd r) = [].
Proof.
  intros Hd. unfold remove_from_compiler.
  assert (Hw : forall l, compiled (l ++ match BLI_findptr (queue comp) m with
                                       | Some d => [EvFree d] | None => [] end) = compiled l
               /\ True) by (intros l; rewrite compiled_app;
                             destruct (BLI_findptr _ _); simpl; rewrite app_nil_r; auto).
  set (ev_wait := match mat_compiling comp with Some c => _ | None => _ end).
  assert (Hwait : freed ev_wait = [] /\ compiled ev_wait = []).
  { subst ev_wait. destruct (mat_compiling comp) as [c|]; [|auto].
    destruct (Nat.eqb (mat c) m); auto. }
  destruct Hwait as [Hwf Hwc].
  destruct (BLI_findptr (queue comp) m) as [d|] eqn:Hf; cbn [fst snd].
  - apply BLI_findptr_Some in Hf. destruct Hf as (l1 & l2 & Hq & Hm & Hl1).
    rewrite Hq in Hd. apply distinct_mats_split in Hd. destruct Hd as [_ Hl2].
    rewrite Hm in Hl2. rewrite Hq.
    rewrite BLI_remlink_first by (intros x Hx ->; apply (Hl1 _ Hx Hm)).
    rewrite without_app, requests_of_app. cbn [without requests_of List.filter].
    fold (without m l2) (requests_of m l2).
    replace (Nat.eqb (mat d) m) with true by (symmetry; apply Nat.eqb_eq, Hm).
    cbn [negb]. rewrite !without_none, !requests_of_none by assumption.
    rewrite freed_app, compiled_app, Hwf, Hwc. repeat split; reflexivity.
  - pose proof (proj1 (BLI_findptr_None _ _) Hf) as Hn.
    rewrite without_none, requests_of_none by assumption.
    rewrite freed_app, compiled_app, Hwf, Hwc. repeat split.
    destruct comp; reflexivity.
Qed.

Lemma without_idem m l : without m (without m l) = without m l.
Proof.
  apply without_none. intros x Hx. apply without_In in Hx. tauto.
Qed.

Lemma requests_of_without m l : requests_of m (without m l) = [].
Proof.
  apply requests_of_none. intros x Hx. apply without_In in Hx. tauto.
Qed.

Lemma with_queue_with_queue q q' comp :
  with_queue q (with_queue q' comp) = with_queue q comp.
Proof. reflexivity. Qed.

(** The loop over the windows finds the request at the first visit. *)
Lemma remove_windows_distinct n comp m :
  distinct_mats (queue comp) -> 0 < n ->
  let r := remove_windows n comp m in
  fst r = with_queue (without m (queue comp)) comp /\
  freed (snd r) = requests_of m (queue comp) /\
  compiled (snd r) = [].
Proof.
  revert comp. induction n as [|n IH]; intros comp Hd Hn; [lia|].
  cbn [remove_windows].
  destruct (remove_from_compiler_distinct comp m Hd) as (H1 & H2 & H3).
  destruct (remove_from_compiler comp m) as [comp1 ev1]. cbn [fst snd] in *. subst comp1.
  destruct n as [|n].
  - cbn [remove_windows fst snd]. rewrite app_nil_r. auto.
  - specialize (IH (with_queue (without m (queue comp)) comp)).
    cbn [queue with_queue] in IH.
    destruct IH as (G1 & G2 & G3); [apply distinct_mats_without, Hd|lia|].
    destruct (remove_windows (S n) _ m) as [comp2 ev2]. cbn [fst snd] in *.
    rewrite freed_app, compiled_app, H2, H3, G1, G2, G3, without_idem,
      requests_of_without, app_nil_r.
    auto.
Qed.

(** Whatever the queue holds, a visit leaves the conclude list, the
    compiling slot and the contexts alone and compiles nothing. *)
Lemma remove_from_compiler_frame comp m :
  let r := remove_from_compiler comp m in
  fst r = with_queue (queue (fst r)) comp /\ compiled (snd r) = [] /\
  (forall x, In x (queue (fst r)) -> In x (queue comp)).
Proof.
  unfold remove_from_compiler.
  set (ev_wait := match mat_compiling comp with Some c => _ | None => _ end).
  assert (Hwc : compiled ev_wait = []).
  { subst ev_wait. destruct (mat_compiling comp) as [c|]; [|auto].
    destruct (Nat.eqb (mat c) m); auto. }
  destruct (BLI_findptr (queue comp) m) as [d|] eqn:Hf; cbn [fst snd queue with_queue].
  - rewrite compiled_app, Hwc. repeat split; auto.
    apply BLI_findptr_Some in Hf. destruct Hf as (l1 & l2 & Hq & Hm & Hl1).
    rewrite Hq, BLI_remlink_first by (intros x Hx ->; apply (Hl1 _ Hx Hm)).
    intros x. rewrite !in_app_iff. simpl. tauto.
  - rewrite compiled_app, Hwc. repeat split; auto. destruct comp; reflexivity.
Qed.

Lemma remove_windows_frame n comp m :
  let r := remove_windows n comp m in
  fst r = with_queue (queue (fst r)) comp /\ compiled (snd r) = [] /\
  (forall x, In x (queue (fst r)) -> In x (queue comp)).
Proof.
  revert comp. induction n as [|n IH]; intros comp.
  - cbn. repeat split; auto. destruct comp; reflexivity.
  - cbn [remove_windows].
    destruct (remove_from_compiler_frame comp m) as (H1 & H2 & H3).
    destruct (remove_from_compiler comp m) as [comp1 ev1]. cbn [fst snd] in *.
    destruct (IH comp1) as (G1 & G2 & G3).
    destruct (remove_windows n comp1 m) as [comp2 ev2]. cbn [fst snd] in *.
    rewrite compiled_app, H2, G2. repeat split; auto.
    rewrite G1, H1. reflexivity.
Qed.

(** A visit waits for the compilation lock exactly when the material is
    the one in the compiling slot, which it does not change. *)
Lemma remove_from_compiler_waits comp m :
  waits (snd (remove_from_compiler comp m)) = (if compiling comp m then 1 else 0) /\
  mat_compiling (fst (remove_from_compiler comp m)) = mat_compiling comp.
Proof.
  unfold remove_from_compiler, compiling. cbn [fst snd]. rewrite waits_app.
  destruct (mat_compiling comp) as [c|] eqn:Hc; [destruct (Nat.eqb (mat c) m)|];
    destruct (BLI_findptr (queue comp) m); cbn; rewrite ?Hc; split; reflexivity.
Qed.

Lemma remove_windows_waits n comp m :
  waits (snd (remove_windows n comp m)) = (if compiling comp m then n else 0).
Proof.
  revert comp. induction n as [|n IH]; intros comp.
  - cbn. destruct (compiling comp m); reflexivity.
  - cbn [remove_windows].
    destruct (remove_from_compiler_waits comp m) as [H1 H2].
    destruct (remove_from_compiler comp m) as [comp1 ev1]. cbn [fst snd] in *.
    specialize (IH comp1).
    destruct (remove_windows n comp1 m) as [comp2 ev2]. cbn [snd] in *.
    rewrite waits_app, H1, IH. unfold compiling. rewrite H2.
    destruct (mat_compiling comp) as [c|]; [destruct (Nat.eqb (mat c) m)|]; lia.
Qed.

(** *** Statuses *)

Lemma status_set_same st m s : GPU_material_status_set st m s m = s.
Proof. unfold GPU_material_status_set. rewrite Nat.eqb_refl. reflexivity. Qed.

Lemma status_set_other st m s m' : m' <> m -> GPU_material_status_set st m s m' = st m'.
Proof.
  unfold GPU_material_status_set. intros H.
  destruct (Nat.eqb_spec m' m); [contradiction|reflexivity].
Qed.

(** *** [DRW_deferred_shader_remove] and [drw_deferred_shader_add] on the state *)

Lemma remove_state_spec env m s :
  let s' := DRW_deferred_shader_remove env m s in
  status s' = status s /\ retired s' = retired s /\ next s' = next s /\
  job s' = match job s with
           | Some c => Some (fst (remove_windows (windows env) c m))
           | None => None
           end /\
  exists ev, events s' = events s ++ ev /\ compiled ev = [] /\
    ev = match job s with
         | Some c => snd (remove_windows (windows env) c m)
         | None => []
         end.
Proof.
  unfold DRW_deferred_shader_remove. destruct (job s) as [c|] eqn:Hj.
  - pose proof (remove_windows_frame (windows env) c m) as (_ & Hc & _).
    destruct (remove_windows (windows env) c m) as [c' ev]. cbn [fst snd] in *.
    repeat split; auto. exists ev. auto.
  - rewrite Hj. repeat split; auto. exists []. rewrite app_nil_r. auto.
Qed.

Lemma add_sync_spec gpu_compile env m deferred s :
  sync_compile env deferred = true ->
  let s' := drw_deferred_shader_add gpu_compile env m deferred s in
  status s' = GPU_material_compile gpu_compile (status s) m /\
  retired s' = retired s /\ next s' = next s /\
  job s' = match job s with
           | Some c => Some (fst (remove_windows (windows env) c m))
           | None => None
           end /\
  exists ev, events s' = events s ++ ev ++ [EvCompile m] /\ compiled ev = [] /\
    ev = match job s with
         | Some c => snd (remove_windows (windows env) c m)
         | None => []
         end.
Proof.
  unfold sync_compile, drw_deferred_shader_add. intros ->.
  destruct (remove_state_spec env m s) as (H1 & H2 & H3 & H4 & ev & H5 & H6 & H7).
  cbn [status job retired next events]. rewrite H1, H2, H3, H4, H5.
  repeat split; auto. exists ev. rewrite <- app_assoc. auto.
Qed.

Lemma add_deferred_spec gpu_compile env m deferred s :
  sync_compile env deferred = false ->
  let s' := drw_deferred_shader_add gpu_compile env m deferred s in
  let r := add_to_new_compiler env (job s) m (next s) in
  status s' = status s /\
  job s' = Some (snd (fst r)) /\
  retired s' = match fst (fst r) with
               | Some old => old :: retired s
               | None => retired s
               end /\
  next s' = next s + 3 /\
  events s' = events s ++ snd r.
Proof.
  unfold sync_compile, drw_deferred_shader_add. intros ->.
  destruct (add_to_new_compiler env (job s) m (next s)) as [[old comp] ev].
  cbn. auto.
Qed.

(** What [add_to_new_compiler] builds. *)
Lemma add_to_new_compiler_spec env old m fresh :
  let r := add_to_new_compiler env old m fresh in
  let comp := snd (fst r) in
  queue comp = match old with Some o => queue o | None => [] end
               ++ [{| addr := fresh; mat := m |}] /\
  queue_conclude comp = [] /\ mat_compiling comp = None /\
  shaders_done comp = 0%Z /\
  own_context comp = negb (main_context_workaround env) /\
  fst (fst r) = match old with
                | Some o =>
                  Some (match gl_context o with
                        | Some _ => with_own false (with_queue [] o)
                        | None => with_queue [] o
                        end)
                | None => None
                end /\
  match old with
  | Some o =>
    match gl_context o with
    | Some gl => gl_context comp = Some gl /\ gpu_context comp = gpu_context o /\ snd r = []
    | None =>
      if main_context_workaround env then
        gl_context comp = Some (DST_gl_context env) /\
        gpu_context comp = Some (DST_gpu_context env) /\ snd r = []
      else
        gl_context comp = Some (fresh + 1) /\ gpu_context comp = Some (fresh + 2) /\
        snd r = [EvContextCreate (fresh + 1) (fresh + 2)]
    end
  | None =>
    if main_context_workaround env then
      gl_context comp = Some (DST_gl_context env) /\
      gpu_context comp = Some (DST_gpu_context env) /\ snd r = []
    else
      gl_context comp = Some (fresh + 1) /\ gpu_context comp = Some (fresh + 2) /\
      snd r = [EvContextCreate (fresh + 1) (fresh + 2)]
  end.
Proof.
  unfold add_to_new_compiler, BLI_movelisttolist, BLI_addtail.
  destruct old as [o|]; [destruct (gl_context o) as [gl|] eqn:Hgl|];
    destruct (main_context_workaround env); cbn; rewrite ?Hgl; cbn;
    repeat split; reflexivity.
Qed.

(** *** The entry points *)

Lemma add_ignores_deferred_in_render gpu_compile env m d1 d2 s :
  image_render env = true ->
  drw_deferred_shader_add gpu_compile env m d1 s =
  drw_deferred_shader_add gpu_compile env m d2 s.
Proof.
  intros H. unfold drw_deferred_shader_add. rewrite H.
  rewrite !orb_true_r. cbn [orb]. reflexivity.
Qed.

Lemma add_sync_status gpu_compile env m deferred s :
  sync_compile env deferred = true ->
  status (drw_deferred_shader_add gpu_compile env m deferred s) m = gpu_compile m.
Proof.
  intros H. destruct (add_sync_spec gpu_compile env m deferred s H) as (H1 & _).
  rewrite H1. apply status_set_same.
Qed.

Lemma add_deferred_status gpu_compile env m deferred s :
  sync_compile env deferred = false ->
  status (drw_deferred_shader_add gpu_compile env m deferred s) = status s.
Proof.
  intros H. destruct (add_deferred_spec gpu_compile env m deferred s H) as (H1 & _).
  exact H1.
Qed.

Lemma status_neq_eqb a b : a <> b -> status_eqb a b = false.
Proof.
  intros H. destruct (status_eqb a b) eqn:E; [|reflexivity].
  apply status_eqb_eq in E. contradiction.
Qed.

(** A material that is compiled, or that is queued while a deferred compile
    is asked for outside an image render, is returned as it is. *)
Lemma from_material_returns gpu_compile env m deferred s :
  status s m = GPU_MAT_SUCCESS \/ status s m = GPU_MAT_FAILED \/
  (status s m = GPU_MAT_QUEUED /\ deferred = true /\ image_render env = false) ->
  DRW_shader_from_material gpu_compile env m deferred s = s.
Proof.
  unfold DRW_shader_from_material, GPU_material_status.
  intros Hc. destruct (image_render env) eqn:Hi, deferred;
    destruct Hc as [H|[H|(H & Hd & Hr)]]; try discriminate;
    rewrite H; cbn; rewrite ?H; reflexivity.
Qed.

Lemma from_world_returns gpu_compile env m deferred s :
  status s m = GPU_MAT_SUCCESS \/ status s m = GPU_MAT_FAILED \/
  (status s m = GPU_MAT_QUEUED /\ deferred = true) ->
  DRW_shader_from_world gpu_compile env m deferred s = s.
Proof.
  unfold DRW_shader_from_world, GPU_material_status.
  intros Hc. destruct (image_render env) eqn:Hi, deferred;
    destruct Hc as [H|[H|(H & Hd)]]; try discriminate;
    rewrite H; cbn; rewrite ?H; reflexivity.
Qed.

(** *** Pieces of the invariant proofs *)

Lemma remove_from_compiler_contexts comp m :
  destroyed (snd (remove_from_compiler comp m)) = [] /\
  created (snd (remove_from_compiler comp m)) = [].
Proof.
  unfold remove_from_compiler. cbn [snd].
  rewrite destroyed_app, created_app.
  destruct (mat_compiling comp) as [c|]; [destruct (Nat.eqb (mat c) m)|];
    destruct (BLI_findptr (queue comp) m); split; reflexivity.
Qed.

Lemma remove_windows_contexts n comp m :
  destroyed (snd (remove_windows n comp m)) = [] /\
  created (snd (remove_windows n comp m)) = [].
Proof.
  revert comp. induction n as [|n IH]; intros comp; [split; reflexivity|].
  cbn [remove_windows].
  destruct (remove_from_compiler_contexts comp m) as [H1 H2].
  destruct (remove_from_compiler comp m) as [comp1 ev1]. cbn [snd] in *.
  destruct (IH comp1) as [G1 G2].
  destruct (remove_windows n comp1 m) as [comp2 ev2]. cbn [snd] in *.
  rewrite destroyed_app, created_app, H1, H2, G1, G2. split; reflexivity.
Qed.

Lemma remove_windows_keeps_distinct n comp m :
  distinct_mats (queue comp) ->
  distinct_mats (queue (fst (remove_windows n comp m))).
Proof.
  intros Hd. destruct n as [|n]; [exact Hd|].
  destruct (remove_windows_distinct (S n) comp m Hd ltac:(lia)) as (H & _).
  rewrite H. cbn [queue with_queue]. apply distinct_mats_without, Hd.
Qed.

Lemma exec_turn_Continue gpu_compile opengl comp st comp' st' ev :
  exec_turn gpu_compile opengl false comp st = Continue comp' st' ev ->
  exists d rest,
    queue comp = rest ++ [d] /\ queue comp' = rest /\
    st' = GPU_material_compile gpu_compile st (mat d) /\
    mat_compiling comp' = None /\
    gl_context comp' = gl_context comp /\ gpu_context comp' = gpu_context comp /\
    own_context comp' = own_context comp /\
    compiled ev = [mat d] /\ destroyed ev = [] /\ created ev = [] /\
    ((queue_conclude comp' = queue_conclude comp ++ [d] /\ freed ev = []) \/
     (queue_conclude comp' = queue_conclude comp /\ freed ev = [d])).
Proof.
  unfold exec_turn. destruct (BLI_poptail (queue comp)) as [[d|] rest] eqn:Hp;
    [|discriminate].
  apply BLI_poptail_Some in Hp. cbv zeta.
  destruct (status_eqb _ GPU_MAT_QUEUED); intros [= <- <- <-];
    exists d, rest; cbn; destruct opengl; cbn; repeat split; auto.
Qed.

Lemma compile_all_status gpu_compile l st x :
  compile_all gpu_compile l st x = st x \/ compile_all gpu_compile l st x = gpu_compile x.
Proof.
  revert st. induction l as [|d l IH]; intros st; cbn; [auto|].
  destruct (IH (GPU_material_compile gpu_compile st (mat d))) as [H|H]; [|auto].
  fold (compile_all gpu_compile l (GPU_material_compile gpu_compile st (mat d))) in *.
  rewrite H. unfold GPU_material_compile, GPU_material_status_set.
  destruct (Nat.eqb_spec x (mat d)) as [->|]; auto.
Qed.

Lemma compilation_free_status gpu_compile comp st x :
  fst (drw_deferred_shader_compilation_free gpu_compile comp st) x = st x \/
  fst (drw_deferred_shader_compilation_free gpu_compile comp st) x = gpu_compile x.
Proof.
  unfold drw_deferred_shader_compilation_free.
  destruct (queue_conclude comp) as [|c rest] eqn:Hq; cbn [BLI_listbase_is_empty negb fst].
  - auto.
  - rewrite conclude_loop_spec by lia. cbn [fst]. apply compile_all_status.
Qed.

Lemma compilation_free_created gpu_compile comp st :
  created (snd (drw_deferred_shader_compilation_free gpu_compile comp st)) = [].
Proof.
  unfold drw_deferred_shader_compilation_free.
  assert (Hq : forall q, created (drw_deferred_shader_queue_free q) = [])
    by (induction q; simpl; auto).
  assert (Hc : forall l, created (flat_map (fun d => [EvCompile (mat d); EvFree d]) l) = [])
    by (induction l; simpl; auto).
  destruct (queue_conclude comp) as [|c rest] eqn:Hqc; cbn [BLI_listbase_is_empty negb snd].
  - rewrite !created_app, Hq.
    destruct (own_context comp), (gl_context comp), (gpu_context comp); reflexivity.
  - rewrite conclude_loop_spec by lia. cbn [snd].
    change (EvContextEnable :: ?l) with ([EvContextEnable] ++ l).
    rewrite !created_app, Hq, Hc.
    destruct (own_context comp), (gl_context comp), (gpu_context comp); reflexivity.
Qed.

(** The entry points are built from [drw_deferred_shader_add]. *)
Lemma from_material_shape gpu_compile env m deferred s :
  let r := DRW_shader_from_material gpu_compile env m deferred s in
  r = s \/
  (status s m = GPU_MAT_CREATED /\
   exists d, r = drw_deferred_shader_add gpu_compile env m d (mark_queued m s) \/
             (sync_compile env d = true /\
              r = drw_deferred_shader_add gpu_compile env m false
                    (drw_deferred_shader_add gpu_compile env m d (mark_queued m s)))) \/
  (status s m = GPU_MAT_QUEUED /\ r = drw_deferred_shader_add gpu_compile env m false s).
Proof.
  unfold DRW_shader_from_material, GPU_material_status. fold (mark_queued m s).
  set (d := if image_render env then false else deferred).
  destruct (status s m) eqn:Hst; cbn [status_eqb]; rewrite ?andb_false_r.
  - rewrite Hst. cbn [status_eqb]. rewrite andb_false_r. auto.
  - right. left. split; [reflexivity|]. exists d.
    destruct (negb d && _) eqn:Hc; [|auto].
    right. split; [|reflexivity].
    apply andb_true_iff in Hc. destruct Hc as [Hd _].
    unfold sync_compile. destruct d; [discriminate|]. cbn. apply orb_true_r.
  - destruct d; cbn [andb negb]; [auto|]. rewrite Hst. cbn [status_eqb]. auto.
  - rewrite Hst. cbn [status_eqb]. rewrite andb_false_r. auto.
Qed.

Lemma from_world_shape gpu_compile env m deferred s :
  let r := DRW_shader_from_world gpu_compile env m deferred s in
  r = s \/
  (status s m = GPU_MAT_CREATED /\
   exists d, r = drw_deferred_shader_add gpu_compile env m d (mark_queued m s) \/
             (sync_compile env d = true /\
              r = drw_deferred_shader_add gpu_compile env m false
                    (drw_deferred_shader_add gpu_compile env m d (mark_queued m s)))) \/
  (status s m = GPU_MAT_QUEUED /\ r = drw_deferred_shader_add gpu_compile env m false s).
Proof.
  unfold DRW_shader_from_world, GPU_material_status. fold (mark_queued m s).
  destruct (status s m) eqn:Hst; cbn [status_eqb]; rewrite ?andb_false_r.
  - rewrite Hst. cbn [status_eqb]. rewrite andb_false_r. auto.
  - right. left. split; [reflexivity|]. exists deferred.
    destruct (negb deferred && _) eqn:Hc; [|auto].
    right. split; [|reflexivity].
    apply andb_true_iff in Hc. destruct Hc as [Hd _].
    unfold sync_compile. destruct deferred; [discriminate|]. cbn. apply orb_true_r.
  - destruct (negb (image_render env) && deferred && true); [auto|].
    destruct deferred; cbn [andb negb]; [auto|]. rewrite Hst. cbn [status_eqb]. auto.
  - rewrite Hst. cbn [status_eqb]. rewrite andb_false_r. auto.
Qed.

(** *** The queue invariant *)

Section QueueInv.
Variable gpu_compile : GPUMaterial -> eGPUMaterialStatus.
Hypothesis never_created : forall m, gpu_compile m <> GPU_MAT_CREATED.

Lemma add_keeps_queue_inv env m d s :
  queue_inv s -> status s m <> GPU_MAT_CREATED ->
  (sync_compile env d = false ->
   forall c, job s = Some c -> forall x, In x (queue c) -> mat x <> m) ->
  queue_inv (drw_deferred_shader_add gpu_compile env m d s).
Proof.
  intros Hinv Hm Hfresh. destruct (sync_compile env d) eqn:Hs.
  - destruct (add_sync_spec gpu_compile env m d s Hs) as (H1 & _ & _ & H4 & _).
    intros comp Hj. rewrite H4 in Hj. destruct (job s) as [c|] eqn:Hjs; [|discriminate].
    injection Hj as <-. destruct (Hinv c Hjs) as [Hd Hst]. split.
    + apply remove_windows_keeps_distinct, Hd.
    + intros x Hx. rewrite H1.
      destruct (remove_windows_frame (windows env) c m) as (_ & _ & Hin).
      apply Hin, Hst in Hx. unfold GPU_material_compile, GPU_material_status_set.
      destruct (Nat.eqb (mat x) m); [apply never_created|exact Hx].
  - destruct (add_deferred_spec gpu_compile env m d s Hs) as (H1 & H2 & _).
    destruct (add_to_new_compiler_spec env (job s) m (next s)) as (Q1 & _).
    intros comp Hj. rewrite H2 in Hj. injection Hj as <-.
    rewrite Q1, H1. destruct (job s) as [c|] eqn:Hjs.
    + destruct (Hinv c Hjs) as [Hd Hst]. split.
      * unfold distinct_mats in *. rewrite map_app. cbn [map mat].
        apply List.NoDup_app; [exact Hd|constructor; [intros []|constructor]|].
        intros y Hy [<-|[]]. apply List.in_map_iff in Hy. destruct Hy as (x & Hx & Hin).
        apply (Hfresh eq_refl c eq_refl x Hin Hx).
      * intros x Hx. apply in_app_iff in Hx. destruct Hx as [Hx|[<-|[]]]; [auto|exact Hm].
    + split.
      * unfold distinct_mats. cbn. constructor; [intros []|constructor].
      * intros x [<-|[]]. exact Hm.
Qed.

Lemma mark_queued_keeps_queue_inv m s : queue_inv s -> queue_inv (mark_queued m s).
Proof.
  intros Hinv comp Hj. destruct (Hinv comp Hj) as [Hd Hst]. split; [exact Hd|].
  intros x Hx. cbn [status mark_queued]. unfold GPU_material_status_set.
  destruct (Nat.eqb (mat x) m); [discriminate|apply Hst, Hx].
Qed.

Lemma entry_shape_keeps_queue_inv env m s r :
  queue_inv s ->
  r = s \/
  (status s m = GPU_MAT_CREATED /\
   exists d, r = drw_deferred_shader_add gpu_compile env m d (mark_queued m s) \/
             (sync_compile env d = true /\
              r = drw_deferred_shader_add gpu_compile env m false
                    (drw_deferred_shader_add gpu_compile env m d (mark_queued m s)))) \/
  (status s m = GPU_MAT_QUEUED /\ r = drw_deferred_shader_add gpu_compile env m false s) ->
  queue_inv r.
Proof.
  intros Hinv Hshape.
  assert (Hsf : sync_compile env false = true) by (unfold sync_compile; cbn; apply orb_true_r).
  assert (Hmq : status (mark_queued m s) m <> GPU_MAT_CREATED).
  { cbn [status mark_queued]. rewrite status_set_same. discriminate. }
  destruct Hshape as [->|[(Hst & d & Hr)|(Hst & ->)]]; [exact Hinv| |].
  - assert (Hfirst : queue_inv (drw_deferred_shader_add gpu_compile env m d (mark_queued m s))).
    { apply add_keeps_queue_inv; [apply mark_queued_keeps_queue_inv, Hinv|exact Hmq|].
      intros _ c Hj x Hx Hmx. cbn [job mark_queued] in Hj.
      destruct (Hinv c Hj) as [_ Hs]. apply (Hs x Hx). rewrite Hmx. exact Hst. }
    destruct Hr as [->|(Hs & ->)]; [exact Hfirst|].
    apply add_keeps_queue_inv; [exact Hfirst| |rewrite Hsf; discriminate].
    rewrite add_sync_status by exact Hs. apply never_created.
  - apply add_keeps_queue_inv; [exact Hinv|congruence|rewrite Hsf; discriminate].
Qed.

Lemma step_keeps_queue_inv workaround s s' :
  step gpu_compile workaround s s' -> queue_inv s -> queue_inv s'.
Proof.
  intros Hstep Hinv. destruct Hstep as [env m d s _|env m d s _|env m s|
    opengl s comp comp' st' ev Hj Ht|s comp Hj|s l1 comp l2 Hr].
  - apply (entry_shape_keeps_queue_inv env m s); [exact Hinv|apply from_material_shape].
  - apply (entry_shape_keeps_queue_inv env m s); [exact Hinv|apply from_world_shape].
  - destruct (remove_state_spec env m s) as (H1 & _ & _ & H4 & _).
    intros c Hc. rewrite H4 in Hc. destruct (job s) as [c0|] eqn:Hjs; [|discriminate].
    injection Hc as <-. destruct (Hinv c0 Hjs) as [Hd Hst]. split.
    + apply remove_windows_keeps_distinct, Hd.
    + intros x Hx. rewrite H1.
      destruct (remove_windows_frame (windows env) c0 m) as (_ & _ & Hin).
      apply Hst, Hin, Hx.
  - apply exec_turn_Continue in Ht.
    destruct Ht as (d & rest & Hq & Hq' & Hst' & _).
    intros c Hc. cbn [job] in Hc. injection Hc as <-.
    destruct (Hinv comp Hj) as [Hd Hst]. rewrite Hq in Hd, Hst. rewrite Hq'. split.
    + unfold distinct_mats in *. rewrite map_app in Hd.
      apply List.NoDup_app_remove_r in Hd. exact Hd.
    + intros x Hx. cbn [status]. rewrite Hst'.
      unfold GPU_material_compile, GPU_material_status_set.
      destruct (Nat.eqb (mat x) (mat d)); [apply never_created|].
      apply Hst, in_app_iff. auto.
  - intros c Hc. discriminate.
  - intros c Hc. cbn [job] in Hc. destruct (Hinv c Hc) as [Hd Hst]. split; [exact Hd|].
    intros x Hx. cbn [status].
    destruct (compilation_free_status gpu_compile comp (status s) (mat x)) as [->| ->];
      [apply Hst, Hx|apply never_created].
Qed.

End QueueInv.

(** *** The context invariant *)

Lemma compilation_free_destroyed gpu_compile comp st :
  destroyed (snd (drw_deferred_shader_compilation_free gpu_compile comp st)) =
  if own_context comp then
    match gl_context comp, gpu_context comp with
    | Some gl, Some gpu => [(gl, gpu)]
    | _, _ => []
    end
  else [].
Proof.
  unfold drw_deferred_shader_compilation_free.
  destruct (queue_conclude comp) as [|c rest] eqn:Hqc; cbn [BLI_listbase_is_empty negb snd].
  - rewrite !destroyed_app, queue_free_destroyed.
    destruct (own_context comp), (gl_context comp), (gpu_context comp); reflexivity.
  - rewrite conclude_loop_spec by lia. cbn [snd].
    change (EvContextEnable :: ?l) with ([EvContextEnable] ++ l).
    rewrite !destroyed_app, queue_free_destroyed, conclude_events_destroyed.
    destruct (own_context comp), (gl_context comp), (gpu_context comp); reflexivity.
Qed.

Lemma context_inv_update w s s' :
  (forall c, In c (retired s') -> In c (retired s)) ->
  (forall c', job s' = Some c' ->
     exists c, job s = Some c /\ own_context c' = own_context c /\
       gl_context c' = gl_context c /\ gpu_context c' = gpu_context c) ->
  next s <= next s' ->
  created (events s') = created (events s) ->
  destroyed (events s') = destroyed (events s) ->
  context_inv w s -> context_inv w s'.
Proof.
  intros Hret Hjob Hnext Hcr Hde (I1 & I2 & I3 & I4 & I5).
  unfold context_inv. rewrite Hcr, Hde. repeat split.
  - intros c Hc. apply I1, Hret, Hc.
  - destruct (Hjob c H) as (c0 & Hj & Ho & _). rewrite Ho. apply (I2 c0 Hj).
  - destruct (Hjob c H) as (c0 & Hj & _ & Hgl & Hgpu).
    destruct (I2 c0 Hj) as (_ & gl & gpu & G1 & G2 & G3).
    exists gl, gpu. rewrite Hgl, Hgpu. repeat split; auto;
      destruct (G3 H0) as (K1 & K2 & K3); auto. lia.
  - destruct (I3 p H) as [K _]. lia.
  - apply I3, H.
  - intros p Hp. specialize (I4 p Hp). lia.
  - exact I5.
Qed.

Lemma add_keeps_context_inv gpu_compile w env m d s :
  main_context_workaround env = w ->
  context_inv w s -> context_inv w (drw_deferred_shader_add gpu_compile env m d s).
Proof.
  intros Hw Hinv. destruct (sync_compile env d) eqn:Hs.
  - destruct (add_sync_spec gpu_compile env m d s Hs)
      as (_ & H2 & H3 & H4 & ev & H5 & _ & H7).
    apply (context_inv_update w s); auto.
    + rewrite H2. auto.
    + intros c' Hc'. rewrite H4 in Hc'. destruct (job s) as [c|]; [|discriminate].
      injection Hc' as <-. exists c.
      destruct (remove_windows_frame (windows env) c m) as (-> & _). auto.
    + lia.
    + rewrite H5, !created_app, H7. cbn.
      destruct (job s) as [c|]; [|rewrite app_nil_r; reflexivity].
      destruct (remove_windows_contexts (windows env) c m) as [_ ->].
      rewrite app_nil_r. reflexivity.
    + rewrite H5, !destroyed_app, H7. cbn.
      destruct (job s) as [c|]; [|rewrite app_nil_r; reflexivity].
      destruct (remove_windows_contexts (windows env) c m) as [-> _].
      rewrite app_nil_r. reflexivity.
  - destruct (add_deferred_spec gpu_compile env m d s Hs) as (_ & H2 & H3 & H4 & H5).
    destruct (add_to_new_compiler_spec env (job s) m (next s))
      as (_ & _ & _ & _ & Q5 & Q6 & Q7).
    destruct Hinv as (I1 & I2 & I3 & I4 & I5).
    set (r := add_to_new_compiler env (job s) m (next s)) in *.
    unfold context_inv. rewrite H2, H3, H4, H5, created_app, destroyed_app.
    assert (Hdes : destroyed (snd r) = []).
    { destruct (job s) as [o|]; [destruct (gl_context o)|];
        destruct (main_context_workaround env); destruct Q7 as (_ & _ & ->); reflexivity. }
    rewrite Hdes, app_nil_r. rewrite Hw in *.
    split; [|split; [|split; [|split]]].
    + intros c Hc. rewrite Q6 in Hc. destruct (job s) as [o|] eqn:Hj; [|auto].
      destruct Hc as [<-|Hc]; [|auto].
      destruct (I2 o eq_refl) as (_ & gl & _ & -> & _). reflexivity.
    + intros c [= <-]. split; [exact Q5|].
      destruct (job s) as [o|] eqn:Hj.
      * destruct (I2 o eq_refl) as (_ & gl & gpu & G1 & G2 & G3).
        rewrite G1 in Q7. destruct Q7 as (K1 & K2 & K3).
        exists gl, gpu. rewrite K1, K2, K3, app_nil_r. repeat split; auto;
          destruct (G3 H) as (L1 & L2 & L3); auto. lia.
      * destruct w.
        -- destruct Q7 as (K1 & K2 & K3). exists (DST_gl_context env), (DST_gpu_context env).
           repeat split; auto; discriminate.
        -- destruct Q7 as (K1 & K2 & K3). exists (next s + 1), (next s + 2).
           rewrite K3. repeat split; auto; try lia.
           ++ apply in_app_iff. right. left. reflexivity.
           ++ intros Hin. apply I3 in Hin. cbn in Hin. lia.
    + intros p Hp. destruct (I3 p Hp). split; [lia|]. apply in_app_iff. auto.
    + intros p Hp. apply in_app_iff in Hp. destruct Hp as [Hp|Hp].
      * specialize (I4 p Hp). lia.
      * destruct (job s) as [o|]; [destruct (gl_context o)|]; destruct w;
          destruct Q7 as (_ & _ & K3); rewrite K3 in Hp; try destruct Hp as [<-|[]];
          try destruct Hp; cbn; lia.
    + exact I5.
Qed.

Lemma step_keeps_context_inv gpu_compile w s s' :
  step gpu_compile w s s' -> context_inv w s -> context_inv w s'.
Proof.
  intros Hstep Hinv.
  assert (Hmark : forall m, context_inv w (mark_queued m s)).
  { intros m. apply (context_inv_update w s); auto.
    intros c' Hc'. exists c'. auto. }
  destruct Hstep as [env m d s Hw|env m d s Hw|env m s|
    opengl s comp comp' st' ev Hj Ht|s comp Hj|s l1 comp l2 Hr].
  - destruct (from_material_shape gpu_compile env m d s)
      as [->|[(_ & d' & [->|(_ & ->)])|(_ & ->)]]; auto using add_keeps_context_inv.
  - destruct (from_world_shape gpu_compile env m d s)
      as [->|[(_ & d' & [->|(_ & ->)])|(_ & ->)]]; auto using add_keeps_context_inv.
  - destruct (remove_state_spec env m s) as (_ & H2 & H3 & H4 & ev & H5 & _ & H7).
    apply (context_inv_update w s); auto.
    + rewrite H2. auto.
    + intros c' Hc'. rewrite H4 in Hc'. destruct (job s) as [c|]; [|discriminate].
      injection Hc' as <-. exists c.
      destruct (remove_windows_frame (windows env) c m) as (-> & _). auto.
    + lia.
    + rewrite H5, created_app, H7. destruct (job s) as [c|]; [|apply app_nil_r].
      destruct (remove_windows_contexts (windows env) c m) as [_ ->]. apply app_nil_r.
    + rewrite H5, destroyed_app, H7. destruct (job s) as [c|]; [|apply app_nil_r].
      destruct (remove_windows_contexts (windows env) c m) as [-> _]. apply app_nil_r.
  - apply exec_turn_Continue in Ht.
    destruct Ht as (d & rest & _ & _ & _ & _ & G1 & G2 & G3 & _ & G5 & G6 & _).
    apply (context_inv_update w s); cbn [retired job next events]; auto.
    + intros c' [= <-]. exists comp. auto.
    + rewrite created_app, G6. apply app_nil_r.
    + rewrite destroyed_app, G5. apply app_nil_r.
  - destruct Hinv as (I1 & I2 & I3 & I4 & I5).
    destruct (I2 comp Hj) as (Ho & gl & gpu & G1 & G2 & G3).
    unfold context_inv. cbn [retired job next events].
    rewrite created_app, destroyed_app, compilation_free_created,
      compilation_free_destroyed, app_nil_r, Ho, G1, G2.
    split; [exact I1|]. split; [intros c Hc; discriminate|].
    destruct w; cbn [negb]; [rewrite app_nil_r; auto|].
    destruct (G3 eq_refl) as (K1 & K2 & K3).
    split; [|split; [exact I4|]].
    + intros p Hp. apply in_app_iff in Hp. destruct Hp as [Hp|[<-|[]]]; [auto|].
      split; [exact K1|exact K2].
    + apply List.NoDup_app; [exact I5|constructor; [intros []|constructor]|].
      intros p Hp [<-|[]]. contradiction.
  - pose proof Hinv as (I1 & _).
    assert (Hown : own_context comp = false).
    { apply I1. rewrite Hr. apply in_app_iff. right. left. reflexivity. }
    apply (context_inv_update w s); cbn [retired job next events]; auto.
    + intros c Hc. rewrite Hr. apply in_app_iff in Hc. apply in_app_iff.
      destruct Hc; [left|right; right]; assumption.
    + intros c' Hc'. exists c'. auto.
    + rewrite created_app, compilation_free_created. apply app_nil_r.
    + rewrite destroyed_app, compilation_free_destroyed, Hown. apply app_nil_r.
Qed.

Lemma reachable_context_inv gpu_compile w s :
  reachable gpu_compile w s -> context_inv w s.
Proof.
  intros Hreach. induction Hreach as [st n|s s' _ IH Hstep].
  - unfold context_inv. cbn.
    split; [intros c []|]. split; [intros c Hc; discriminate|].
    split; [intros p []|]. split; [intros p []|constructor].
  - apply (step_keeps_context_inv gpu_compile w s s' Hstep IH).
Qed.

Lemma filter_none {A} (f : A -> bool) (l : list A) :
  (forall x, In x l -> f x = false) -> List.filter f l = [].
Proof.
  induction l as [|x l IH]; intros H; [reflexivity|]. cbn.
  rewrite (H x (or_introl eq_refl)). apply IH. intros y Hy. apply H. right. exact Hy.
Qed.

(** Only the compiler of the job can be an owner. *)
Lemma owners_of_context_inv w s :
  context_inv w s ->
  owners s = match job s with
             | Some c => if own_context c then [c] else []
             | None => []
             end.
Proof.
  intros (I1 & _). unfold owners, instances. rewrite List.filter_app.
  rewrite (filter_none own_context (retired s) I1), app_nil_r.
  destruct (job s) as [c|]; [|reflexivity]. cbn. destruct (own_context c); reflexivity.
Qed.

(** *** Several requests in a row *)

Lemma deferred_request_spec gpu_compile env m s :
  evil_C env = true -> image_render env = false ->
  status s m = GPU_MAT_CREATED ->
  let s' := DRW_shader_from_material gpu_compile env m true s in
  status s' = GPU_material_status_set (status s) m GPU_MAT_QUEUED /\
  map mat (queue_of s') = map mat (queue_of s) ++ [m].
Proof.
  intros He Hi Hst.
  assert (Hdef : sync_compile env true = false).
  { unfold sync_compile. rewrite He, Hi. reflexivity. }
  unfold DRW_shader_from_material, GPU_material_status. rewrite Hi, Hst.
  cbn [status_eqb andb negb]. fold (mark_queued m s).
  destruct (add_deferred_spec gpu_compile env m true (mark_queued m s) Hdef)
    as (H1 & H2 & _).
  destruct (add_to_new_compiler_spec env (job (mark_queued m s)) m (next (mark_queued m s)))
    as (Q1 & _).
  split; [exact H1|]. unfold queue_of. rewrite H2, Q1. cbn [job mark_queued].
  rewrite map_app. destruct (job s); reflexivity.
Qed.

Lemma request_all_spec gpu_compile env ms s :
  evil_C env = true -> image_render env = false ->
  List.NoDup ms -> (forall m, In m ms -> status s m = GPU_MAT_CREATED) ->
  let s' := request_all gpu_compile env ms s in
  map mat (queue_of s') = map mat (queue_of s) ++ ms /\
  (forall m, In m ms -> status s' m = GPU_MAT_QUEUED) /\
  (forall m, ~ In m ms -> status s' m = status s m).
Proof.
  intros He Hi. revert s. induction ms as [|m ms IH]; intros s Hnd Hst.
  - cbn. rewrite app_nil_r. repeat split; auto. intros m [].
  - inversion Hnd as [|? ? Hnot Hnd']; subst.
    destruct (deferred_request_spec gpu_compile env m s He Hi (Hst m (or_introl eq_refl)))
      as [H1 H2].
    cbn [request_all fold_left].
    set (s1 := DRW_shader_from_material gpu_compile env m true s) in *.
    destruct (IH s1 Hnd') as (G1 & G2 & G3).
    { intros x Hx. rewrite H1, status_set_other; [apply Hst; right; exact Hx|].
      intros ->. contradiction. }
    fold (request_all gpu_compile env ms s1).
    split; [|split].
    + rewrite G1, H2, <- app_assoc. reflexivity.
    + intros x [<-|Hx]; [|auto].
      rewrite G3 by exact Hnot. rewrite H1. apply status_set_same.
    + intros x Hx. rewrite G3 by (intros Hin; apply Hx; right; exact Hin).
      rewrite H1. apply status_set_other. intros ->. apply Hx. left. reflexivity.
Qed.

End DeferredFacts.

(** ** More facts about the shader library *)

Module ShaderLibMoreFacts.
Import CStr CStrFacts ShaderLib ShaderLibSpec ShaderLibFacts.

Lemma free_slot_loop_intro lib n i k :
  (i <= k < i + n)%nat -> lib_at lib k = None ->
  (forall m, (i <= m < k)%nat -> lib_at lib m <> None) ->
  free_slot_loop lib n i = Z.of_nat k.
Proof.
  revert i. induction n as [|n IH]; intros i Hk Hfree Hlow; [lia|].
  cbn [free_slot_loop]. destruct (decide (k = i)) as [->|Hne].
  - rewrite Hfree. reflexivity.
  - destruct (lib_at lib i) as [c|] eqn:Hc.
    + apply IH; [lia|exact Hfree|]. intros m Hm. apply Hlow. lia.
    + exfalso. apply (Hlow i); [lia|exact Hc].
Qed.

Section WithMemory.
Variable behind : string -> string.

Lemma add_files_snoc lib files f :
  add_files behind lib (files ++ [f]) =
  lib_after (DRW_shader_library_add_file behind (add_files behind lib files) (fst f) (snd f)).
Proof. unfold add_files. rewrite fold_left_app. reflexivity. Qed.

(** The slots of a built library, one by one. *)
Lemma build_slots files k :
  lib_at (build behind files) k =
    (if (k <? Nat.min (length files) MAX_LIB)%nat
     then Some (fst (nth k files (EmptyString, EmptyString))) else None) /\
  ((k < Nat.min (length files) MAX_LIB)%nat ->
   name_at (build behind files) k =
     BLI_strncpy (snd (nth k files (EmptyString, EmptyString))) MAX_LIB_NAME).
Proof.
  revert k. induction files as [|f files IH] using rev_ind; intros k.
  - cbn [length Nat.min]. split; [|lia].
    change (build behind []) with DRW_shader_library_create.
    unfold lib_at. cbn [libs DRW_shader_library_create].
    rewrite nth_replicate_default. reflexivity.
  - unfold build in *. rewrite add_files_snoc, length_app. cbn [length].
    set (lib := add_files behind DRW_shader_library_create files) in *.
    assert (Hinv : lib_inv lib) by apply build_inv.
    destruct (Nat.lt_ge_cases (length files) MAX_LIB) as [Hlt|Hge].
    + (* a slot is free: the file goes to slot [length files] *)
      assert (Hnext : next_slot lib (length files) = true).
      { unfold next_slot. apply Z.eqb_eq. apply free_slot_loop_intro; [lia| |].
        - rewrite (proj1 (IH (length files))).
          replace (length files <? Nat.min (length files) MAX_LIB)%nat with false
            by (symmetry; apply Nat.ltb_ge; lia). reflexivity.
        - intros m Hm. rewrite (proj1 (IH m)).
          replace (m <? Nat.min (length files) MAX_LIB)%nat with true
            by (symmetry; apply Nat.ltb_lt; lia). discriminate. }
      destruct (add_file_at behind lib (fst f) (snd f) (length files) Hnext) as (_ & _ & Heq).
      rewrite Heq. cbv zeta. cbn [lib_after]. unfold lib_at, name_at.
      cbn [libs libs_name stored].
      destruct (decide (k = length files)) as [->|Hne].
      * rewrite !nth_insert_eq
          by (rewrite ?(inv_len_libs _ Hinv), ?(inv_len_name _ Hinv); exact Hlt).
        replace (length files <? Nat.min (length files + 1) MAX_LIB)%nat with true
          by (symmetry; apply Nat.ltb_lt; lia).
        rewrite app_nth2, Nat.sub_diag by lia. cbn [nth]. auto.
      * rewrite !nth_insert_ne by congruence.
        fold (lib_at lib k) (name_at lib k). destruct (IH k) as [H1 H2]. rewrite H1.
        destruct (Nat.ltb_spec k (Nat.min (length files) MAX_LIB)) as [Hk|Hk].
        -- replace (k <? Nat.min (length files + 1) MAX_LIB)%nat with true
             by (symmetry; apply Nat.ltb_lt; lia).
           rewrite app_nth1 by lia. split; [reflexivity|]. intros _. apply H2, Hk.
        -- replace (k <? Nat.min (length files + 1) MAX_LIB)%nat with false
             by (symmetry; apply Nat.ltb_ge; lia).
           split; [reflexivity|lia].
    + (* the registry is full: the file is dropped *)
      destruct (add_file_cases behind lib (fst f) (snd f))
        as [(i & Hi & Hfree & _)|[_ Heq]].
      * exfalso. rewrite (proj1 (IH i)) in Hfree.
        replace (i <? Nat.min (length files) MAX_LIB)%nat with true in Hfree
          by (symmetry; apply Nat.ltb_lt; lia). discriminate.
      * rewrite Heq. cbn [lib_after]. destruct (IH k) as [H1 H2]. rewrite H1.
        replace (Nat.min (length files + 1) MAX_LIB) with (Nat.min (length files) MAX_LIB)
          by lia.
        destruct (Nat.ltb_spec k (Nat.min (length files) MAX_LIB)) as [Hk|Hk].
        -- rewrite app_nth1 by lia. split; [reflexivity|]. intros _. apply H2, Hk.
        -- split; [reflexivity|lia].
Qed.

Lemma closure_loop_zero lib n : closure_loop lib n 0 = 0.
Proof.
  induction n as [|n IH]; [reflexivity|]. cbn [closure_loop].
  rewrite Z.bits_0. destruct (lib_at lib n); exact IH.
Qed.

Lemma deps_loop_unresolved fuel lib p h d log :
  (forall name, drw_shader_library_search lib name = -1) ->
  fst (deps_loop fuel lib p h d log) = d.
Proof.
  intros Hs. revert h log. induction fuel as [|fuel IH]; intros h log; [reflexivity|].
  rewrite deps_loop_S. destruct (strstr h p) as [found|]; [|reflexivity].
  cbv zeta. rewrite Hs. cbn [Z.eqb].
  destruct (dbg_name_loop _ _) as [dbg h2]. apply IH.
Qed.

Lemma lor_u64 a b :
  0 <= a < 2 ^ 64 -> 0 <= b < 2 ^ 64 -> 0 <= Z.lor a b < 2 ^ 64.
Proof.
  intros Ha Hb. split; [apply Z.lor_nonneg; lia|].
  destruct (Z.eq_dec (Z.lor a b) 0) as [->|Hne]; [lia|].
  apply Z.log2_lt_pow2; [pose proof (proj2 (Z.lor_nonneg a b)); lia|].
  rewrite Z.log2_lor by lia.
  destruct (Z.eq_dec a 0) as [->|Ha0]; destruct (Z.eq_dec b 0) as [->|Hb0].
  - cbn. lia.
  - rewrite Z.max_r by (cbn; apply Z.log2_nonneg). apply Z.log2_lt_pow2; lia.
  - rewrite Z.max_l by (cbn; apply Z.log2_nonneg). apply Z.log2_lt_pow2; lia.
  - apply Z.max_lub_lt; apply Z.log2_lt_pow2; lia.
Qed.

Lemma deps_loop_u64 fuel lib p h d log :
  0 <= d < 2 ^ 64 -> 0 <= fst (deps_loop fuel lib p h d log) < 2 ^ 64.
Proof.
  revert h d log. induction fuel as [|fuel IH]; intros h d log Hd; [exact Hd|].
  rewrite deps_loop_S. destruct (strstr h p) as [found|]; [|exact Hd].
  cbv zeta.
  destruct (Z.eqb_spec (drw_shader_library_search lib (advance (String.length p) found)) (-1))
    as [He|Hne].
  - destruct (dbg_name_loop _ _) as [dbg h2]. apply IH, Hd.
  - apply IH, lor_u64; [exact Hd|]. unfold bit64, u64. apply Z.mod_pos_bound. lia.
Qed.

End WithMemory.

End ShaderLibMoreFacts.

(** ** Facts about the interleavings *)

Module InterleavingFacts.
Import Deferred DeferredSpec DeferredFacts Interleaving InterleavingSpec.

Local Open Scope nat_scope.

Ltac pcs :=
  repeat match goal with
         | H : wpc ?s = _ |- _ => rewrite H in *; clear H
         | H : mpc ?s = _ |- _ => rewrite H in *; clear H
         end.

Lemma lock_inv_start c st : mat_compiling c = None -> lock_inv (start c st).
Proof. intros H. unfold lock_inv. cbn. auto. Qed.

Lemma worker_step_lock_inv gpu_compile s s' :
  worker_step gpu_compile s s' -> lock_inv s -> lock_inv s'.
Proof.
  intros Hstep (L1 & L2 & L3 & L4 & L5).
  destruct Hstep; unfold lock_inv; cbn; pcs; cbn in *;
    destruct (main_holds_list (mpc s)) eqn:Hml;
    destruct (main_holds_mutex (mpc s)) eqn:Hmm;
    repeat split; try congruence; try discriminate; auto.
Qed.

Lemma main_step_lock_inv s s' :
  main_step s s' -> lock_inv s -> lock_inv s'.
Proof.
  intros Hstep (L1 & L2 & L3 & L4 & L5).
  destruct Hstep;
    try match goal with
        | |- lock_inv (set_mpc _ (match ?x with Some _ => _ | None => _ end)) => destruct x
        | |- lock_inv (set_mpc _ (log _ (match ?x with Some _ => _ | None => _ end))) =>
          destruct x
        end;
    unfold lock_inv; cbn; pcs; cbn in *;
    destruct (worker_holds_list (wpc s)) eqn:Hwl;
    destruct (worker_holds_mutex (wpc s)) eqn:Hwm;
    repeat split; try congruence; try discriminate; auto.
Qed.

Lemma cstep_lock_inv gpu_compile s s' :
  cstep gpu_compile s s' -> lock_inv s -> lock_inv s'.
Proof.
  intros [s1 s2 H|s1 s2 H]; [apply (worker_step_lock_inv _ _ _ H)|apply (main_step_lock_inv _ _ H)].
Qed.

Lemma creachable_lock_inv gpu_compile c st s :
  mat_compiling c = None -> creachable gpu_compile c st s -> lock_inv s.
Proof.
  intros Hc Hr. induction Hr as [|s s' _ IH Hstep].
  - apply lock_inv_start, Hc.
  - apply (cstep_lock_inv _ _ _ Hstep IH).
Qed.

(** *** Where the requests are *)

Lemma dsh_eq_dec (a b : DRWDeferredShader) : {a = b} + {a <> b}.
Proof. decide equality; apply Nat.eq_dec. Qed.

Ltac count_occ_tac :=
  unfold places, in_slot, discarded_in, removed_in, BLI_addtail; cbn; pcs; cbn;
  repeat match goal with
         | H : mat_compiling _ = _ |- _ => rewrite H in *; clear H
         | H : queue _ = _ |- _ => rewrite H in *; clear H
         end;
  rewrite ?flat_map_app; cbn; rewrite ?count_occ_app; cbn;
  rewrite ?count_occ_app; cbn; rewrite ?count_occ_app; cbn;
  rewrite ?count_occ_app; cbn;
  repeat match goal with
         | |- context [dsh_eq_dec ?a ?b] => destruct (dsh_eq_dec a b)
         end; try lia.

Ltac count_perm :=
  apply (Permutation.Permutation_count_occ dsh_eq_dec); intros x; count_occ_tac.

Lemma worker_step_places gpu_compile s s' :
  worker_step gpu_compile s s' -> lock_inv s ->
  Permutation.Permutation (places s) (places s').
Proof.
  intros Hstep (_ & _ & _ & _ & L5).
  destruct Hstep; pcs; cbn [slot_filled] in L5; try (count_perm; fail).
  - apply BLI_poptail_None in H0. destruct H0 as [Hq ->]. count_perm.
  - apply BLI_poptail_Some in H0. count_perm.
Qed.

Lemma main_step_places s s' :
  main_step s s' -> Permutation.Permutation (places s) (places s').
Proof.
  intros Hstep. destruct Hstep; try (pcs; count_perm; fail).
  - (* unlink *)
    destruct (BLI_findptr (queue (comp s)) m) as [d|] eqn:Hf; [|count_perm].
    apply BLI_findptr_Some in Hf. destruct Hf as (l1 & l2 & Hq & Hm & Hl1).
    apply (Permutation.Permutation_count_occ dsh_eq_dec). intros x.
    unfold places, discarded_in, removed_in, in_slot. cbn. rewrite Hq, H.
    rewrite BLI_remlink_first by (intros y Hy ->; apply (Hl1 _ Hy Hm)).
    rewrite !count_occ_app. cbn. rewrite !count_occ_app.
    destruct (dsh_eq_dec d x); lia.
  - (* return *)
    destruct dsh as [d|]; pcs; count_perm.
  - (* ownership is given up *)
    destruct (gl_context (comp s)); pcs; count_perm.
  - (* unlink, on the installed compiler *)
    destruct (BLI_findptr (taken s) m) as [d|] eqn:Hf; [|pcs; count_perm].
    apply BLI_findptr_Some in Hf. destruct Hf as (l1 & l2 & Hq & Hm & Hl1).
    apply (Permutation.Permutation_count_occ dsh_eq_dec). intros x.
    unfold places, discarded_in, removed_in, in_slot. cbn. rewrite Hq, H.
    rewrite BLI_remlink_first by (intros y Hy ->; apply (Hl1 _ Hy Hm)).
    rewrite !count_occ_app. cbn. rewrite !count_occ_app. cbn.
    destruct (dsh_eq_dec d x); lia.
  - (* return *)
    destruct dsh as [d|]; pcs; count_perm.
Qed.

Lemma creachable_places gpu_compile c st s :
  mat_compiling c = None -> creachable gpu_compile c st s ->
  Permutation.Permutation (queue c ++ queue_conclude c) (places s).
Proof.
  intros Hc Hr. induction Hr as [|s s' Hr IH Hstep].
  - unfold places, in_slot. cbn. rewrite Hc. cbn. rewrite app_nil_r. reflexivity.
  - etransitivity; [exact IH|]. destruct Hstep as [s1 s2 H|s1 s2 H].
    + apply (worker_step_places _ _ _ H). apply (creachable_lock_inv _ _ _ _ Hc Hr).
    + apply (main_step_places _ _ H).
Qed.

Lemma places_at_place s :
  places s = at_place s P_queue ++ at_place s P_conclude ++ at_place s P_slot
             ++ at_place s P_hand ++ at_place s P_taken ++ at_place s P_discarded
             ++ at_place s P_removed.
Proof. reflexivity. Qed.

Lemma at_place_count s p d :
  count_occ dsh_eq_dec (at_place s p) d <= count_occ dsh_eq_dec (places s) d.
Proof.
  rewrite places_at_place, !count_occ_app. destruct p; lia.
Qed.

(** A request that is somewhere, and nowhere twice, is at one place. *)
Lemma at_one_place s d :
  In d (places s) -> List.NoDup (places s) ->
  exists p, In d (at_place s p) /\ forall p', In d (at_place s p') -> p' = p.
Proof.
  intros Hin Hnd.
  assert (Hone : count_occ dsh_eq_dec (places s) d = 1).
  { pose proof (proj1 (List.NoDup_count_occ dsh_eq_dec (places s)) Hnd d) as Hle.
    pose proof (proj1 (count_occ_In dsh_eq_dec (places s) d) Hin) as Hge. lia. }
  assert (Hp : forall p, In d (at_place s p) ->
                         count_occ dsh_eq_dec (at_place s p) d >= 1).
  { intros p H. apply (count_occ_In dsh_eq_dec) in H. lia. }
  rewrite places_at_place, !count_occ_app in Hone.
  rewrite places_at_place, !in_app_iff in Hin.
  assert (Hex : exists p, In d (at_place s p)).
  { destruct Hin as [H|[H|[H|[H|[H|[H|H]]]]]]; eexists; exact H. }
  destruct Hex as [p Hpin]. exists p. split; [exact Hpin|].
  intros p' Hp'. pose proof (Hp p Hpin) as H1. pose proof (Hp p' Hp') as H2.
  destruct p, p'; try reflexivity; exfalso; lia.
Qed.

(** *** The invariant of [DRW_deferred_shader_remove] *)

Lemma NoDup_map_sub {A B} (f : A -> B) (l l' : list A) (x : A) :
  List.NoDup (map f (l ++ x :: l')) -> List.NoDup (map f (l ++ l')).
Proof.
  rewrite !map_app. cbn [map]. apply List.NoDup_remove_1.
Qed.

Lemma settled_queue_sub s s' m :
  settled s m ->
  (forall d, In d (queue (comp s')) -> In d (queue (comp s))) ->
  mat_compiling (comp s') = mat_compiling (comp s) -> wpc s' = wpc s ->
  settled s' m.
Proof.
  intros [Hq Hs] Hsub Hslot Hpc. split.
  - intros d Hd. apply Hq, Hsub, Hd.
  - intros d Hd. rewrite Hslot in Hd. rewrite Hpc. apply Hs, Hd.
Qed.

Ltac in_snoc H :=
  apply in_app_iff in H; destruct H as [H|[H|[]]]; [|try discriminate H].

(** Goals that follow from the invariant of the state before. *)
Ltac carry_settled R m Hm :=
  let K1 := fresh "K1" in
  let K2 := fresh "K2" in
  destruct (R m Hm) as [K1 K2]; split;
  [ first [ exact K1 | intros ? ?; apply K1; auto using in_or_app; fail ]
  | intros ? ? ?;
    first [ reflexivity | discriminate
          | match goal with
            | Hd : mat_compiling _ = Some ?d, He : mat ?d = _ |- _ =>
              specialize (K2 d Hd He); first [discriminate K2 | exact K2]
            end ] ].

Ltac carry_compile C :=
  let d := fresh "d" in
  let Hd := fresh "Hd" in
  let K := fresh "K" in
  intros d Hd; try in_snoc Hd;
  [ destruct (C d Hd) as [K|[K ?]];
    [ left; first [exact K | apply in_app_iff; left; exact K]
    | first [ discriminate K | right; split; [reflexivity|assumption] ] ] | .. ].

Lemma worker_step_remove_inv gpu_compile s s' :
  worker_step gpu_compile s s' -> lock_inv s -> remove_inv s -> remove_inv s'.
Proof.
  intros Hstep (L1 & L2 & L3 & L4 & L5) (D & R1 & R2 & R3 & C).
  unfold remove_inv, settled in *.
  destruct Hstep; cbn; pcs; cbn in *;
    (split; [|split; [|split; [|split]]]);
    try exact D; try exact R1;
    try (intros m Hm; carry_settled R2 m Hm; fail);
    try (intros m Hm; carry_settled R3 m Hm; fail);
    try (intros m Hm; in_snoc Hm; carry_settled R3 m Hm; fail);
    try (carry_compile C; fail).
  - (* pop, empty *) apply BLI_poptail_None in H0. destruct H0 as [_ ->]. constructor.
  - apply BLI_poptail_None in H0. destruct H0 as [_ ->]. intros m Hm d [].
  - apply BLI_poptail_None in H0. destruct H0 as [_ ->].
    intros m Hm. split; [intros d []|intros d Hd; discriminate].
  - apply BLI_poptail_None in H0. destruct H0 as [_ ->].
    intros m Hm. split; [intros d []|intros d Hd; discriminate].
  - (* pop *) apply BLI_poptail_Some in H0. rewrite H0 in D.
    unfold in_slot in D. rewrite L5 in D. rewrite app_nil_r in D. exact D.
  - apply BLI_poptail_Some in H0. intros m Hm d Hd.
    apply (R1 m Hm). rewrite H0. apply in_app_iff. auto.
  - apply BLI_poptail_Some in H0. intros m Hm. destruct (R2 m Hm) as [K1 _].
    rewrite H0 in K1. split.
    + intros d Hd. apply K1, in_app_iff. auto.
    + intros d [= <-] He. exfalso.
      apply (K1 dsh); [apply in_app_iff; right; left; reflexivity|exact He].
  - apply BLI_poptail_Some in H0. intros m Hm. destruct (R3 m Hm) as [K1 _].
    rewrite H0 in K1. split.
    + intros d Hd. apply K1, in_app_iff. auto.
    + intros d [= <-] He. exfalso.
      apply (K1 dsh); [apply in_app_iff; right; left; reflexivity|exact He].
  - (* call *) intros d Hd. apply in_app_iff in Hd. destruct Hd as [Hd|[[= <-]|[]]].
    + destruct (C d Hd) as [K|[K _]]; [|discriminate K].
      left. apply in_app_iff. left. exact K.
    + right. split; [reflexivity|exact H0].
  - (* return *) intros d Hd. in_snoc Hd.
    left. apply in_app_iff. destruct (C d Hd) as [K|[_ K]]; [left; exact K|].
    right. left. congruence.
  - (* conclude *) unfold in_slot in D. rewrite H0 in D.
    rewrite map_app in D. apply List.NoDup_app_remove_r in D.
    rewrite app_nil_r. exact D.
  - (* discard *) unfold in_slot in D. rewrite H0 in D.
    rewrite map_app in D. apply List.NoDup_app_remove_r in D.
    rewrite app_nil_r. exact D.
Qed.

Ltac past H :=
  unfold removing_past_unlink, removing_past_wait in H;
  let dsh := fresh "dsh" in
  destruct H as [dsh H];
  repeat (destruct H as [H|H]; try discriminate H);
  try discriminate H; inversion H; subst; clear H.

Lemma main_step_remove_inv s s' :
  main_step s s' -> lock_inv s -> remove_inv s -> remove_inv s'.
Proof.
  intros Hstep (L1 & L2 & L3 & L4 & L5) (D & R1 & R2 & R3 & C).
  unfold remove_inv, settled in *.
  destruct Hstep;
    try match goal with
        | |- context [set_mpc _ (match ?x with Some _ => _ | None => _ end)] =>
          destruct x eqn:Hx
        | |- context [set_mpc _ (log _ (match ?x with Some _ => _ | None => _ end))] =>
          destruct x eqn:Hx
        end;
    cbn; pcs; cbn in *;
    (split; [|split; [|split; [|split]]]);
    try exact D; try exact C;
    try (intros m' Hm; past Hm; fail);
    try (intros m' Hm; carry_settled R3 m' Hm; fail);
    try (intros m' Hm; past Hm; apply (R1 m'); eexists; eauto 6; fail);
    try (intros m' Hm; past Hm; apply (R2 m'); eexists; eauto; fail).
  - (* unlink, found *)
    apply BLI_findptr_Some in Hx. destruct Hx as (l1 & l2 & Hq & Hm & Hl1).
    rewrite Hq in *. rewrite BLI_remlink_first by (intros y Hy ->; apply (Hl1 _ Hy Hm)).
    unfold in_slot in *. cbn. rewrite <- app_assoc in *. cbn in D.
    apply (NoDup_map_sub mat l1 _ d), D.
  - apply BLI_findptr_Some in Hx. destruct Hx as (l1 & l2 & Hq & Hm & Hl1).
    rewrite Hq in *. rewrite BLI_remlink_first by (intros y Hy ->; apply (Hl1 _ Hy Hm)).
    intros m' Hp. past Hp. intros d0 Hd0.
    rewrite <- app_assoc in D. cbn in D.
    apply distinct_mats_split in D. destruct D as [_ D2].
    apply in_app_iff in Hd0. destruct Hd0 as [Hd0|Hd0]; [apply Hl1, Hd0|].
    apply D2, in_app_iff. auto.
  - apply BLI_findptr_Some in Hx. destruct Hx as (l1 & l2 & Hq & Hm & Hl1).
    rewrite Hq in *. rewrite BLI_remlink_first by (intros y Hy ->; apply (Hl1 _ Hy Hm)).
    intros m' Hm'. destruct (R3 m' Hm') as [K1 K2]. split; [|exact K2].
    intros d0 Hd0. apply K1. apply in_app_iff in Hd0. apply in_app_iff.
    destruct Hd0; [left|right; right]; assumption.
  - (* unlink, not found *)
    intros m' Hp. past Hp. apply BLI_findptr_None, Hx.
  - (* not compiling *)
    intros m' Hp. past Hp. split; [apply (R1 m'); eexists; eauto|].
    intros d Hd He. unfold is_compiling in H0. rewrite Hd in H0.
    apply Nat.eqb_neq in H0. contradiction.
  - (* mutex unlock *)
    intros m' Hp. past Hp. split; [apply (R1 m'); eexists; eauto 6|].
    intros d Hd He. rewrite andb_true_r in L2, L4.
    destruct (wpc s); cbn in *; try reflexivity; discriminate.
  - (* return, with a request *)
    intros m' Hm'. in_snoc Hm'.
    + in_snoc Hm'. carry_settled R3 m' Hm'.
    + injection Hm' as <-. apply (R2 m). eexists; eauto.
  - intros d0 Hd0. in_snoc Hd0. in_snoc Hd0.
    destruct (C d0 Hd0) as [K|K]; [left|right; exact K].
    apply in_app_iff. left. apply in_app_iff. left. exact K.
  - (* return, without *)
    intros m' Hm'. in_snoc Hm'.
    + carry_settled R3 m' Hm'.
    + injection Hm' as <-. apply (R2 m). eexists; eauto.
  - intros d0 Hd0. in_snoc Hd0.
    destruct (C d0 Hd0) as [K|K]; [left|right; exact K].
    apply in_app_iff. left. exact K.
  - (* the queue is moved *)
    unfold in_slot in *. cbn. rewrite map_app in D.
    apply List.NoDup_app_remove_l in D. exact D.
  - intros m' Hm'. destruct (R3 m' Hm') as [_ K2]. split; [intros d []|exact K2].
  - (* return from the installed compiler, with a request *)
    intros m' Hm'. in_snoc Hm'. in_snoc Hm'. carry_settled R3 m' Hm'.
  - intros d0 Hd0. in_snoc Hd0. in_snoc Hd0.
    destruct (C d0 Hd0) as [K|K]; [left|right; exact K].
    apply in_app_iff. left. apply in_app_iff. left. exact K.
  - (* return from the installed compiler, without *)
    intros m' Hm'. in_snoc Hm'. carry_settled R3 m' Hm'.
  - intros d0 Hd0. in_snoc Hd0.
    destruct (C d0 Hd0) as [K|K]; [left|right; exact K].
    apply in_app_iff. left. exact K.
Qed.

Lemma cstep_remove_inv gpu_compile s s' :
  cstep gpu_compile s s' -> lock_inv s -> remove_inv s -> remove_inv s'.
Proof.
  intros [s1 s2 H|s1 s2 H];
    [apply (worker_step_remove_inv _ _ _ H)|apply (main_step_remove_inv _ _ H)].
Qed.

(** *** The trace *)

Lemma snoc_split {A} (tr : list A) (e : A) l1 x l2 :
  tr ++ [e] = l1 ++ x :: l2 ->
  (l2 = [] /\ x = e /\ l1 = tr) \/
  (exists l2', l2 = l2' ++ [e] /\ tr = l1 ++ x :: l2').
Proof.
  induction l2 as [|y l2' _] using rev_ind.
  - intros H. apply app_inj_tail in H. destruct H as [-> ->]. auto.
  - intros H. change (l1 ++ x :: l2' ++ [y]) with (l1 ++ (x :: l2') ++ [y]) in H.
    rewrite app_assoc in H. apply app_inj_tail in H. destruct H as [-> ->].
    right. exists l2'. auto.
Qed.

Lemma trace_ok_snoc tr e :
  trace_ok tr ->
  match e with
  | CompileBegin d => forall m, In (RemoveReturn m) tr -> mat d <> m
  | RemoveReturn m =>
    forall d, mat d = m -> In (CompileBegin d) tr -> In (CompileEnd d) tr
  | _ => True
  end ->
  trace_ok (tr ++ [e]).
Proof.
  intros Hok He l1 m l2 Hsplit d Hm.
  apply snoc_split in Hsplit. destruct Hsplit as [(-> & <- & ->)|(l2' & -> & Htr)].
  - split; [apply He, Hm|intros []].
  - destruct (Hok l1 m l2' Htr d Hm) as [K1 K2]. split; [exact K1|].
    intros Hin. apply in_app_iff in Hin. destruct Hin as [Hin|[Hin|[]]]; [auto|].
    subst e. apply (He m); [|exact Hm].
    rewrite Htr. apply in_app_iff. right. left. reflexivity.
Qed.

Lemma cstep_trace_ok gpu_compile s s' :
  cstep gpu_compile s s' -> remove_inv s -> trace_ok (trace s) -> trace_ok (trace s').
Proof.
  intros Hstep (D & R1 & R2 & R3 & C) Hok.
  destruct Hstep as [s s' Hw|s s' Hm]; [destruct Hw|destruct Hm]; cbn; try exact Hok.
  - (* the call *)
    apply trace_ok_snoc; [exact Hok|]. intros m Hm Heq.
    destruct (R3 m Hm) as [_ K]. specialize (K dsh H0 Heq). rewrite H in K. discriminate.
  - apply trace_ok_snoc; [exact Hok|exact I].
  - apply trace_ok_snoc; [exact Hok|exact I].
  - destruct (BLI_findptr (queue (comp s)) m); exact Hok.
  - (* the return of the remove *)
    assert (Hset : settled s m) by (apply R2; exists dsh; auto).
    assert (Hend : forall d, mat d = m -> In (CompileBegin d) (trace s) ->
                             In (CompileEnd d) (trace s)).
    { intros d Hd Hb. destruct (C d Hb) as [K|[K1 K2]]; [exact K|].
      destruct Hset as [_ K]. specialize (K d K2 Hd). rewrite K1 in K. discriminate. }
    destruct dsh as [d0|]; cbn.
    + apply trace_ok_snoc; [apply trace_ok_snoc; [exact Hok|exact I]|].
      intros d Hd Hb. in_snoc Hb. apply in_app_iff. left. apply Hend; assumption.
    + apply trace_ok_snoc; [exact Hok|exact Hend].
  - destruct (gl_context (comp s)); exact Hok.
  - destruct (BLI_findptr (taken s) m); exact Hok.
  - (* a return from the installed compiler *)
    destruct dsh as [d0|]; cbn.
    + apply trace_ok_snoc; [apply trace_ok_snoc; [exact Hok|exact I]|exact I].
    + apply trace_ok_snoc; [exact Hok|exact I].
Qed.

Lemma remove_inv_start c st :
  mat_compiling c = None -> List.NoDup (map mat (queue c)) -> remove_inv (start c st).
Proof.
  intros Hc Hd. unfold remove_inv, settled, in_slot. cbn. rewrite Hc, app_nil_r.
  split; [exact Hd|]. split; [intros m Hm; past Hm|].
  split; [intros m Hm; past Hm|]. split; [intros m []|intros d []].
Qed.

Lemma creachable_invariants gpu_compile c st s :
  mat_compiling c = None -> List.NoDup (map mat (queue c)) ->
  creachable gpu_compile c st s ->
  lock_inv s /\ remove_inv s /\ trace_ok (trace s).
Proof.
  intros Hc Hd Hr. induction Hr as [|s s' Hr (IL & IR & IT) Hstep].
  - split; [apply lock_inv_start, Hc|]. split; [apply remove_inv_start; assumption|].
    intros l1 m l2 H. destruct l1; discriminate.
  - split; [apply (cstep_lock_inv _ _ _ Hstep IL)|].
    split; [apply (cstep_remove_inv _ _ _ Hstep IL IR)|].
    apply (cstep_trace_ok _ _ _ Hstep IR IT).
Qed.

(** *** Compiled requests *)

Lemma discarded_in_app a b : discarded_in (a ++ b) = discarded_in a ++ discarded_in b.
Proof. apply flat_map_app. Qed.

Lemma removed_in_app a b : removed_in (a ++ b) = removed_in a ++ removed_in b.
Proof. apply flat_map_app. Qed.

Lemma removed_in_In tr d : In d (removed_in tr) <-> In (Removed d) tr.
Proof.
  unfold removed_in. rewrite in_flat_map. split.
  - intros (e & He & Hd). destruct e; try destruct Hd as [<-|[]]; try destruct Hd. exact He.
  - intros H. exists (Removed d). split; [exact H|left; reflexivity].
Qed.

Lemma cstep_after_begin gpu_compile s s' :
  cstep gpu_compile s s' -> lock_inv s ->
  (forall d, In (CompileBegin d) (trace s) -> In d (after_begin s)) ->
  forall d, In (CompileBegin d) (trace s') -> In d (after_begin s').
Proof.
  intros Hstep (_ & _ & _ & _ & L5) B d.
  destruct Hstep as [s s' Hw|s s' Hm]; [destruct Hw|destruct Hm];
    try match goal with
        | |- context [set_mpc _ (match ?x with Some _ => _ | None => _ end)] =>
          destruct x eqn:Hx
        | |- context [set_mpc _ (log _ (match ?x with Some _ => _ | None => _ end))] =>
          destruct x eqn:Hx
        end;
    unfold after_begin, in_slot, BLI_addtail in *; cbn; pcs; cbn in *;
    try exact (B d);
    intros Hd; repeat in_snoc Hd; try (injection Hd as <-);
    try specialize (B d Hd);
    repeat match goal with
           | H : mat_compiling _ = _ |- _ => rewrite H in *; clear H
           end;
    rewrite ?discarded_in_app; cbn;
    repeat (rewrite in_app_iff in *; cbn in * ); try tauto.
Qed.

Lemma creachable_after_begin gpu_compile c st s :
  mat_compiling c = None -> creachable gpu_compile c st s ->
  forall d, In (CompileBegin d) (trace s) -> In d (after_begin s).
Proof.
  intros Hc Hr. induction Hr as [|s s' Hr IH Hstep].
  - intros d [].
  - apply (cstep_after_begin _ _ _ Hstep); [|exact IH].
    apply (creachable_lock_inv _ _ _ _ Hc Hr).
Qed.

(** *** No deadlock *)

(** The worker can go on unless it has left its loop or asks for a lock
    that the main thread holds. *)
Lemma worker_can_step gpu_compile s :
  lock_inv s ->
  (exists s', worker_step gpu_compile s s') \/
  wpc s = W_done \/
  ((wpc s = W_top \/ wpc s = W_unlocked) /\ main_holds_list (mpc s) = true) \/
  (wpc s = W_popped /\ main_holds_mutex (mpc s) = true).
Proof.
  intros (L1 & L2 & L3 & L4 & L5).
  destruct (wpc s) eqn:Hw; cbn in *.
  - destruct (main_holds_list (mpc s)) eqn:Hml; [right; right; left; auto|].
    left. eexists. apply ws_lock; assumption.
  - left. eexists. apply ws_stop; assumption.
  - destruct (main_holds_mutex (mpc s)) eqn:Hmm; [right; right; right; auto|].
    left. eexists. apply ws_mutex_lock; assumption.
  - left. eexists. apply ws_spin_unlock; assumption.
  - left. destruct (mat_compiling (comp s)) as [d|] eqn:Hs; [|contradiction].
    eexists. eapply ws_compile_call; eassumption.
  - left. destruct (mat_compiling (comp s)) as [d|] eqn:Hs; [|contradiction].
    eexists. eapply ws_compile_return; eassumption.
  - left. eexists. apply ws_mutex_unlock; assumption.
  - destruct (main_holds_list (mpc s)) eqn:Hml; [right; right; left; auto|].
    left. eexists. apply ws_relock; assumption.
  - left. destruct (mat_compiling (comp s)) as [d|] eqn:Hs; [|contradiction].
    destruct (status_eqb (GPU_material_status (stat s) (mat d)) GPU_MAT_QUEUED) eqn:Hq;
      eexists; [eapply ws_conclude|eapply ws_discard]; eassumption.
  - left. eexists. apply ws_finish_unlock; assumption.
  - left. eexists. apply ws_break_unlock; assumption.
  - right. left. reflexivity.
Qed.

(** The main thread, inside a call, can go on unless it asks for a lock
    that the worker holds. *)
Lemma main_can_step s :
  lock_inv s ->
  (mpc s <> M_idle /\ exists s', main_step s s') \/
  mpc s = M_idle \/
  (main_wants_list s = true /\ worker_holds_list (wpc s) = true) \/
  (main_wants_mutex (mpc s) = true /\ worker_holds_mutex (wpc s) = true).
Proof.
  intros (L1 & L2 & L3 & L4 & L5). unfold main_wants_list.
  destruct (mpc s) eqn:Hm; cbn in *.
  - right. left. reflexivity.
  - (* a remove is called *)
    destruct (installed s) eqn:Hi.
    + left. split; [discriminate|]. eexists. eapply ms_iremove_lock; eassumption.
    + destruct (worker_holds_list (wpc s)) eqn:Hwl; [right; right; left; auto|].
      left. split; [discriminate|]. eexists. eapply ms_remove_lock; eassumption.
  - left. split; [discriminate|]. eexists. eapply ms_remove_unlink; eassumption.
  - left. split; [discriminate|].
    destruct (is_compiling (comp s) m) eqn:Hc; eexists;
      [eapply ms_remove_compiling|eapply ms_remove_not_compiling]; eassumption.
  - destruct (worker_holds_mutex (wpc s)) eqn:Hwm; [right; right; right; auto|].
    left. split; [discriminate|]. eexists. eapply ms_remove_mutex_lock; eassumption.
  - left. split; [discriminate|]. eexists. eapply ms_remove_mutex_unlock; eassumption.
  - left. split; [discriminate|]. eexists. eapply ms_remove_spin_unlock; eassumption.
  - left. split; [discriminate|]. eexists. eapply ms_remove_return; eassumption.
  - (* a take is called *)
    destruct (installed s) eqn:Hi.
    + left. split; [discriminate|]. eexists. eapply ms_take_installed; eassumption.
    + destruct (worker_holds_list (wpc s)) eqn:Hwl; [right; right; left; auto|].
      left. split; [discriminate|]. eexists. eapply ms_take_lock; eassumption.
  - left. split; [discriminate|]. eexists. eapply ms_take_move; eassumption.
  - left. split; [discriminate|]. eexists. eapply ms_take_spin_unlock; eassumption.
  - left. split; [discriminate|]. eexists. eapply ms_take_disown; eassumption.
  - left. split; [discriminate|]. eexists. eapply ms_take_install; eassumption.
  - left. split; [discriminate|]. eexists. eapply ms_iremove_unlink; eassumption.
  - left. split; [discriminate|]. eexists. eapply ms_iremove_not_compiling; eassumption.
  - left. split; [discriminate|]. eexists. eapply ms_iremove_spin_unlock; eassumption.
  - left. split; [discriminate|]. eexists. eapply ms_iremove_return; eassumption.
Qed.

Lemma some_thread_can_step gpu_compile s :
  lock_inv s ->
  (exists s', worker_step gpu_compile s s') \/
  (mpc s <> M_idle /\ exists s', main_step s s') \/
  (wpc s = W_done /\ mpc s = M_idle).
Proof.
  intros L.
  destruct (worker_can_step gpu_compile s L) as [Hw|[Hw|[[Hw Hml]|[Hw Hmm]]]];
    [left; exact Hw|..];
    (destruct (main_can_step s L) as [Hm|[Hm|[[Hm Hwl]|[Hm Hwm]]]];
     [right; left; exact Hm|..]).
  - right. right. auto.
  - rewrite Hw in Hwl. discriminate.
  - rewrite Hw in Hwm. discriminate.
  - rewrite Hm in Hml. discriminate.
  - destruct Hw as [Hw|Hw]; rewrite Hw in Hwl; discriminate.
  - destruct Hw as [Hw|Hw]; rewrite Hw in Hwm; discriminate.
  - rewrite Hm in Hmm. discriminate.
  - rewrite Hw in Hwl. unfold main_wants_list in Hm.
    destruct (mpc s); discriminate.
  - rewrite Hw in Hwm. discriminate.
Qed.

(** *** Building a run step by step *)

Ltac flatten_state R :=
  cbn [set_comp set_list_lock set_compilation_lock set_wpc set_mpc set_stat set_taken
       set_installed log start comp list_lock compilation_lock wpc mpc stat taken
       installed trace with_queue with_conclude with_compiling with_done with_own
       queue queue_conclude mat_compiling gl_context gpu_context own_context
       shaders_done BLI_movelisttolist fst snd app] in R.
Tactic Notation "worker_does" hyp(R) tactic3(t) :=
  eapply creachable_step in R; [|apply cstep_worker; t]; flatten_state R.
Tactic Notation "main_does" hyp(R) tactic3(t) :=
  eapply creachable_step in R; [|apply cstep_main; t]; flatten_state R.

End InterleavingFacts.

(** ** The scan for directives, against the texts *)

Module ShaderLibTextFacts.
Import CStr CStrFacts ShaderLib ShaderLibSpec ShaderLibFacts ShaderLibMoreFacts.

Local Open Scope nat_scope.

(** *** Strings *)

Lemma prefix_nil_l (s : string) : String.prefix "" s = true.
Proof. destruct s; reflexivity. Qed.

Lemma prefix_cons (a b : ascii) (s t : string) :
  String.prefix (String a s) (String b t) = (Ascii.eqb a b && String.prefix s t)%bool.
Proof.
  cbn [String.prefix]. destruct (ascii_dec a b) as [->|Hne].
  - rewrite Ascii.eqb_refl. reflexivity.
  - apply Ascii.eqb_neq in Hne. rewrite Hne. reflexivity.
Qed.

Lemma prefix_app (a b : string) : String.prefix a (a ++ b) = true.
Proof.
  induction a as [|x a IH]; [apply prefix_nil_l|].
  cbn [append]. rewrite prefix_cons, Ascii.eqb_refl. exact IH.
Qed.

Lemma prefix_split (a b : string) :
  String.prefix a b = true -> exists c, b = (a ++ c)%string.
Proof.
  revert b. induction a as [|x a IH]; intros b H.
  - exists b. reflexivity.
  - destruct b as [|y b]; [discriminate|].
    rewrite prefix_cons in H. apply andb_true_iff in H. destruct H as [Hxy H].
    apply Ascii.eqb_eq in Hxy. subst y.
    destruct (IH b H) as [c ->]. exists c. reflexivity.
Qed.

Lemma prefix_app_r (a b c : string) :
  String.prefix a b = true -> String.prefix a (b ++ c) = true.
Proof.
  intros H. destruct (prefix_split a b H) as [d ->].
  rewrite string_app_assoc. apply prefix_app.
Qed.

(** A match that reaches over the character [c] has it. *)
Lemma prefix_app_char (p m : string) (c : ascii) (rest : string) :
  String.prefix p (m ++ String c rest) = true ->
  has_char c p = true \/ String.prefix p m = true.
Proof.
  revert m. induction p as [|a p IH]; intros m H.
  - right. apply prefix_nil_l.
  - destruct m as [|x m]; cbn [append] in H; rewrite prefix_cons in H;
      apply andb_true_iff in H; destruct H as [Hax H].
    + left. cbn [has_char]. rewrite Hax. reflexivity.
    + destruct (IH m H) as [Hc|Hp].
      * left. cbn [has_char]. rewrite Hc. apply orb_true_r.
      * right. rewrite prefix_cons, Hax. exact Hp.
Qed.

Lemma has_char_app (c : ascii) (a b : string) :
  has_char c (a ++ b) = (has_char c a || has_char c b)%bool.
Proof.
  induction a as [|x a IH]; [reflexivity|].
  cbn [append has_char]. rewrite IH. apply orb_assoc.
Qed.

Lemma prefix_has_char (c : ascii) (p m : string) :
  String.prefix p m = true -> has_char c p = true -> has_char c m = true.
Proof.
  intros H Hc. destruct (prefix_split p m H) as [d ->].
  rewrite has_char_app, Hc. reflexivity.
Qed.

(** A name without closing parenthesis is tested against the name of a
    directive only. *)
Lemma prefix_name (name n rest : string) :
  has_char ")" name = false ->
  String.prefix name (n ++ String ")" rest) = String.prefix name n.
Proof.
  intros Hn. destruct (String.prefix name n) eqn:Hp.
  - apply prefix_app_r, Hp.
  - destruct (String.prefix name (n ++ String ")" rest)) eqn:Hq; [|reflexivity].
    apply prefix_app_char in Hq. destruct Hq as [Hq|Hq]; congruence.
Qed.

Lemma app_inv_head_string (a b c : string) : (a ++ b = a ++ c)%string -> b = c.
Proof. induction a as [|x a IH]; cbn [append]; [auto|]. intros [= H]. auto. Qed.

Lemma length_app_string (a b : string) :
  String.length (a ++ b) = String.length a + String.length b.
Proof. induction a as [|x a IH]; cbn [append String.length]; lia. Qed.

(** Two names in front of a closing parenthesis, neither holding one, are
    the same name. *)
Lemma name_unique (n1 n2 r1 r2 : string) :
  has_char ")" n1 = false -> has_char ")" n2 = false ->
  (n1 ++ String ")" r1 = n2 ++ String ")" r2)%string -> n1 = n2.
Proof.
  revert n2. induction n1 as [|x n1 IH]; intros [|y n2] H1 H2 E;
    cbn [append has_char] in *.
  - reflexivity.
  - injection E as <- _. rewrite Ascii.eqb_refl in H2. discriminate.
  - injection E as -> _. rewrite Ascii.eqb_refl in H1. discriminate.
  - injection E as -> E. apply orb_false_iff in H1, H2.
    f_equal. apply (IH n2); tauto.
Qed.

Lemma substring_all (s : string) (m : nat) :
  String.length s <= m -> String.substring 0 m s = s.
Proof.
  revert m. induction s as [|x s IH]; intros m H.
  - destruct m; reflexivity.
  - destruct m as [|m]; cbn [String.length] in H; [lia|].
    cbn [String.substring]. rewrite IH by lia. reflexivity.
Qed.

Lemma cstr_plain (s : string) : has_char NUL s = false -> cstr s = s.
Proof.
  induction s as [|x s IH]; [reflexivity|].
  cbn [has_char cstr]. intros H. apply orb_false_iff in H. destruct H as [Hx Hs].
  rewrite Hx, IH by exact Hs. reflexivity.
Qed.

Lemma name_of_closed (n rest : string) :
  has_char ")" n = false -> name_of (n ++ String ")" rest) = n.
Proof.
  induction n as [|x n IH]; cbn [append name_of has_char].
  - rewrite Ascii.eqb_refl. reflexivity.
  - intros H. apply orb_false_iff in H. destruct H as [Hx Hn].
    rewrite Hx, IH by exact Hn. reflexivity.
Qed.

(** *** The marker *)

Lemma pragma_no_close : has_char ")" pragma_require = false.
Proof. reflexivity. Qed.

Lemma pragma_no_nul : has_char NUL pragma_require = false.
Proof. reflexivity. Qed.

Lemma pragma_has_open : has_char "(" pragma_require = true.
Proof. reflexivity. Qed.

(** The marker does not stand inside a name and its parenthesis. *)
Lemma no_marker_in_name (n rest : string) :
  has_char "(" n = false ->
  String.prefix pragma_require (n ++ String ")" rest) = false.
Proof.
  intros Hn. destruct (String.prefix pragma_require (n ++ String ")" rest)) eqn:Hp;
    [|reflexivity].
  apply prefix_app_char in Hp. destruct Hp as [Hp|Hp].
  - rewrite pragma_no_close in Hp. discriminate.
  - apply (prefix_has_char "(") in Hp; [congruence|apply pragma_has_open].
Qed.

(** *** [directives] *)

Lemma directives_cons (p : string) (c : ascii) (rest : string) :
  directives p (String c rest) =
  (if String.prefix p (String c rest)
   then [advance (String.length p) (String c rest)] else [])
  ++ directives p rest.
Proof. reflexivity. Qed.

(** Behind a marker the next directives are those of the text that
    follows it: the marker does not overlap itself. *)
Lemma directives_marker (post : string) :
  directives pragma_require (pragma_require ++ post) =
  post :: directives pragma_require post.
Proof.
  unfold pragma_require. cbn [append].
  rewrite !directives_cons, !prefix_cons.
  cbn [Ascii.eqb Bool.eqb andb app String.length advance].
  rewrite prefix_nil_l. reflexivity.
Qed.

Lemma directives_name (n rest : string) :
  has_char "(" n = false ->
  directives pragma_require (n ++ String ")" rest) = directives pragma_require rest.
Proof.
  induction n as [|x n IH]; intros Hn.
  - reflexivity.
  - cbn [append]. rewrite directives_cons.
    change (String x (n ++ String ")" rest)) with (String x n ++ String ")" rest)%string.
    rewrite (no_marker_in_name (String x n) rest Hn). cbn [app].
    apply IH. cbn [has_char] in Hn. apply orb_false_iff in Hn. tauto.
Qed.

Lemma directives_suffix (p pre h post : string) :
  In post (directives p h) -> In post (directives p (pre ++ h)).
Proof.
  induction pre as [|x pre IH]; intros H; [exact H|].
  cbn [append]. rewrite directives_cons. apply in_or_app. right. apply IH, H.
Qed.

Lemma directives_here (p h : string) :
  String.prefix p h = true -> In (advance (String.length p) h) (directives p h).
Proof.
  intros H. destruct h as [|c h]; cbn [directives]; rewrite H; left; reflexivity.
Qed.

(** *** [strstr] *)

Lemma strstr_Some (h p found : string) :
  strstr h p = Some found ->
  String.prefix p found = true /\ exists pre, h = (pre ++ found)%string.
Proof.
  induction h as [|c h IH]; rewrite strstr_unfold.
  - destruct (String.prefix p "") eqn:E; [|discriminate].
    intros [= <-]. split; [exact E|]. exists EmptyString. reflexivity.
  - destruct (String.prefix p (String c h)) eqn:E.
    + intros [= <-]. split; [exact E|]. exists EmptyString. reflexivity.
    + destruct (Ascii.eqb c NUL); [discriminate|].
      intros H. destruct (IH H) as [Hp [pre ->]].
      split; [exact Hp|]. exists (String c pre). reflexivity.
Qed.

(** In a text without NUL, [strstr] finds the first directive, and
    nothing when there is none. *)
Lemma strstr_directives (t : string) :
  has_char NUL t = false ->
  match strstr t pragma_require with
  | None => directives pragma_require t = []
  | Some found =>
    exists pre post, t = (pre ++ found)%string /\
      found = (pragma_require ++ post)%string /\
      directives pragma_require t = post :: directives pragma_require post
  end.
Proof.
  induction t as [|c t IH]; intros Hn.
  - reflexivity.
  - rewrite strstr_unfold. cbn [has_char] in Hn. apply orb_false_iff in Hn.
    destruct Hn as [Hc Hn].
    destruct (String.prefix pragma_require (String c t)) eqn:E.
    + destruct (prefix_split _ _ E) as [post Hpost].
      exists EmptyString, post. split; [reflexivity|]. split; [exact Hpost|].
      rewrite Hpost. apply directives_marker.
    + rewrite Hc, directives_cons, E. cbn [app]. specialize (IH Hn).
      destruct (strstr t pragma_require) as [found|].
      * destruct IH as (pre & post & -> & -> & Hd).
        exists (String c pre), post. split; [reflexivity|]. split; [reflexivity|].
        exact Hd.
      * exact IH.
Qed.

(** The terminator and what lies behind it do not change what [strstr]
    finds in a text. *)
Lemma prefix_region (p t b : string) :
  has_char NUL p = false ->
  String.prefix p (t ++ String NUL b) = String.prefix p t.
Proof.
  intros Hp. destruct (String.prefix p t) eqn:E.
  - apply prefix_app_r, E.
  - destruct (String.prefix p (t ++ String NUL b)) eqn:F; [|reflexivity].
    apply prefix_app_char in F. destruct F as [F|F]; congruence.
Qed.

Lemma strstr_region (p t b : string) :
  has_char NUL p = false -> has_char NUL t = false ->
  strstr (t ++ String NUL b) p =
  match strstr t p with
  | Some found => Some (found ++ String NUL b)%string
  | None => None
  end.
Proof.
  intros Hp. induction t as [|c t IH]; intros Ht.
  - cbn [append]. rewrite strstr_unfold.
    rewrite (strstr_unfold EmptyString).
    change (String NUL b) with (EmptyString ++ String NUL b)%string at 1.
    rewrite prefix_region by exact Hp.
    destruct (String.prefix p "") eqn:E; [reflexivity|].
    unfold NUL at 1. rewrite Ascii.eqb_refl. reflexivity.
  - cbn [append]. rewrite strstr_unfold, (strstr_unfold (String c t)).
    change (String c (t ++ String NUL b)) with (String c t ++ String NUL b)%string.
    rewrite prefix_region by exact Hp.
    cbn [has_char] in Ht. apply orb_false_iff in Ht. destruct Ht as [Hc Ht].
    destruct (String.prefix p (String c t)); [reflexivity|].
    rewrite Hc. apply IH, Ht.
Qed.

Lemma advance_app (n : nat) (a b : string) :
  n <= String.length a -> advance n (a ++ b) = (advance n a ++ b)%string.
Proof.
  revert a. induction n as [|n IH]; intros a H; [reflexivity|].
  destruct a as [|x a]; cbn [String.length] in H; [lia|].
  cbn [append advance]. apply IH. lia.
Qed.

Lemma advance_marker (post : string) :
  advance (String.length pragma_require) (pragma_require ++ post) = post.
Proof. reflexivity. Qed.

(** *** The copy loop on a directive in full *)

Lemma dbg_name_loop_closed (room : nat) (n tail : string) :
  has_char ")" n = false ->
  exists n1 n2,
    n = (n1 ++ n2)%string /\
    dbg_name_loop room (n ++ String ")" tail) = (n1, (n2 ++ String ")" tail)%string) /\
    n1 = String.substring 0 room n.
Proof.
  revert n. induction room as [|room IH]; intros n Hn.
  - exists EmptyString, n. split; [reflexivity|]. split.
    + destruct n; reflexivity.
    + destruct n; reflexivity.
  - destruct n as [|x n].
    + exists EmptyString, EmptyString. split; [reflexivity|]. split; reflexivity.
    + cbn [has_char] in Hn. apply orb_false_iff in Hn. destruct Hn as [Hx Hn].
      destruct (IH n Hn) as (n1 & n2 & E & Hd & Hs).
      exists (String x n1), n2. split; [cbn [append]; rewrite <- E; reflexivity|].
      split.
      * cbn [append dbg_name_loop]. rewrite Hx, Hd. reflexivity.
      * cbn [String.substring]. rewrite <- Hs. reflexivity.
Qed.

(** *** The scan of a well formed text

    The scan visits every directive of the text, in order, and nothing
    behind the terminator: a resolved directive sets its bit, an
    unresolved one is logged. *)

Section Scan.
Variable lib : DRWShaderLibrary.
Variable b : string.

Let unresolved (post : string) : bool :=
  (drw_shader_library_search lib (post ++ String NUL b) =? -1)%Z.

Lemma scan_well_formed (len : nat) :
  forall t d log,
    String.length t < len ->
    has_char NUL t = false ->
    Forall closed_directive (directives pragma_require t) ->
    let r := deps_loop (S (String.length (t ++ String NUL b))) lib pragma_require
               (t ++ String NUL b) d log in
    snd r = log ++ map logged_name (List.filter unresolved (directives pragma_require t)) /\
    forall k, has_bit (fst r) k <->
      has_bit d k \/
      exists post, In post (directives pragma_require t) /\
        drw_shader_library_search lib (post ++ String NUL b) = Z.of_nat k.
Proof.
  induction len as [|len IH]; intros t d log Hlen Hnul Hcl.
  - lia.
  - cbv zeta. rewrite deps_loop_unroll by (cbn; lia).
    rewrite strstr_region by (exact pragma_no_nul || exact Hnul).
    pose proof (strstr_directives t Hnul) as Hs.
    destruct (strstr t pragma_require) as [found|].
    2:{ rewrite Hs. cbn [List.filter map snd fst]. rewrite app_nil_r.
        split; [reflexivity|]. intros k. split; [auto|].
        intros [H|(post & [] & _)]. exact H. }
    destruct Hs as (pre & post0 & Ht & Hf & Hd). subst found.
    rewrite advance_app by (rewrite length_app_string; lia).
    rewrite advance_marker. cbv zeta.
    rewrite Hd in Hcl. apply List.Forall_cons_iff in Hcl. destruct Hcl as [Hc0 Hcl'].
    destruct Hc0 as (n & (Hopen & Hclose & Hnn) & rest & Hpost0).
    assert (Hlt : String.length post0 < String.length t).
    { rewrite Ht, !length_app_string. cbn. lia. }
    assert (Hnul0 : has_char NUL post0 = false).
    { rewrite Ht, !has_char_app in Hnul.
      apply orb_false_iff in Hnul. destruct Hnul as [_ Hnul].
      apply orb_false_iff in Hnul. tauto. }
    rewrite Hd. unfold unresolved in *. cbn [List.filter].
    destruct (Z.eqb_spec (drw_shader_library_search lib (post0 ++ String NUL b)) (-1))
      as [He|Hne].
    + (* unresolved: logged, and the scan goes on behind the name *)
      assert (Hreg : (post0 ++ String NUL b)%string =
                     (n ++ String ")" (rest ++ String NUL b))%string).
      { rewrite Hpost0, string_app_assoc. reflexivity. }
      rewrite Hreg.
      destruct (dbg_name_loop_closed (MAX_NAME - 2) n (rest ++ String NUL b)%string Hclose)
        as (n1 & n2 & Hn & Hdbg & Hn1).
      rewrite Hdbg.
      set (t2 := (n2 ++ String ")" rest)%string).
      replace (n2 ++ String ")" (rest ++ String NUL b))%string
        with (t2 ++ String NUL b)%string
        by (unfold t2; rewrite string_app_assoc; reflexivity).
      assert (Hn2 : has_char "(" n2 = false /\ has_char NUL n1 = false).
      { rewrite Hn, has_char_app in Hopen. rewrite Hn, has_char_app in Hnn.
        apply orb_false_iff in Hopen, Hnn. tauto. }
      assert (Hd2 : directives pragma_require t2 = directives pragma_require post0).
      { unfold t2. rewrite directives_name by tauto.
        rewrite Hpost0, directives_name by exact Hopen. reflexivity. }
      destruct (IH t2 d (log ++ [cstr n1])) as [L B].
      * assert (String.length t2 <= String.length post0); [|lia].
        unfold t2. rewrite Hpost0, Hn, !length_app_string. lia.
      * unfold t2. rewrite Hpost0, Hn, !has_char_app in Hnul0.
        rewrite has_char_app.
        apply orb_false_iff in Hnul0. destruct Hnul0 as [Hnul0 Hr].
        apply orb_false_iff in Hnul0. destruct Hnul0 as [_ Hnul0].
        rewrite Hnul0. exact Hr.
      * rewrite Hd2. exact Hcl'.
      * cbv zeta in L, B. split.
        -- rewrite L, Hd2, <- app_assoc. cbn [map app]. f_equal. f_equal.
           rewrite cstr_plain by tauto. unfold logged_name.
           rewrite Hpost0, name_of_closed by exact Hclose. exact Hn1.
        -- intros k. rewrite B, Hd2. split.
           ++ intros [H|(post & Hin & Hk)]; [auto|]. right. exists post.
              split; [right; exact Hin|exact Hk].
           ++ intros [H|(post & [<-|Hin] & Hk)]; [auto| |].
              ** rewrite He in Hk. lia.
              ** right. exists post. auto.
    + (* resolved: the bit is set, and the scan goes on behind the marker *)
      destruct (search_range lib _ Hne) as (k0 & Hk0 & Hk0lt & _).
      destruct (IH post0 (Z.lor d (bit64 (drw_shader_library_search lib
                                             (post0 ++ String NUL b))))  log)
        as [L B]; [lia|exact Hnul0|exact Hcl'|].
      cbv zeta in L, B. split; [exact L|].
      intros k. rewrite B, Hk0, bit64_small, has_bit_lor, has_bit_pow2 by exact Hk0lt.
      split.
      * intros [[H| ->]|(post & Hin & Hk)]; [auto| |].
        -- right. exists post0. split; [left; reflexivity|exact Hk0].
        -- right. exists post. split; [right; exact Hin|exact Hk].
      * intros [H|(post & [<-|Hin] & Hk)]; [auto| |].
        -- left. right. rewrite Hk0 in Hk. apply Nat2Z.inj in Hk. auto.
        -- right. exists post. auto.
Qed.

End Scan.

Lemma deps_get_well_formed behind lib text :
  well_formed text ->
  let r := drw_shader_dependencies_get behind lib pragma_require text in
  snd r = map logged_name
            (List.filter
               (fun post => (drw_shader_library_search lib
                               (post ++ String NUL (behind text)) =? -1)%Z)
               (directives pragma_require text)) /\
  forall k, has_bit (fst r) k <->
    exists post, In post (directives pragma_require text) /\
      drw_shader_library_search lib (post ++ String NUL (behind text)) = Z.of_nat k.
Proof.
  intros [Hnul Hcl]. unfold drw_shader_dependencies_get, region.
  destruct (scan_well_formed lib (behind text) (S (String.length text)) text 0%Z []
              ltac:(lia) Hnul Hcl) as [L B].
  cbv zeta in *. split; [exact L|].
  intros k. rewrite B. split; [|auto].
  intros [H|H]; [destruct (has_bit_0 _ H)|exact H].
Qed.

(** *** Resolution of a name *)

Lemma search_first_prefix lib post k :
  drw_shader_library_search lib post = Z.of_nat k <-> first_prefix lib post k.
Proof.
  unfold drw_shader_library_search, first_prefix. split.
  - intros H.
    destruct (search_loop_found lib post MAX_LIB 0 _ H ltac:(lia))
      as (k' & Hk & Hr & Hocc & Hp & Hlow).
    apply Nat2Z.inj in Hk. subst k'.
    split; [lia|]. split; [|split; [exact Hp|]].
    + intros m Hm. destruct (decide (m = k)) as [->|]; [exact Hocc|].
      apply Hlow. lia.
    + intros m Hm. apply Hlow. lia.
  - intros (Hk & Hocc & Hp & Hlow).
    apply search_loop_intro; [lia| |exact Hp|].
    + intros m Hm. apply Hocc. lia.
    + intros m Hm. apply Hlow. lia.
Qed.

Lemma search_no_prefix lib post :
  drw_shader_library_search lib post = (-1)%Z <-> no_prefix lib post.
Proof.
  split.
  - intros H k Hk Hocc. unfold drw_shader_library_search in H.
    apply (search_loop_none lib post MAX_LIB 0 H k); [lia|].
    intros m Hm. apply Hocc. lia.
  - intros H.
    destruct (Z.eq_dec (drw_shader_library_search lib post) (-1)%Z) as [E|E]; [exact E|].
    destruct (search_range lib post E) as (k & Hk & _).
    apply search_first_prefix in Hk. destruct Hk as (Hlt & Hocc & Hp & _).
    rewrite (H k Hlt Hocc) in Hp. discriminate.
Qed.

Section Resolve.
Variable lib : DRWShaderLibrary.
Variable names : list string.
Hypothesis Hreg : registered lib names.
Hypothesis Hnames : distinct_names names.

Lemma registered_name m n :
  nth_error names m = Some n -> lib_at lib m <> None /\ name_at lib m = n.
Proof.
  intros H. destruct Hreg as [_ Hr].
  assert (Hm : m < length names) by (apply nth_error_Some; congruence).
  destruct (proj1 (Hr m) Hm) as [Hocc Hname]. split; [exact Hocc|].
  rewrite Hname. apply nth_error_nth, H.
Qed.

Lemma registered_slot m :
  lib_at lib m <> None -> exists n, nth_error names m = Some n /\ name_at lib m = n.
Proof.
  intros Hocc. destruct Hreg as [_ Hr].
  destruct (Nat.lt_ge_cases m (length names)) as [Hm|Hm].
  - destruct (nth_error names m) as [n|] eqn:E.
    + exists n. split; [reflexivity|]. apply (registered_name m n E).
    + apply nth_error_None in E. lia.
  - destruct Hocc. apply (proj2 (Hr m) Hm).
Qed.

(** A directive that carries a registered name resolves to its slot. *)
Lemma resolve_registered k n rest :
  nth_error names k = Some n ->
  drw_shader_library_search lib (n ++ String ")" rest) = Z.of_nat k.
Proof.
  intros Hk. apply search_first_prefix.
  assert (Hlt : k < length names) by (apply nth_error_Some; congruence).
  destruct Hreg as [Hlen Hr]. destruct Hnames as [Hplain Hfree].
  split; [lia|]. split; [|split].
  - intros m Hm. apply (proj1 (Hr m)). lia.
  - destruct (registered_name k n Hk) as [_ ->]. apply prefix_app.
  - intros m Hm.
    destruct (nth_error names m) as [nm|] eqn:Em.
    2:{ apply nth_error_None in Em. lia. }
    destruct (registered_name m nm Em) as [_ ->].
    rewrite prefix_name by (apply Hplain, (nth_error_In _ _ Em)).
    apply (Hfree m k nm n Em Hk). lia.
Qed.

(** A directive resolves to a slot only when the name stored there is a
    prefix of the name it carries. *)
Lemma resolve_prefix k n rest :
  drw_shader_library_search lib (n ++ String ")" rest) = Z.of_nat k ->
  exists nk, nth_error names k = Some nk /\ String.prefix nk n = true.
Proof.
  intros H. apply search_first_prefix in H. destruct H as (_ & Hocc & Hp & _).
  destruct (registered_slot k (Hocc k (le_n k))) as (nk & Hk & Hname).
  exists nk. split; [exact Hk|]. rewrite Hname in Hp.
  rewrite prefix_name in Hp; [exact Hp|].
  apply (proj1 Hnames), (nth_error_In _ _ Hk).
Qed.

(** A directive whose name no registered name is a prefix of resolves to
    nothing. *)
Lemma resolve_none n rest :
  (forall m, In m names -> String.prefix m n = false) ->
  drw_shader_library_search lib (n ++ String ")" rest) = (-1)%Z.
Proof.
  intros H. apply search_no_prefix. intros k Hk Hocc.
  destruct (registered_slot k (Hocc k (le_n k))) as (nk & Hnk & ->).
  rewrite prefix_name by (apply (proj1 Hnames), (nth_error_In _ _ Hnk)).
  apply H, (nth_error_In _ _ Hnk).
Qed.

End Resolve.

(** *** A library built from well named files *)

Lemma BLI_strncpy_short (s : string) :
  String.length s < MAX_LIB_NAME -> BLI_strncpy s MAX_LIB_NAME = s.
Proof. intros H. unfold BLI_strncpy. apply substring_all. lia. Qed.

Lemma names_of_nth files m :
  nth m (names_of files) EmptyString = snd (nth m files (EmptyString, EmptyString)).
Proof. unfold names_of. apply (map_nth snd files (EmptyString, EmptyString)). Qed.

Lemma names_of_nth_error files k n :
  nth_error (names_of files) k = Some n <->
  exists c, nth_error files k = Some (c, n).
Proof.
  unfold names_of. rewrite nth_error_map.
  destruct (nth_error files k) as [[c n']|]; cbn; split.
  - intros [= <-]. exists c. reflexivity.
  - intros [c' [= <- <-]]. reflexivity.
  - discriminate.
  - intros [c' H]. discriminate.
Qed.

Lemma well_named_distinct files : well_named files -> distinct_names (names_of files).
Proof.
  intros [_ Hp Hf]. split; [|exact Hf]. intros n Hn. apply (Hp n Hn).
Qed.

Lemma well_named_snoc files f : well_named (files ++ [f]) -> well_named files.
Proof.
  intros [Hc Hp Hf]. rewrite length_app in Hc. cbn in Hc.
  unfold names_of in *. rewrite map_app in Hp, Hf.
  split.
  - lia.
  - intros n Hn. apply Hp, in_or_app. left. exact Hn.
  - intros i j ni nj Hi Hj Hne. unfold names_of in Hi, Hj.
    apply (Hf i j ni nj); [| |exact Hne].
    + rewrite nth_error_app1; [exact Hi|]. apply nth_error_Some. congruence.
    + rewrite nth_error_app1; [exact Hj|]. apply nth_error_Some. congruence.
Qed.

Lemma dependency_order_snoc files f :
  dependency_order (files ++ [f]) -> dependency_order files.
Proof.
  intros H j code name Hj.
  assert (Hlt : j < length files) by (apply nth_error_Some; congruence).
  destruct (H j code name) as [Hn Hd].
  { rewrite nth_error_app1 by exact Hlt. exact Hj. }
  split; [exact Hn|]. rewrite List.Forall_forall in *. intros post Hpost.
  destruct (Hd post Hpost) as (i & n & Hi & Hni & Hs).
  exists i, n. split; [exact Hi|]. split; [|exact Hs].
  unfold names_of in *. rewrite map_app, nth_error_app1 in Hni; [exact Hni|].
  rewrite length_map. lia.
Qed.

Section Built.
Variable behind : string -> string.

Lemma build_registered files :
  well_named files -> registered (build behind files) (names_of files).
Proof.
  intros [Hc Hp Hf]. unfold registered, names_of. rewrite length_map.
  split; [exact Hc|]. intros m.
  destruct (build_slots behind files m) as [Hl Hn].
  replace (Nat.min (length files) MAX_LIB) with (length files) in * by lia.
  split; intros Hm.
  - rewrite Hl. replace (m <? length files) with true
      by (symmetry; apply Nat.ltb_lt; exact Hm).
    split; [discriminate|]. rewrite (Hn Hm).
    fold (names_of files). rewrite names_of_nth.
    apply BLI_strncpy_short. apply Hp. unfold names_of.
    apply in_map, nth_In, Hm.
  - rewrite Hl. replace (m <? length files) with false
      by (symmetry; apply Nat.ltb_ge; exact Hm).
    reflexivity.
Qed.

Lemma build_code files k c n :
  (length files <= MAX_LIB) -> nth_error files k = Some (c, n) ->
  lib_at (build behind files) k = Some c.
Proof.
  intros Hc Hk.
  assert (Hlt : k < length files) by (apply nth_error_Some; congruence).
  rewrite (proj1 (build_slots behind files k)).
  replace (k <? Nat.min (length files) MAX_LIB) with true
    by (symmetry; apply Nat.ltb_lt; lia).
  rewrite (nth_error_nth _ _ _ Hk). reflexivity.
Qed.

Lemma build_source files k :
  (length files <= MAX_LIB) ->
  source_at (build behind files) k = fst (nth k files (EmptyString, EmptyString)).
Proof.
  intros Hc. unfold source_at. rewrite (proj1 (build_slots behind files k)).
  replace (Nat.min (length files) MAX_LIB) with (length files) by lia.
  destruct (Nat.ltb_spec k (length files)) as [H|H]; [reflexivity|].
  rewrite nth_overflow by exact H. reflexivity.
Qed.

(** The library while the new fragment is scanned: its code and its name
    are stored already. *)
Lemma stored_registered files c n :
  well_named (files ++ [(c, n)]) ->
  registered (stored (build behind files) (length files) c n)
             (names_of (files ++ [(c, n)])).
Proof.
  intros Hw. pose proof (well_named_snoc _ _ Hw) as Hw0.
  pose proof (build_registered files Hw0) as [_ Hr].
  pose proof (build_inv behind files) as Hinv.
  destruct Hw as [Hc Hp _]. rewrite length_app in Hc. cbn in Hc.
  unfold registered, names_of in *. rewrite length_map in *.
  rewrite map_app, length_app. cbn [map length].
  split; [lia|]. intros m. unfold lib_at, name_at. cbn [libs libs_name stored].
  destruct (decide (m = length files)) as [->|Hne].
  - rewrite !nth_insert_eq
      by (rewrite ?(inv_len_libs _ Hinv), ?(inv_len_name _ Hinv); lia).
    split; [|lia]. intros _. split; [discriminate|].
    rewrite app_nth2 by (rewrite length_map; lia).
    rewrite length_map, Nat.sub_diag. cbn [nth].
    apply BLI_strncpy_short. apply Hp. rewrite map_app. apply in_or_app.
    right. left. reflexivity.
  - rewrite !nth_insert_ne by congruence.
    fold (lib_at (build behind files) m) (name_at (build behind files) m).
    destruct (Hr m) as [H1 H2]. split; intros Hm.
    + destruct (H1 ltac:(lia)) as [Hocc Hname]. split; [exact Hocc|].
      rewrite Hname. rewrite app_nth1 by (rewrite length_map; lia). reflexivity.
    + apply H2. lia.
Qed.

Lemma next_slot_build files :
  length files < MAX_LIB -> well_named files ->
  next_slot (build behind files) (length files) = true.
Proof.
  intros Hlt Hw. destruct (build_registered files Hw) as [_ Hr].
  unfold names_of in Hr. rewrite length_map in Hr.
  unfold next_slot. apply Z.eqb_eq. apply free_slot_loop_intro; [lia| |].
  - apply (proj2 (Hr (length files))). lia.
  - intros m Hm. apply (proj1 (Hr m)). lia.
Qed.

(** The mask stored for a fragment has the bits of the fragments that its
    code names, and no other. *)
Lemma build_masks files :
  well_named files -> dependency_order files ->
  forall j c n, nth_error files j = Some (c, n) ->
  forall i, has_bit (deps_at (build behind files) j) i <->
    exists ni, nth_error (names_of files) i = Some ni /\ names_fragment c ni.
Proof.
  induction files as [|f files IH] using rev_ind; intros Hw Hdep j c n Hj i.
  - destruct j; discriminate.
  - pose proof (well_named_snoc _ _ Hw) as Hw0.
    pose proof (dependency_order_snoc _ _ Hdep) as Hdep0.
    assert (Hlen : length files < MAX_LIB).
    { destruct Hw as [Hc _ _]. rewrite length_app in Hc. cbn in Hc. lia. }
    pose proof (build_inv behind files) as Hinv.
    pose proof (next_slot_build files Hlen Hw0) as Hnext.
    unfold build. rewrite add_files_snoc. fold (build behind files).
    destruct (add_file_at behind (build behind files) (fst f) (snd f) (length files) Hnext)
      as (_ & Hfree & Heq).
    cbv zeta in Heq. rewrite Heq. cbn [lib_after]. unfold deps_at. cbn [libs_deps].
    destruct (Nat.lt_ge_cases j (length files)) as [Hjl|Hjl].
    + (* an earlier fragment: its mask is kept *)
      rewrite nth_insert_ne by lia. fold (deps_at (build behind files) j).
      rewrite nth_error_app1 in Hj by exact Hjl.
      rewrite (IH Hw0 Hdep0 j c n Hj i).
      split; intros (ni & Hni & Hnf); exists ni; (split; [|exact Hnf]).
      * unfold names_of in *. rewrite map_app, nth_error_app1; [exact Hni|].
        apply nth_error_Some. congruence.
      * destruct (Hdep0 j c n Hj) as [_ Hd]. rewrite List.Forall_forall in Hd.
        destruct Hnf as (post & Hpost & Hs).
        destruct (Hd post Hpost) as (i' & n' & Hi' & Hn' & Hs').
        destruct Hs as [r1 E1], Hs' as [r2 E2].
        assert (ni = n').
        { apply (name_unique ni n' r1 r2).
          - apply (wn_plain _ Hw), (nth_error_In _ _ Hni).
          - apply (wn_plain _ Hw0), (nth_error_In _ _ Hn').
          - congruence. }
        subst n'.
        destruct (decide (i = i')) as [->|Hne]; [exact Hn'|].
        exfalso.
        assert (Hn'' : nth_error (names_of (files ++ [f])) i' = Some ni).
        { unfold names_of in *. rewrite map_app, nth_error_app1; [exact Hn'|].
          apply nth_error_Some. congruence. }
        pose proof (wn_free _ Hw i i' ni ni Hni Hn'' Hne) as Hp.
        assert (String.prefix ni ni = true).
        { rewrite <- (string_app_nil_r ni) at 2. apply prefix_app. }
        congruence.
    + (* the new fragment: its mask comes from the scan *)
      assert (j = length files) as ->.
      { assert (j < length (files ++ [f])) by (apply nth_error_Some; congruence).
        rewrite length_app in H. cbn in H. lia. }
      rewrite nth_error_app2, Nat.sub_diag in Hj by lia. cbn in Hj.
      injection Hj as ->. cbn [fst snd].
      rewrite nth_insert_eq by (rewrite (inv_len_deps _ Hinv); exact Hlen).
      set (lib1 := stored (build behind files) (length files) c n).
      pose proof (stored_registered files c n Hw) as Hreg1.
      pose proof (well_named_distinct _ Hw) as Hdist.
      destruct (Hdep (length files) c n) as [Hnul Hd].
      { rewrite nth_error_app2, Nat.sub_diag by lia. reflexivity. }
      rewrite List.Forall_forall in Hd.
      assert (Hwf : well_formed c).
      { split; [exact Hnul|]. apply List.Forall_forall. intros post Hpost.
        destruct (Hd post Hpost) as (i' & n' & _ & Hn' & Hs).
        exists n'. split; [|exact Hs].
        apply (wn_plain _ Hw), (nth_error_In _ _ Hn'). }
      destruct (deps_get_well_formed behind lib1 c Hwf) as [_ B]. cbv zeta in B.
      rewrite B. split.
      * intros (post & Hpost & Hsearch).
        destruct (Hd post Hpost) as (i' & n' & _ & Hn' & [r E]).
        rewrite E, string_app_assoc in Hsearch. cbn [append] in Hsearch.
        rewrite (resolve_registered lib1 _ Hreg1 Hdist i' n' _ Hn') in Hsearch.
        apply Nat2Z.inj in Hsearch. subst i'.
        exists n'. split; [exact Hn'|]. exists post. split; [exact Hpost|].
        exists r. exact E.
      * intros (ni & Hni & post & Hpost & [r E]).
        exists post. split; [exact Hpost|].
        rewrite E, string_app_assoc. cbn [append].
        apply (resolve_registered lib1 _ Hreg1 Hdist i ni _ Hni).
Qed.

End Built.

(** *** Expansion, against the texts *)

Section Expand.
Variable behind : string -> string.
Variable files : list (string * string).
Hypothesis Hw : well_named files.
Hypothesis Hdep : dependency_order files.

Lemma source_well_formed source : source_directives files source -> well_formed source.
Proof.
  intros [Hnul Hd]. split; [exact Hnul|].
  rewrite List.Forall_forall in *. intros post Hpost.
  destruct (Hd post Hpost) as (n & Hp & Hs & _). exists n. auto.
Qed.

(** The direct dependencies of a source are the fragments it names. *)
Lemma direct_bits source k :
  source_directives files source ->
  has_bit (fst (drw_shader_dependencies_get behind (build behind files)
                  pragma_require source)) k <->
  exists nk, nth_error (names_of files) k = Some nk /\ names_fragment source nk.
Proof.
  intros Hs. pose proof (source_well_formed source Hs) as Hwf.
  destruct (deps_get_well_formed behind (build behind files) source Hwf) as [_ B].
  cbv zeta in B. rewrite B. clear B.
  pose proof (build_registered behind files Hw) as Hreg.
  pose proof (well_named_distinct files Hw) as Hdist.
  destruct Hs as [_ Hd]. rewrite List.Forall_forall in Hd. split.
  - intros (post & Hpost & Hsearch).
    destruct (Hd post Hpost) as (n & Hp & [r E] & Hex).
    rewrite E, string_app_assoc in Hsearch. cbn [append] in Hsearch.
    destruct (resolve_prefix _ _ Hreg Hdist k n _ Hsearch) as (nk & Hnk & Hpre).
    assert (nk = n) by (apply Hex; [apply (nth_error_In _ _ Hnk)|exact Hpre]).
    subst nk. exists n. split; [exact Hnk|]. exists post. split; [exact Hpost|].
    exists r. exact E.
  - intros (nk & Hnk & post & Hpost & [r E]).
    exists post. split; [exact Hpost|].
    rewrite E, string_app_assoc. cbn [append].
    apply (resolve_registered _ _ Hreg Hdist k nk _ Hnk).
Qed.

Lemma required_spec source k :
  source_directives files source ->
  required (build behind files)
    (fst (drw_shader_dependencies_get behind (build behind files) pragma_require source)) k
  <-> spec_required files source k.
Proof.
  intros Hs. pose proof (build_registered behind files Hw) as Hreg.
  pose proof (well_named_distinct files Hw) as Hdist.
  split.
  - induction 1 as [k Hk|i k _ IH Hocc Hk].
    + apply (direct_bits source k Hs) in Hk. destruct Hk as (nk & Hnk & Hnf).
      apply names_of_nth_error in Hnk. destruct Hnk as [c Hc].
      apply (spec_required_direct files source k c nk Hc Hnf).
    + destruct (registered_slot _ _ Hreg i Hocc) as (ni & Hni & _).
      apply names_of_nth_error in Hni. destruct Hni as [ci Hci].
      apply (build_masks behind files Hw Hdep i ci ni Hci k) in Hk.
      destruct Hk as (nk & Hnk & Hnf).
      apply names_of_nth_error in Hnk. destruct Hnk as [ck Hck].
      apply (spec_required_via files source i k ci ni ck nk IH Hci Hck Hnf).
  - induction 1 as [k c n Hk Hnf|i k ci ni ck nk _ IH Hci Hck Hnf].
    + apply required_direct. apply (direct_bits source k Hs).
      exists n. split; [|exact Hnf]. apply names_of_nth_error. exists c. exact Hk.
    + apply (required_via _ _ i k IH).
      * rewrite (build_code behind files i ci ni (wn_count _ Hw) Hci). discriminate.
      * apply (build_masks behind files Hw Hdep i ci ni Hci k).
        exists nk. split; [|exact Hnf]. apply names_of_nth_error. exists ck. exact Hck.
Qed.

Lemma concat_sources_texts idx :
  concat_sources (build behind files) idx = concat_texts files idx.
Proof.
  induction idx as [|k idx IH]; [reflexivity|].
  cbn [concat_sources concat_texts fold_right].
  fold (concat_sources (build behind files) idx). fold (concat_texts files idx).
  rewrite IH, (build_source behind files k (wn_count _ Hw)). reflexivity.
Qed.

(** Expansion gives the codes of the required fragments, in the order of
    their registration and each once, and the source behind them. *)
Lemma expand_spec source :
  source_directives files source ->
  exists idx : list nat,
    StronglySorted lt idx /\
    (forall k, In k idx <-> spec_required files source k) /\
    DRW_shader_library_create_shader_string behind (build behind files) source =
      Some (concat_texts files idx ++ source)%string.
Proof.
  intros Hs. set (lib := build behind files).
  set (d0 := fst (drw_shader_dependencies_get behind lib pragma_require source)).
  set (closed := closure_loop lib MAX_LIB d0).
  pose proof (build_inv behind files : lib_inv lib) as Hinv.
  assert (Hbound : forall i, lib_at lib i <> None -> i < MAX_LIB).
  { intros i. apply lib_at_range, (inv_len_libs _ Hinv). }
  assert (Hspec : forall j, has_bit closed j <-> spec_required files source j).
  { intros j. unfold closed. rewrite closure_loop_spec.
    - apply (required_spec source j Hs).
    - intros i k _ H. apply (inv_deps _ Hinv) in H. tauto.
    - exact Hbound. }
  assert (Hocc : forall j, spec_required files source j -> lib_at lib j <> None).
  { intros j Hj. unfold lib.
    destruct Hj as [k c n Hk _|i k ci ni ck nk _ _ Hck _];
      erewrite build_code by (try apply (wn_count _ Hw); eassumption); discriminate. }
  assert (Hidx : forall i, In i (set_bits MAX_LIB 0 closed) <-> spec_required files source i).
  { intros i. rewrite set_bits_In, Nat.sub_0_r, Hspec. split; [tauto|].
    intros H. split; [|exact H]. apply Hocc, Hbound in H. lia. }
  exists (set_bits MAX_LIB 0 closed). split; [|split].
  - apply set_bits_sorted.
  - exact Hidx.
  - unfold DRW_shader_library_create_shader_string. fold lib. fold d0. fold closed.
    rewrite concat_loop_spec.
    + unfold lib. rewrite concat_sources_texts. reflexivity.
    + intros k Hk. apply Hocc. apply (proj1 (Hidx k)). exact Hk.
Qed.

End Expand.

(** *** What the scan can reach, whatever the text *)

Lemma advance_suffix (n : nat) (s : string) :
  exists pre, s = (pre ++ advance n s)%string.
Proof.
  revert s. induction n as [|n IH]; intros s.
  - exists EmptyString. reflexivity.
  - destruct s as [|c s]; [exists EmptyString; reflexivity|].
    destruct (IH s) as [pre E]. exists (String c pre).
    cbn [advance append]. rewrite <- E. reflexivity.
Qed.

Lemma dbg_name_loop_suffix (room : nat) (h : string) :
  exists pre, h = (pre ++ snd (dbg_name_loop room h))%string.
Proof.
  revert h. induction room as [|room IH]; intros h.
  - exists EmptyString. destruct h; reflexivity.
  - destruct h as [|c h]; [exists EmptyString; reflexivity|].
    cbn [dbg_name_loop]. destruct (Ascii.eqb c ")").
    + exists EmptyString. reflexivity.
    + destruct (IH h) as [pre E]. destruct (dbg_name_loop room h) as [dbg h'].
      exists (String c pre). cbn [snd append] in *. rewrite <- E. reflexivity.
Qed.

(** Every bit of the result was set before, or is the slot that a
    directive in the memory scanned resolves to. *)
Lemma deps_loop_sound fuel lib p h d log k :
  has_bit (fst (deps_loop fuel lib p h d log)) k ->
  has_bit d k \/
  exists post, In post (directives p h) /\
    drw_shader_library_search lib post = Z.of_nat k.
Proof.
  revert h d log. induction fuel as [|fuel IH]; intros h d log; [auto|].
  rewrite deps_loop_S. destruct (strstr h p) as [found|] eqn:Hs; [|auto].
  apply strstr_Some in Hs. destruct Hs as [Hp [pre Hh]].
  cbv zeta. set (h1 := advance (String.length p) found).
  assert (Hin1 : In h1 (directives p h)).
  { rewrite Hh. apply directives_suffix, directives_here, Hp. }
  destruct (advance_suffix (String.length p) found) as [pre1 E1]. fold h1 in E1.
  destruct (Z.eqb_spec (drw_shader_library_search lib h1) (-1)%Z) as [He|Hne].
  - destruct (dbg_name_loop_suffix (MAX_NAME - 2) h1) as [pre2 E2].
    destruct (dbg_name_loop (MAX_NAME - 2) h1) as [dbg h2]. cbn [snd] in E2.
    intros H. apply IH in H. destruct H as [H|(post & Hin & Hk)]; [auto|].
    right. exists post. split; [|exact Hk].
    rewrite Hh, E1, E2. apply directives_suffix, directives_suffix, directives_suffix, Hin.
  - intros H. apply IH in H. destruct H as [H|(post & Hin & Hk)].
    + destruct (search_range lib h1 Hne) as (k0 & Hk0 & Hlt & _).
      rewrite Hk0, bit64_small in H by exact Hlt.
      apply has_bit_lor in H. destruct H as [H|H]; [auto|].
      apply has_bit_pow2 in H. subst k0. right. exists h1. auto.
    + right. exists post. split; [|exact Hk].
      rewrite Hh, E1. apply directives_suffix, directives_suffix, Hin.
Qed.

Lemma deps_get_sound behind lib p code k :
  has_bit (fst (drw_shader_dependencies_get behind lib p code)) k ->
  exists post, In post (directives p (region behind code)) /\
    drw_shader_library_search lib post = Z.of_nat k.
Proof.
  intros H. apply deps_loop_sound in H. destruct H as [H|H]; [|exact H].
  destruct (has_bit_0 _ H).
Qed.

(** What lies behind a directive in full does not matter to a registry
    whose names have no closing parenthesis. *)
Lemma first_prefix_region lib n rest tail k :
  (forall m, lib_at lib m <> None -> has_char ")" (name_at lib m) = false) ->
  first_prefix lib (n ++ String ")" rest ++ tail) k <->
  first_prefix lib (n ++ String ")" rest) k.
Proof.
  intros Hnames. unfold first_prefix.
  change (n ++ String ")" rest ++ tail)%string with (n ++ String ")" (rest ++ tail))%string.
  split; intros (Hk & Hocc & Hp & Hlow); (split; [exact Hk|]); (split; [exact Hocc|]).
  - split.
    + rewrite prefix_name in Hp by (apply Hnames, Hocc; lia).
      rewrite prefix_name by (apply Hnames, Hocc; lia). exact Hp.
    + intros m Hm. specialize (Hlow m Hm).
      rewrite prefix_name in Hlow by (apply Hnames, Hocc; lia).
      rewrite prefix_name by (apply Hnames, Hocc; lia). exact Hlow.
  - split.
    + rewrite prefix_name in Hp by (apply Hnames, Hocc; lia).
      rewrite prefix_name by (apply Hnames, Hocc; lia). exact Hp.
    + intros m Hm. specialize (Hlow m Hm).
      rewrite prefix_name in Hlow by (apply Hnames, Hocc; lia).
      rewrite prefix_name by (apply Hnames, Hocc; lia). exact Hlow.
Qed.

(** Expansion on a library that registrations built: it succeeds, and
    what it puts in front of the source are required fragments, in the
    order of their slots. *)
Lemma expand_built behind lib source :
  lib_inv lib ->
  let d0 := fst (drw_shader_dependencies_get behind lib pragma_require source) in
  exists idx : list nat,
    StronglySorted lt idx /\
    (forall k, In k idx <-> required lib d0 k) /\
    DRW_shader_library_create_shader_string behind lib source =
      Some (concat_sources lib idx ++ source)%string.
Proof.
  intros Hinv d0. set (closed := closure_loop lib MAX_LIB d0).
  assert (Hbound : forall i, lib_at lib i <> None -> i < MAX_LIB).
  { intros i. apply lib_at_range, (inv_len_libs _ Hinv). }
  assert (Hspec : forall j, has_bit closed j <-> required lib d0 j).
  { intros j. apply closure_loop_spec.
    - intros i k _ H. apply (inv_deps _ Hinv) in H. tauto.
    - exact Hbound. }
  assert (Hd0 : forall k, has_bit d0 k -> lib_at lib k <> None).
  { intros k Hk. apply deps_loop_bits in Hk. destruct Hk as [Hk|Hk]; [|apply Hk].
    destruct (has_bit_0 _ Hk). }
  assert (Hreg : forall j, required lib d0 j -> lib_at lib j <> None).
  { induction 1 as [j Hj|i j _ IH Hocc Hj]; [auto|].
    apply (inv_prefix _ Hinv i j); [|exact Hocc].
    apply (inv_deps _ Hinv) in Hj. tauto. }
  assert (Hidx : forall i, In i (set_bits MAX_LIB 0 closed) <-> required lib d0 i).
  { intros i. rewrite set_bits_In, Nat.sub_0_r, Hspec. split; [tauto|].
    intros H. split; [|exact H]. apply Hreg, Hbound in H. lia. }
  exists (set_bits MAX_LIB 0 closed). split; [|split].
  - apply set_bits_sorted.
  - exact Hidx.
  - unfold DRW_shader_library_create_shader_string. fold d0. fold closed.
    rewrite concat_loop_spec.
    + reflexivity.
    + intros k Hk. apply Hreg. apply (proj1 (Hidx k)). exact Hk.
Qed.

(** *** Nothing to include *)

Lemma strstr_None_region (p t b : string) :
  has_char NUL p = false ->
  strstr t p = None -> strstr (t ++ String NUL b) p = None.
Proof.
  intros Hp. induction t as [|c t IH]; rewrite strstr_unfold; intros H.
  - destruct (String.prefix p "") eqn:E; [discriminate|].
    cbn [append]. rewrite strstr_unfold.
    change (String NUL b) with (EmptyString ++ String NUL b)%string at 1.
    rewrite prefix_region, E by exact Hp.
    unfold NUL at 1. rewrite Ascii.eqb_refl. reflexivity.
  - destruct (String.prefix p (String c t)) eqn:E; [discriminate|].
    cbn [append]. rewrite strstr_unfold.
    change (String c (t ++ String NUL b)) with (String c t ++ String NUL b)%string.
    rewrite prefix_region, E by exact Hp.
    destruct (Ascii.eqb c NUL); [reflexivity|]. apply IH, H.
Qed.

Lemma expand_plain behind lib code :
  strstr code pragma_require = None ->
  DRW_shader_library_create_shader_string behind lib code = Some code.
Proof.
  intros Hs.
  unfold DRW_shader_library_create_shader_string, drw_shader_dependencies_get, region.
  rewrite deps_loop_S, (strstr_None_region _ _ _ pragma_no_nul Hs).
  cbn [fst]. rewrite closure_loop_zero. reflexivity.
Qed.

Lemma expand_empty behind code :
  DRW_shader_library_create_shader_string behind DRW_shader_library_create code = Some code.
Proof.
  unfold DRW_shader_library_create_shader_string, drw_shader_dependencies_get.
  rewrite deps_loop_unresolved by (intros name; reflexivity).
  rewrite closure_loop_zero. reflexivity.
Qed.

End ShaderLibTextFacts.

(** ** The shader library: what registration and expansion guarantee *)

Module ShaderLibClaims.
Import CStr CStrFacts ShaderLib ShaderLibSpec ShaderLibFacts ShaderLibMoreFacts.
Import ShaderLibTextFacts.

Lemma sorted_NoDup (idx : list nat) : StronglySorted lt idx -> List.NoDup idx.
Proof.
  induction 1 as [|k idx _ IH Hk]; constructor; [|exact IH].
  intros Hin. rewrite List.Forall_forall in Hk. specialize (Hk k Hin). lia.
Qed.

Lemma spec_required_registered files source k :
  spec_required files source k -> (k < length files)%nat.
Proof.
  intros [j c n Hj _|i j ci ni cj nj _ _ Hj _]; apply nth_error_Some; congruence.
Qed.



Example expand_scenario_A_B :
  DRW_shader_library_create_shader_string nothing_behind
    (build nothing_behind [("a;", "A"); ("BLENDER_REQUIRE(A) b;", "B")]%string)
    "BLENDER_REQUIRE(B) main;"
  = Some "a;BLENDER_REQUIRE(A) b;BLENDER_REQUIRE(B) main;"%string.
Proof. vm_compute. reflexivity. Qed.


(** The other conditions are needed as well. The registry has [MAX_LIB]
    slots: the sixty-fifth file is not registered, and a source that
    requires it gets nothing. *)
Example expand_misses_the_file_behind_the_last_slot :
  nth_error sixty_five_files 64 = Some ("p;", "p#")%string /\
  DRW_shader_library_create_shader_string nothing_behind
    (build nothing_behind sixty_five_files) "BLENDER_REQUIRE(p#) main;"
  = Some "BLENDER_REQUIRE(p#) main;"%string.
Proof. split; vm_compute; reflexivity. Qed.

(** A name is stored cut to [MAX_LIB_NAME - 1] characters: of two names
    that agree that far, the source that requires the second gets the
    first. *)
Example expand_confuses_names_that_agree_on_63_characters :
  String.prefix (stem 63 ++ "x") (stem 63 ++ "y") = false /\
  DRW_shader_library_create_shader_string nothing_behind
    (build nothing_behind long_named_files)
    ("BLENDER_REQUIRE(" ++ stem 63 ++ "y) main;")
  = Some ("x;" ++ "BLENDER_REQUIRE(" ++ stem 63 ++ "y) main;")%string.
Proof. split; vm_compute; reflexivity. Qed.

(** A directive that is not closed and does not resolve sends the copy
    loop behind the terminator of the source: the scan resumes in whatever
    lies there, and the expansion depends on it. *)
Example expand_reads_behind_an_unterminated_directive :
  DRW_shader_library_create_shader_string nothing_behind
    (build nothing_behind [("a;", "A")]%string) "BLENDER_REQUIRE(Z"
  = Some "BLENDER_REQUIRE(Z"%string /\
  DRW_shader_library_create_shader_string directive_behind
    (build directive_behind [("a;", "A")]%string) "BLENDER_REQUIRE(Z"
  = Some "a;BLENDER_REQUIRE(Z"%string.
Proof. split; vm_compute; reflexivity. Qed.

Lemma small_has_no_high_bit (a : Z) (i j : nat) :
  0 <= a < 2 ^ Z.of_nat i -> has_bit a j -> (j < i)%nat.
Proof.
  intros Ha Hb. destruct (Nat.lt_ge_cases j i) as [H|H]; [exact H|].
  exfalso. unfold has_bit in Hb.
  rewrite <- (Z.mod_small a (2 ^ Z.of_nat i)) in Hb by exact Ha.
  rewrite Z.mod_pow2_bits_high in Hb by lia. discriminate.
Qed.

Lemma deps_strictly_below_spec lib i j :
  sized lib = true -> deps_strictly_below lib = true ->
  lib_at lib i <> None -> has_bit (deps_at lib i) j -> (j < i)%nat.
Proof.
  unfold sized, deps_strictly_below. intros Hs Hb Hocc Hj.
  apply andb_true_iff in Hs. destruct Hs as [Hs _].
  apply andb_true_iff in Hs. destruct Hs as [Hs _].
  apply Nat.eqb_eq in Hs.
  pose proof (lib_at_range lib i Hs Hocc) as Hi.
  rewrite forallb_forall in Hb. specialize (Hb i).
  destruct (lib_at lib i) as [c|]; [|congruence].
  assert (Hin : In i (seq 0 MAX_LIB)) by (apply in_seq; lia).
  apply Hb in Hin. apply andb_true_iff in Hin. destruct Hin as [H0 H1].
  apply (small_has_no_high_bit (deps_at lib i)); [|exact Hj].
  split; [apply Z.leb_le, H0|apply Z.ltb_lt, H1].
Qed.

(** C3. When the stored dependencies of every registered fragment sit at
    strictly lower slots than the fragment itself, the single backward
    pass (slot 63 down to slot 0, OR-ing in the stored mask of every set,
    registered slot) computes exactly the transitive closure of the direct
    dependency mask [d0]: a bit is set after the pass if and only if the
    slot is [required]. *)
Theorem backward_pass_is_transitive_closure (lib : DRWShaderLibrary) (d0 : Z) :
  sized lib = true ->
  deps_strictly_below lib = true ->
  forall j : nat,
    Z.testbit (closure_loop lib MAX_LIB d0) (Z.of_nat j) = true <-> required lib d0 j.
Proof.
  intros Hs Hb j. apply closure_loop_spec.
  - intros i k Hocc Hk. apply Nat.lt_le_incl.
    apply (deps_strictly_below_spec lib i k Hs Hb Hocc Hk).
  - intros i. apply lib_at_range.
    unfold sized in Hs. apply andb_true_iff in Hs. destruct Hs as [Hs _].
    apply andb_true_iff in Hs. destruct Hs as [Hs _]. apply Nat.eqb_eq, Hs.
Qed.

(** The pass on the library [A], [B] (requiring [A]), [C] (requiring [B]),
    started from the mask that names [C] alone. *)
Lemma backward_pass_is_transitive_closure_witness :
  let lib := build nothing_behind [("a;", "A"); ("BLENDER_REQUIRE(A) b;", "B");
                    ("BLENDER_REQUIRE(B) c;", "C")]%string in
  sized lib = true /\ deps_strictly_below lib = true /\
  closure_loop lib MAX_LIB 4 = 7 /\
  (Z.testbit (closure_loop lib MAX_LIB 4) (Z.of_nat 0) = true <-> required lib 4 0).
Proof.
  intros lib. split; [reflexivity|]. split; [reflexivity|]. split; [reflexivity|].
  apply (backward_pass_is_transitive_closure lib 4); reflexivity.
Defined.

(** C10. Name resolution is by prefix. [drw_shader_library_search]
    answers slot [r] exactly when the slots up to [r] are all occupied, the
    name stored at [r] is a prefix of the text after the directive, and no
    lower slot has such a name; the scan gives up at the first empty slot;
    hence, when the name of a fragment at slot [p] is a prefix of the name
    of a fragment at a later slot [l], a directive that names the longer
    one never resolves to [l]: it resolves to a slot not after [p] whose
    name is a prefix of the text, and to [p] itself when no lower slot
    matches. *)
Theorem search_resolves_by_first_prefix (lib : DRWShaderLibrary) (text : string) :
  (forall r : nat,
     drw_shader_library_search lib text = Z.of_nat r <->
     ((r < MAX_LIB)%nat /\
      (forall m, (m <= r)%nat -> lib_at lib m <> None) /\
      String.prefix (name_at lib r) text = true /\
      (forall m, (m < r)%nat -> String.prefix (name_at lib m) text = false)))
  /\
  (forall e : nat,
     (e < MAX_LIB)%nat -> lib_at lib e = None ->
     (forall m, (m < e)%nat -> String.prefix (name_at lib m) text = false) ->
     drw_shader_library_search lib text = -1)
  /\
  (forall p l : nat,
     (p < l)%nat -> (p < MAX_LIB)%nat ->
     (forall m, (m <= p)%nat -> lib_at lib m <> None) ->
     String.prefix (name_at lib p) (name_at lib l) = true ->
     String.prefix (name_at lib l) text = true ->
     (exists r, (r <= p)%nat /\
        drw_shader_library_search lib text = Z.of_nat r /\
        String.prefix (name_at lib r) text = true) /\
     ((forall m, (m < p)%nat -> String.prefix (name_at lib m) text = false) ->
      drw_shader_library_search lib text = Z.of_nat p)).
Proof.
  unfold drw_shader_library_search.
  assert (Hfound : forall r, search_loop lib text MAX_LIB 0 = Z.of_nat r ->
            (r < MAX_LIB)%nat /\
            (forall m, (m <= r)%nat -> lib_at lib m <> None) /\
            String.prefix (name_at lib r) text = true /\
            (forall m, (m < r)%nat -> String.prefix (name_at lib m) text = false)).
  { intros r Hr.
    destruct (search_loop_found lib text MAX_LIB 0 _ Hr ltac:(lia))
      as (k & Hk & Hrange & Hocc & Hp & Hlow).
    apply Nat2Z.inj in Hk. subst k. repeat split; auto; try lia.
    - intros m Hm. destruct (decide (m = r)) as [->|]; [exact Hocc|].
      apply Hlow. lia.
    - intros m Hm. apply Hlow. lia. }
  split; [|split].
  - intros r. split; [apply Hfound|].
    intros (Hr & Hocc & Hp & Hlow).
    apply search_loop_intro; auto; try lia.
    + intros m Hm. apply Hocc. lia.
    + intros m Hm. apply Hlow. lia.
  - intros e He Hnone Hlow.
    destruct (Z.eq_dec (search_loop lib text MAX_LIB 0) (-1)) as [H|H]; [exact H|].
    exfalso.
    destruct (search_loop_found lib text MAX_LIB 0 _ eq_refl H)
      as (k & _ & _ & Hocc & Hp & Hbelow).
    destruct (Nat.lt_trichotomy k e) as [Hlt|[->|Hgt]].
    + rewrite (Hlow k Hlt) in Hp. discriminate.
    + congruence.
    + destruct (Hbelow e ltac:(lia)) as [Hocce _]. congruence.
  - intros p l Hpl Hp Hocc Hpre Hl.
    pose proof (prefix_trans _ _ _ Hpre Hl) as Hpt.
    assert (Hex : exists r, (r <= p)%nat /\
              search_loop lib text MAX_LIB 0 = Z.of_nat r /\
              String.prefix (name_at lib r) text = true).
    { destruct (Z.eq_dec (search_loop lib text MAX_LIB 0) (-1)) as [H|H].
      - exfalso.
        rewrite (search_loop_none lib text MAX_LIB 0 H p) in Hpt; [discriminate|lia|].
        intros m Hm. apply Hocc. lia.
      - destruct (search_loop_found lib text MAX_LIB 0 _ eq_refl H)
          as (k & Hk & _ & _ & Hpk & Hbelow).
        exists k. repeat split; auto.
        destruct (Nat.le_gt_cases k p) as [Hle|Hgt]; [exact Hle|].
        destruct (Hbelow p ltac:(lia)) as [_ Hf]. congruence. }
    split; [exact Hex|].
    intros Hlow. apply search_loop_intro; auto; try lia.
    + intros m Hm. apply Hocc. lia.
    + intros m Hm. apply Hlow. lia.
Qed.

(** With [common] registered before [common_math], the text
    [common_math)...] resolves to slot 0, and so does the directive in a
    shader source: only [common] is included. *)
Lemma search_resolves_by_first_prefix_witness :
  let lib := build nothing_behind [("c;", "common"); ("m;", "common_math")]%string in
  drw_shader_library_search lib "common_math) main;" = 0 /\
  DRW_shader_library_create_shader_string nothing_behind lib "BLENDER_REQUIRE(common_math) main;"
    = Some "c;BLENDER_REQUIRE(common_math) main;"%string.
Proof.
  intros lib. split; [|vm_compute; reflexivity].
  destruct (search_resolves_by_first_prefix lib "common_math) main;") as (_ & _ & H).
  assert (Hocc : forall m, (m <= 0)%nat -> lib_at lib m <> None).
  { intros m Hm. assert (m = 0)%nat as -> by lia. vm_compute. discriminate. }
  destruct (H 0%nat 1%nat ltac:(lia) ltac:(unfold MAX_LIB; lia) Hocc
              ltac:(vm_compute; reflexivity) ltac:(vm_compute; reflexivity))
    as [_ H0].
  apply H0. intros m Hm. lia.
Defined.

(** C8, as the code has it. Registering into a full registry prints the
    error, logs no dependency, leaves the registry unchanged and then
    reaches [BLI_assert(0)]: the program goes on exactly when a failed
    assertion does not end it in this build. *)
Theorem add_file_on_full_registry
    (behind : string -> string)
    (lib : DRWShaderLibrary) (lib_code lib_name : string) (assert_aborts : bool) :
  registry_full lib = true ->
  let r := DRW_shader_library_add_file behind lib lib_code lib_name in
  lib_after r = lib /\
  printed r = ["Error: Too many libraries. Cannot add " ++ lib_name ++ "."]%string /\
  clog r = [] /\
  assert_failed r = true /\
  aborts assert_aborts r = assert_aborts.
Proof.
  intros Hfull r. subst r.
  destruct (add_file_cases behind lib lib_code lib_name)
    as [(i & Hi & Hfree & _)|[_ Heq]].
  - exfalso. apply (proj1 (registry_full_spec lib) Hfull i Hi Hfree).
  - rewrite Heq. unfold aborts. cbn. repeat split; reflexivity.
Qed.

Lemma add_file_on_full_registry_witness :
  registry_full full_library = true /\
  lib_after (DRW_shader_library_add_file nothing_behind full_library "y;" "y")
    = full_library /\
  aborts false (DRW_shader_library_add_file nothing_behind full_library "y;" "y") = false.
Proof.
  split; [reflexivity|].
  destruct (add_file_on_full_registry nothing_behind full_library "y;" "y" false eq_refl)
    as (H1 & _ & _ & _ & H5).
  split; [exact H1|exact H5].
Defined.

(** C8, as stated, fails: in a build whose failed assertions abort, the
    registration into a full registry ends the program. *)
Lemma add_file_on_full_registry_may_abort :
  registry_full full_library = true /\
  aborts true (DRW_shader_library_add_file nothing_behind full_library "y;" "y") = true.
Proof. split; vm_compute; reflexivity. Qed.




(** The other conditions are needed as well. A name longer than the
    buffer of the copy loop is logged cut to [MAX_NAME - 2] characters; and
    behind a directive that is not closed the scan goes on in the memory
    behind the code, so the mask can get the bit of a fragment that the
    code does not name. *)
Example long_missing_name_is_logged_cut :
  clog (DRW_shader_library_add_file nothing_behind (build nothing_behind [])
          ("BLENDER_REQUIRE(" ++ stem 70 ++ ") x;") "X")
  = [stem 62].
Proof. vm_compute. reflexivity. Qed.

Example registration_reads_behind_an_unterminated_directive :
  let reg := DRW_shader_library_add_file directive_behind
               (build directive_behind [("a;", "A")]%string) "BLENDER_REQUIRE(Z" "B" in
  directives pragma_require "BLENDER_REQUIRE(Z" = ["Z"%string] /\
  clog reg = ["Z"%string] /\
  deps_at (lib_after reg) 1 = 1.
Proof. split; [|split]; vm_compute; reflexivity. Qed.

End ShaderLibClaims.

(** ** The deferred compiler: what its functions guarantee *)

Module DeferredProps.
Import Deferred DeferredSpec DeferredFacts.

Local Open Scope nat_scope.

(** X1. Teardown frees every request of the queue and of the conclude
    list exactly once; it compiles the requests of the conclude list, last
    one first, and none of the queue; exactly when the compiler owns the
    context it hands its two context pointers, as they are, to the discard
    and dispose calls, once; the compiler itself is freed last. *)
Theorem compilation_free_releases_everything
    (gpu_compile : GPUMaterial -> eGPUMaterialStatus)
    (comp : DRWShaderCompiler) (st : statuses) :
  let r := drw_deferred_shader_compilation_free gpu_compile comp st in
  freed (snd r) = queue comp ++ rev (queue_conclude comp) /\
  compiled (snd r) = map mat (rev (queue_conclude comp)) /\
  fst r = compile_all gpu_compile (rev (queue_conclude comp)) st /\
  disposals (snd r) =
    (if own_context comp then [(gl_context comp, gpu_context comp)] else []) /\
  last (snd r) = Some EvFreeCompiler.
Proof.
  unfold drw_deferred_shader_compilation_free.
  set (ev_context := if own_context comp then _ else _).
  assert (Hctx : disposals ev_context =
                 (if own_context comp then [(gl_context comp, gpu_context comp)] else [])
                 /\ freed ev_context = [] /\ compiled ev_context = []).
  { subst ev_context. destruct (own_context comp); repeat split; reflexivity. }
  destruct Hctx as (Hd & Hf & Hc).
  destruct (queue_conclude comp) as [|c rest] eqn:Hq.
  - cbn [BLI_listbase_is_empty negb rev app map compile_all fold_left fst snd].
    rewrite !freed_app, !compiled_app, !disposals_app, queue_free_freed,
      queue_free_compiled, queue_free_disposals, Hd, Hf, Hc.
    rewrite !app_assoc, last_snoc, !app_nil_r.
    repeat split; reflexivity.
  - cbn [BLI_listbase_is_empty negb]. rewrite conclude_loop_spec by lia.
    cbn [fst snd].
    change (EvContextEnable :: ?l) with ([EvContextEnable] ++ l).
    rewrite !freed_app, !compiled_app, !disposals_app, queue_free_freed,
      queue_free_compiled, queue_free_disposals, Hd, Hf, Hc,
      conclude_events_freed, conclude_events_compiled, conclude_events_disposals.
    rewrite !app_assoc, last_snoc, !app_nil_r.
    repeat split; reflexivity.
Qed.

(** X2. When the job is not stopped and no other thread steps in, the worker
    compiles every queued request exactly once, the most recently queued
    first, and leaves the queue and the compiling slot empty; a request
    whose material is still queued after its compile goes to the conclude
    list, any other is freed. *)
Theorem exec_compiles_queue_last_in_first_out
    (gpu_compile : GPUMaterial -> eGPUMaterialStatus) (opengl : bool)
    (stop : nat -> bool) (comp : DRWShaderCompiler) (st : statuses) :
  (forall i, stop i = false) ->
  let r := drw_deferred_shader_compilation_exec gpu_compile opengl stop comp st in
  queue (fst (fst r)) = [] /\
  mat_compiling (fst (fst r)) = None /\
  compiled (snd r) = map mat (rev (queue comp)) /\
  snd (fst r) = compile_all gpu_compile (rev (queue comp)) st /\
  queue_conclude (fst (fst r)) =
    queue_conclude comp ++ List.filter (stays_queued gpu_compile) (rev (queue comp)) /\
  freed (snd r) =
    List.filter (fun d => negb (stays_queued gpu_compile d)) (rev (queue comp)).
Proof.
  intros Hstop r. subst r. unfold drw_deferred_shader_compilation_exec.
  destruct (exec_loop_drains gpu_compile opengl stop (S (length (queue comp))) 0 comp st
              Hstop ltac:(lia))
    as (H1 & H2 & H3 & _ & _ & _ & _ & H8 & H9 & H10 & _).
  repeat split; assumption.
Qed.

Lemma exec_compiles_queue_last_in_first_out_witness :
  let r := drw_deferred_shader_compilation_exec example_gpu true never_stop
             example_compiler all_queued in
  queue (fst (fst r)) = [] /\ compiled (snd r) = [12; 11; 10].
Proof.
  intros r.
  destruct (exec_compiles_queue_last_in_first_out example_gpu true never_stop
              example_compiler all_queued ltac:(intros i; reflexivity))
    as (H1 & _ & H3 & _).
  split; [exact H1|exact H3].
Defined.

(** X3. In such a run the compiler keeps its contexts and their
    ownership; and as long as the count of compiled shaders, an [int] that
    starts at zero or above, does not overflow, it grows by the length of
    the queue, and the progress reports count up one shader per turn over a
    total that does not change, the last report being [total / total]. *)
Theorem exec_progress_counts_up_to_total
    (gpu_compile : GPUMaterial -> eGPUMaterialStatus) (opengl : bool)
    (stop : nat -> bool) (comp : DRWShaderCompiler) (st : statuses) :
  (forall i, stop i = false) ->
  let r := drw_deferred_shader_compilation_exec gpu_compile opengl stop comp st in
  let n := length (queue comp) in
  gl_context (fst (fst r)) = gl_context comp /\
  gpu_context (fst (fst r)) = gpu_context comp /\
  own_context (fst (fst r)) = own_context comp /\
  ((0 <= shaders_done comp)%Z -> (shaders_done comp + Z.of_nat n <= INT_MAX)%Z ->
   progress_of (snd r) =
     progress_ramp n (shaders_done comp + 1)%Z (shaders_done comp + Z.of_nat n)%Z /\
   shaders_done (fst (fst r)) = (shaders_done comp + Z.of_nat n)%Z).
Proof.
  intros Hstop r n. subst r n. unfold drw_deferred_shader_compilation_exec.
  destruct (exec_loop_drains gpu_compile opengl stop (S (length (queue comp))) 0 comp st
              Hstop ltac:(lia))
    as (_ & _ & _ & H4 & H5 & H6 & H7 & _ & _ & _ & H11).
  split; [exact H5|]. split; [exact H6|]. split; [exact H7|].
  intros Hp Hm. split; [apply H11; assumption|apply H4; assumption].
Qed.

Lemma exec_progress_counts_up_to_total_witness :
  progress_of (snd (drw_deferred_shader_compilation_exec example_gpu true never_stop
                      example_compiler all_queued))
  = [(1, 3); (2, 3); (3, 3)]%Z.
Proof.
  destruct (exec_progress_counts_up_to_total example_gpu true never_stop
              example_compiler all_queued ltac:(intros i; reflexivity))
    as (_ & _ & _ & H).
  destruct H as [H _]; [cbn; lia|cbn; unfold INT_MAX; lia|].
  exact H.
Defined.

(** The count is an [int]: a run that starts with the count at [INT_MAX]
    reports a negative number of shaders done. *)
Example exec_progress_wraps_at_INT_MAX :
  progress_of (snd (drw_deferred_shader_compilation_exec example_gpu true never_stop
                      (with_done INT_MAX
                         (with_queue [ {| addr := 1; mat := 10 |} ] compiler_calloc))
                      all_queued))
  = [(INT_MIN, INT_MIN)]%Z.
Proof. vm_compute. reflexivity. Qed.

(** X4. When the job is stopped at the read of [*stop] that follows [j]
    compiles, exactly the [j] most recently queued requests have been
    compiled; the others are still in the queue, in their order, and none
    has been freed or lost. *)
Theorem exec_stopped_keeps_the_rest_queued
    (gpu_compile : GPUMaterial -> eGPUMaterialStatus) (opengl : bool)
    (stop : nat -> bool) (j : nat) (comp : DRWShaderCompiler) (st : statuses) :
  (forall i, i < j -> stop i = false) ->
  stop j = true ->
  j <= length (queue comp) ->
  let r := drw_deferred_shader_compilation_exec gpu_compile opengl stop comp st in
  let taken := firstn j (rev (queue comp)) in
  queue (fst (fst r)) = firstn (length (queue comp) - j) (queue comp) /\
  compiled (snd r) = map mat taken /\
  queue_conclude (fst (fst r)) =
    queue_conclude comp ++ List.filter (stays_queued gpu_compile) taken /\
  freed (snd r) = List.filter (fun d => negb (stays_queued gpu_compile d)) taken.
Proof.
  intros Hfalse Htrue Hj r taken. subst r taken.
  unfold drw_deferred_shader_compilation_exec.
  destruct (exec_loop_stops gpu_compile opengl stop (S (length (queue comp))) 0 j comp st)
    as (H1 & H2 & _ & H4 & H5); auto; try lia.
  intros i Hi. apply Hfalse. lia.
Qed.

Lemma exec_stopped_keeps_the_rest_queued_witness :
  let r := drw_deferred_shader_compilation_exec example_gpu true (fun k => Nat.eqb k 1)
             example_compiler all_queued in
  queue (fst (fst r)) = [ {| addr := 1; mat := 10 |}; {| addr := 2; mat := 11 |} ] /\
  compiled (snd r) = [12].
Proof.
  intros r.
  destruct (exec_stopped_keeps_the_rest_queued example_gpu true (fun k => Nat.eqb k 1) 1
              example_compiler all_queued) as (H1 & H2 & _).
  - intros i Hi. assert (i = 0) as -> by lia. reflexivity.
  - reflexivity.
  - simpl. lia.
  - split; [exact H1|exact H2].
Defined.

(** *** The entry points *)

(** X5. In an image render [DRW_shader_from_material] ignores [deferred] and
    never returns a queued material: a material that was created or queued
    is compiled on the spot, exactly once, and ends with the status the
    compile gives it; a material already compiled is left as it is. The
    other materials keep their status. *)
Theorem from_material_image_render_is_synchronous
    (gpu_compile : GPUMaterial -> eGPUMaterialStatus) (env : DrawEnv)
    (m : GPUMaterial) (deferred : bool) (s : DRWState) :
  image_render env = true ->
  gpu_compile m <> GPU_MAT_QUEUED ->
  let s' := DRW_shader_from_material gpu_compile env m deferred s in
  (forall m', m' <> m -> status s' m' = status s m') /\
  status s' m <> GPU_MAT_QUEUED /\
  (status s m = GPU_MAT_CREATED \/ status s m = GPU_MAT_QUEUED ->
   status s' m = gpu_compile m /\
   exists ev, events s' = events s ++ ev /\ compiled ev = [m]) /\
  (status s m = GPU_MAT_SUCCESS \/ status s m = GPU_MAT_FAILED -> s' = s).
Proof.
  intros Himg Hgpu. unfold DRW_shader_from_material, GPU_material_status.
  rewrite Himg. cbn [andb negb].
  assert (Hsync : sync_compile env false = true).
  { unfold sync_compile. rewrite Himg. cbn. apply orb_true_r. }
  assert (Hnq : status_eqb (gpu_compile m) GPU_MAT_QUEUED = false).
  { destruct (status_eqb (gpu_compile m) GPU_MAT_QUEUED) eqn:E; [|reflexivity].
    apply status_eqb_eq in E. contradiction. }
  destruct (status s m) eqn:Hst; cbn [status_eqb].
  - (* failed *) rewrite Hst. cbn [status_eqb].
    split; [reflexivity|]. split; [congruence|].
    split; [intros [H|H]; discriminate|reflexivity].
  - (* created *)
    set (s0 := {| status := GPU_material_status_set (status s) m GPU_MAT_QUEUED;
                  job := job s; retired := retired s; next := next s;
                  events := events s |}).
    destruct (add_sync_spec gpu_compile env m false s0 Hsync)
      as (H1 & _ & _ & _ & ev & H5 & H6 & _).
    set (s1 := drw_deferred_shader_add gpu_compile env m false s0) in *.
    assert (Hm : status s1 m = gpu_compile m).
    { rewrite H1. unfold GPU_material_compile. apply status_set_same. }
    rewrite Hm, Hnq. split; [|split; [|split]].
    + intros m' Hne. rewrite H1. unfold GPU_material_compile.
      rewrite status_set_other by exact Hne. subst s0. cbn [status].
      apply status_set_other, Hne.
    + rewrite Hm. exact Hgpu.
    + intros _. split; [exact Hm|].
      exists (ev ++ [EvCompile m]). split; [exact H5|].
      rewrite compiled_app, H6. reflexivity.
    + intros [H|H]; discriminate.
  - (* queued *)
    rewrite Hst. cbn [status_eqb].
    destruct (add_sync_spec gpu_compile env m false s Hsync)
      as (H1 & _ & _ & _ & ev & H5 & H6 & _).
    set (s1 := drw_deferred_shader_add gpu_compile env m false s) in *.
    assert (Hm : status s1 m = gpu_compile m).
    { rewrite H1. unfold GPU_material_compile. apply status_set_same. }
    split; [|split; [|split]].
    + intros m' Hne. rewrite H1. unfold GPU_material_compile.
      apply status_set_other, Hne.
    + rewrite Hm. exact Hgpu.
    + intros _. split; [exact Hm|].
      exists (ev ++ [EvCompile m]). split; [exact H5|].
      rewrite compiled_app, H6. reflexivity.
    + intros [H|H]; discriminate.
  - (* success *) rewrite Hst. cbn [status_eqb].
    split; [reflexivity|]. split; [congruence|].
    split; [intros [H|H]; discriminate|reflexivity].
Qed.

Lemma from_material_image_render_is_synchronous_witness :
  status (DRW_shader_from_material example_gpu render_env 10 true initial_state) 10
  = GPU_MAT_SUCCESS.
Proof.
  destruct (from_material_image_render_is_synchronous example_gpu render_env 10 true
              initial_state eq_refl ltac:(discriminate))
    as (_ & _ & H & _).
  destruct (H (or_introl eq_refl)) as [Hs _]. exact Hs.
Defined.

(** X6. The two entry points differ in one situation only. In an image render
    that asks for a deferred compile of a material that is already queued,
    [DRW_shader_from_world] returns the material as it is, still queued and
    not compiled, where [DRW_shader_from_material] compiles it; in every
    other situation they do the same. *)
Theorem from_world_differs_from_material_only_when_queued_in_render
    (gpu_compile : GPUMaterial -> eGPUMaterialStatus) (env : DrawEnv)
    (m : GPUMaterial) (deferred : bool) (s : DRWState) :
  gpu_compile m <> GPU_MAT_QUEUED ->
  (image_render env = true /\ deferred = true /\ status s m = GPU_MAT_QUEUED ->
   DRW_shader_from_world gpu_compile env m deferred s = s /\
   status (DRW_shader_from_material gpu_compile env m deferred s) m = gpu_compile m) /\
  (~ (image_render env = true /\ deferred = true /\ status s m = GPU_MAT_QUEUED) ->
   DRW_shader_from_world gpu_compile env m deferred s =
   DRW_shader_from_material gpu_compile env m deferred s).
Proof.
  intros Hgpu. split.
  - intros (Hi & Hd & Hq). split.
    + apply from_world_returns. auto.
    + unfold DRW_shader_from_material, GPU_material_status.
      rewrite Hi. cbn [andb negb]. rewrite Hq. cbn [status_eqb]. rewrite Hq.
      cbn [status_eqb]. apply add_sync_status.
      unfold sync_compile. rewrite Hi. cbn. apply orb_true_r.
  - intros Hno. unfold DRW_shader_from_world, DRW_shader_from_material, GPU_material_status.
    destruct (image_render env) eqn:Hi; [|reflexivity].
    destruct deferred; [|reflexivity].
    cbn [negb andb].
    set (s0 := {| status := GPU_material_status_set (status s) m GPU_MAT_QUEUED;
                  job := job s; retired := retired s; next := next s;
                  events := events s |}).
    destruct (status s m) eqn:Hst; cbn [status_eqb].
    + rewrite Hst. reflexivity.
    + rewrite (add_ignores_deferred_in_render gpu_compile env m true false s0 Hi).
      rewrite add_sync_status
        by (unfold sync_compile; rewrite Hi; cbn; apply orb_true_r).
      rewrite (status_neq_eqb _ _ Hgpu). reflexivity.
    + exfalso. apply Hno. auto.
    + rewrite Hst. reflexivity.
Qed.

Lemma from_world_differs_from_material_only_when_queued_in_render_witness :
  let s := {| status := fun _ => GPU_MAT_QUEUED; job := None; retired := [];
              next := 0; events := [] |} in
  status (DRW_shader_from_world example_gpu render_env 10 true s) 10 = GPU_MAT_QUEUED /\
  status (DRW_shader_from_material example_gpu render_env 10 true s) 10 = GPU_MAT_SUCCESS.
Proof.
  intros s.
  destruct (from_world_differs_from_material_only_when_queued_in_render
              example_gpu render_env 10 true s ltac:(discriminate)) as [H _].
  destruct H as [Hw Hm]; [repeat split; reflexivity|].
  split; [rewrite Hw; reflexivity|exact Hm].
Defined.

(** X7. A deferred request for a created material, outside an image render and
    with a context to run the job in: the material becomes queued, the job
    gets a new compiler whose queue is the queue of the compiler it had,
    followed by the new request, and nothing is compiled on the calling
    thread. Both entry points do so. *)
Theorem deferred_request_is_queued_at_the_tail
    (gpu_compile : GPUMaterial -> eGPUMaterialStatus) (env : DrawEnv)
    (m : GPUMaterial) (s : DRWState) :
  evil_C env = true -> image_render env = false ->
  status s m = GPU_MAT_CREATED ->
  let s' := DRW_shader_from_material gpu_compile env m true s in
  DRW_shader_from_world gpu_compile env m true s = s' /\
  status s' = GPU_material_status_set (status s) m GPU_MAT_QUEUED /\
  (exists comp, job s' = Some comp /\
     queue comp = match job s with Some old => queue old | None => [] end
                  ++ [{| addr := next s; mat := m |}]) /\
  (exists ev, events s' = events s ++ ev /\ compiled ev = []).
Proof.
  intros He Hi Hst s'. subst s'.
  assert (Hdef : sync_compile env true = false).
  { unfold sync_compile. rewrite He, Hi. reflexivity. }
  assert (Hw : DRW_shader_from_world gpu_compile env m true s =
               DRW_shader_from_material gpu_compile env m true s).
  { unfold DRW_shader_from_world, DRW_shader_from_material. rewrite Hi. reflexivity. }
  split; [exact Hw|].
  unfold DRW_shader_from_material, GPU_material_status. rewrite Hi, Hst.
  cbn [status_eqb andb negb].
  set (s0 := {| status := GPU_material_status_set (status s) m GPU_MAT_QUEUED;
                job := job s; retired := retired s; next := next s;
                events := events s |}).
  destruct (add_deferred_spec gpu_compile env m true s0 Hdef) as (H1 & H2 & _ & _ & H5).
  destruct (add_to_new_compiler_spec env (job s0) m (next s0)) as (Q1 & _ & _ & _ & _ & _ & Q7).
  split; [exact H1|]. split.
  - eexists. split; [exact H2|]. exact Q1.
  - exists (snd (add_to_new_compiler env (job s0) m (next s0))). split; [exact H5|].
    destruct (job s0) as [o|]; [destruct (gl_context o)|];
      destruct (main_context_workaround env);
      destruct Q7 as (_ & _ & ->); reflexivity.
Qed.

Lemma deferred_request_is_queued_at_the_tail_witness :
  let s' := DRW_shader_from_material example_gpu viewport_env 10 true initial_state in
  status s' 10 = GPU_MAT_QUEUED /\
  exists comp, job s' = Some comp /\ queue comp = [{| addr := 1000; mat := 10 |}].
Proof.
  intros s'.
  destruct (deferred_request_is_queued_at_the_tail example_gpu viewport_env 10
              initial_state eq_refl eq_refl eq_refl) as (_ & H1 & H2 & _).
  fold s' in H1, H2. split; [rewrite H1; reflexivity|exact H2].
Defined.

(** X8. Asking twice is asking once: when a compile ends in success or failure,
    a second identical call of an entry point changes nothing. *)
Theorem entry_points_are_idempotent
    (gpu_compile : GPUMaterial -> eGPUMaterialStatus) (env : DrawEnv)
    (m : GPUMaterial) (deferred : bool) (s : DRWState) :
  gpu_compile m = GPU_MAT_SUCCESS \/ gpu_compile m = GPU_MAT_FAILED ->
  (let s1 := DRW_shader_from_material gpu_compile env m deferred s in
   DRW_shader_from_material gpu_compile env m deferred s1 = s1) /\
  (let s1 := DRW_shader_from_world gpu_compile env m deferred s in
   DRW_shader_from_world gpu_compile env m deferred s1 = s1).
Proof.
  intros Hgpu.
  assert (Hnq : status_eqb (gpu_compile m) GPU_MAT_QUEUED = false)
    by (destruct Hgpu as [-> | ->]; reflexivity).
  assert (Hsync : forall d s0, sync_compile env d = true ->
            status (drw_deferred_shader_add gpu_compile env m d s0) m = GPU_MAT_SUCCESS \/
            status (drw_deferred_shader_add gpu_compile env m d s0) m = GPU_MAT_FAILED).
  { intros d s0 H. rewrite (add_sync_status gpu_compile env m d s0 H). exact Hgpu. }
  assert (Hdef : forall d s0, sync_compile env d = false ->
            status s0 m = GPU_MAT_QUEUED ->
            status (drw_deferred_shader_add gpu_compile env m d s0) m = GPU_MAT_QUEUED /\
            d = true /\ image_render env = false).
  { intros d s0 H Hq. rewrite (add_deferred_status gpu_compile env m d s0 H).
    unfold sync_compile in H. repeat (apply orb_false_iff in H; destruct H as [H ?]).
    split; [exact Hq|]. split; [destruct d; [reflexivity|discriminate]|assumption]. }
  set (s0 := {| status := GPU_material_status_set (status s) m GPU_MAT_QUEUED;
                job := job s; retired := retired s; next := next s;
                events := events s |}).
  assert (Hs0 : status s0 m = GPU_MAT_QUEUED) by apply status_set_same.
  split; intros s1.
  - apply from_material_returns. subst s1.
    unfold DRW_shader_from_material, GPU_material_status. fold s0.
    destruct (image_render env) eqn:Hi.
    + cbn [andb negb].
      assert (Hs : sync_compile env false = true)
        by (unfold sync_compile; rewrite Hi; cbn; apply orb_true_r).
      destruct (status s m) eqn:Hst; cbn [status_eqb]; rewrite ?Hst; cbn [status_eqb]; auto.
      * rewrite add_sync_status by exact Hs. rewrite Hnq.
        destruct (Hsync false s0 Hs); auto.
      * destruct (Hsync false s Hs); auto.
    + destruct (status s m) eqn:Hst; cbn [status_eqb]; rewrite ?andb_false_r, ?andb_true_r.
      * rewrite Hst. cbn [status_eqb]. rewrite andb_false_r. auto.
      * destruct (sync_compile env deferred) eqn:Hs.
        -- rewrite add_sync_status by exact Hs. rewrite Hnq, andb_false_r.
           destruct (Hsync deferred s0 Hs); auto.
        -- destruct (Hdef deferred s0 Hs Hs0) as (Hq & -> & _).
           cbn [negb andb]. auto.
      * destruct deferred; [auto|]. rewrite Hst. cbn [negb andb status_eqb].
        assert (Hs : sync_compile env false = true)
          by (unfold sync_compile; cbn; apply orb_true_r).
        destruct (Hsync false s Hs); auto.
      * rewrite Hst. cbn [status_eqb]. rewrite andb_false_r. auto.
  - apply from_world_returns. subst s1.
    unfold DRW_shader_from_world, GPU_material_status. fold s0.
    destruct (status s m) eqn:Hst; cbn [status_eqb]; rewrite ?andb_false_r, ?andb_true_r.
    + rewrite Hst. cbn [status_eqb]. rewrite andb_false_r. auto.
    + destruct (sync_compile env deferred) eqn:Hs.
      * rewrite add_sync_status by exact Hs. rewrite Hnq, andb_false_r.
        destruct (Hsync deferred s0 Hs); auto.
      * destruct (Hdef deferred s0 Hs Hs0) as (Hq & -> & _).
        cbn [negb andb]. auto.
    + destruct deferred.
      * destruct (negb (image_render env)); cbn [andb negb]; rewrite ?Hst; auto.
      * rewrite andb_false_r. rewrite Hst. cbn [negb andb status_eqb].
        assert (Hs : sync_compile env false = true)
          by (unfold sync_compile; cbn; apply orb_true_r).
        destruct (Hsync false s Hs); auto.
    + rewrite Hst. cbn [status_eqb]. rewrite andb_false_r. auto.
Qed.

Lemma entry_points_are_idempotent_witness :
  let s1 := DRW_shader_from_material example_gpu viewport_env 10 true initial_state in
  DRW_shader_from_material example_gpu viewport_env 10 true s1 = s1.
Proof.
  intros s1.
  destruct (entry_points_are_idempotent example_gpu viewport_env 10 true initial_state
              ltac:(left; reflexivity)) as [H _].
  exact H.
Defined.



(** Removing the material that is being compiled: nothing to unlink, one
    wait for the compilation lock. *)
Example remove_of_the_compiling_material_waits :
  let comp := with_compiling (Some {| addr := 4; mat := 13 |}) example_compiler in
  let s := {| status := all_queued; job := Some comp; retired := [];
              next := 1000; events := [] |} in
  events (DRW_deferred_shader_remove viewport_env 13 s) = [EvWait] /\
  job (DRW_deferred_shader_remove viewport_env 13 s) = Some comp.
Proof. split; reflexivity. Qed.

(** *** Runs *)

(** X10. In every state a run reaches, the queue of the job holds a material at
    most once, and no material that is merely created (provided a compile
    never puts a material back to created). *)
Theorem queue_holds_a_material_at_most_once
    (gpu_compile : GPUMaterial -> eGPUMaterialStatus) (workaround : bool)
    (s : DRWState) :
  (forall m, gpu_compile m <> GPU_MAT_CREATED) ->
  reachable gpu_compile workaround s ->
  forall comp, job s = Some comp ->
    List.NoDup (map mat (queue comp)) /\
    forall d, In d (queue comp) -> status s (mat d) <> GPU_MAT_CREATED.
Proof.
  intros Hgpu Hreach. change (queue_inv s).
  induction Hreach as [st n|s s' _ IH Hstep].
  - intros comp Hc. discriminate.
  - apply (step_keeps_queue_inv gpu_compile Hgpu workaround s s' Hstep IH).
Qed.

Lemma queue_holds_a_material_at_most_once_witness :
  exists comp,
    job (DRW_shader_from_material example_gpu viewport_env 11 true
           (DRW_shader_from_material example_gpu viewport_env 10 true initial_state))
    = Some comp /\
    List.NoDup (map mat (queue comp)).
Proof.
  destruct (job (DRW_shader_from_material example_gpu viewport_env 11 true
                   (DRW_shader_from_material example_gpu viewport_env 10 true
                      initial_state))) as [comp|] eqn:Hc;
    [|vm_compute in Hc; discriminate Hc].
  exists comp. split; [reflexivity|].
  refine (proj1 (queue_holds_a_material_at_most_once example_gpu false _ _ _ comp Hc)).
  - intros m. unfold example_gpu. destruct (Nat.eqb m 11); discriminate.
  - eapply reachable_step; [eapply reachable_step; [apply reachable_start|]|].
    + apply (step_from_material example_gpu false viewport_env 10 true). reflexivity.
    + apply (step_from_material example_gpu false viewport_env 11 true). reflexivity.
Defined.

(** X11. In every state a run reaches, only the compiler of the job can own a
    context, and it has one; the compilers that were replaced own none. No
    context is destroyed twice, and every destroyed context is one that
    [drw_deferred_shader_add] created. *)
Theorem context_has_one_owner_and_is_destroyed_once
    (gpu_compile : GPUMaterial -> eGPUMaterialStatus) (workaround : bool)
    (s : DRWState) :
  reachable gpu_compile workaround s ->
  (forall c, In c (retired s) -> own_context c = false) /\
  (forall c, job s = Some c ->
     own_context c = negb workaround /\ gl_context c <> None /\ gpu_context c <> None) /\
  List.NoDup (destroyed (events s)) /\
  (forall p, In p (destroyed (events s)) -> In p (created (events s))).
Proof.
  intros Hreach.
  assert (Hinv : context_inv workaround s).
  { induction Hreach as [st n|s s' _ IH Hstep].
    - unfold context_inv. cbn.
      split; [intros c []|]. split; [intros c Hc; discriminate|].
      split; [intros p []|]. split; [intros p []|constructor].
    - apply (step_keeps_context_inv gpu_compile workaround s s' Hstep IH). }
  destruct Hinv as (I1 & I2 & I3 & _ & I5).
  split; [exact I1|]. split; [|split; [exact I5|intros p Hp; apply (I3 p Hp)]].
  intros c Hc. destruct (I2 c Hc) as (Ho & gl & gpu & -> & -> & _).
  split; [exact Ho|]. split; discriminate.
Qed.

Lemma context_has_one_owner_and_is_destroyed_once_witness :
  exists c,
    job (DRW_shader_from_material example_gpu viewport_env 11 true
           (DRW_shader_from_material example_gpu viewport_env 10 true initial_state))
    = Some c /\
    own_context c = true.
Proof.
  destruct (job (DRW_shader_from_material example_gpu viewport_env 11 true
                   (DRW_shader_from_material example_gpu viewport_env 10 true
                      initial_state))) as [c|] eqn:Hc;
    [|vm_compute in Hc; discriminate Hc].
  exists c. split; [reflexivity|].
  refine (proj1 (proj1 (proj2 (context_has_one_owner_and_is_destroyed_once
                                 example_gpu false _ _)) c Hc)).
  eapply reachable_step; [eapply reachable_step; [apply reachable_start|]|].
  - apply (step_from_material example_gpu false viewport_env 10 true). reflexivity.
  - apply (step_from_material example_gpu false viewport_env 11 true). reflexivity.
Defined.

(** X12. Deferred requests for materials that are all different and merely
    created, followed by a run of the worker that is not stopped: every
    material is compiled exactly once, the last requested first. *)
Theorem requests_are_each_compiled_once
    (gpu_compile : GPUMaterial -> eGPUMaterialStatus) (env : DrawEnv) (opengl : bool)
    (stop : nat -> bool) (ms : list GPUMaterial) (st : statuses) (n : nat) :
  evil_C env = true -> image_render env = false ->
  List.NoDup ms -> (forall m, In m ms -> st m = GPU_MAT_CREATED) ->
  (forall i, stop i = false) ->
  let s := request_all gpu_compile env ms
             {| status := st; job := None; retired := []; next := n; events := [] |} in
  map mat (queue_of s) = ms /\
  (forall m, In m ms -> status s m = GPU_MAT_QUEUED) /\
  forall comp, job s = Some comp ->
    compiled (snd (drw_deferred_shader_compilation_exec gpu_compile opengl stop comp
                     (status s))) = rev ms.
Proof.
  intros He Hi Hnd Hst Hstop s.
  destruct (request_all_spec gpu_compile env ms
              {| status := st; job := None; retired := []; next := n; events := [] |}
              He Hi Hnd Hst) as (H1 & H2 & _).
  fold s in H1, H2. cbn in H1. split; [exact H1|]. split; [exact H2|].
  intros comp Hc. unfold drw_deferred_shader_compilation_exec.
  destruct (exec_loop_drains gpu_compile opengl stop (S (length (queue comp))) 0 comp
              (status s) Hstop ltac:(lia))
    as (_ & _ & _ & _ & _ & _ & _ & _ & H9 & _).
  rewrite H9, map_rev. unfold queue_of in H1. rewrite Hc in H1. rewrite H1. reflexivity.
Qed.

Lemma requests_are_each_compiled_once_witness :
  let s := request_all example_gpu viewport_env [10; 11; 12] initial_state in
  map mat (queue_of s) = [10; 11; 12] /\
  forall comp, job s = Some comp ->
    compiled (snd (drw_deferred_shader_compilation_exec example_gpu true never_stop comp
                     (status s))) = [12; 11; 10].
Proof.
  intros s.
  destruct (requests_are_each_compiled_once example_gpu viewport_env true never_stop
              [10; 11; 12] (fun _ => GPU_MAT_CREATED) 1000 eq_refl eq_refl)
    as (H1 & _ & H3).
  - repeat constructor; simpl; intuition lia.
  - intros m _. reflexivity.
  - intros i. reflexivity.
  - split; [exact H1|exact H3].
Defined.

End DeferredProps.

(** ** The shader library: more of what the code guarantees *)

Module ShaderLibProps.
Import CStr CStrFacts ShaderLib ShaderLibSpec ShaderLibFacts ShaderLibMoreFacts.
Import ShaderLibTextFacts.

(** X13. Registration fills the slots in the order of the calls: after the
    calls of [files], slot [k] holds the code of the [k]-th call and its
    name cut to [MAX_LIB_NAME - 1] characters, for the first [MAX_LIB]
    calls; every other slot is empty, so the calls after the [MAX_LIB]-th
    leave no trace in the registry. *)
Theorem registration_fills_slots_in_order
    (behind : string -> string) (files : list (string * string)) (k : nat) :
  ((k < length files)%nat -> (k < MAX_LIB)%nat ->
   lib_at (build behind files) k = Some (fst (nth k files (EmptyString, EmptyString))) /\
   name_at (build behind files) k =
     BLI_strncpy (snd (nth k files (EmptyString, EmptyString))) MAX_LIB_NAME) /\
  ((length files <= k)%nat \/ (MAX_LIB <= k)%nat -> lib_at (build behind files) k = None).
Proof.
  destruct (build_slots behind files k) as [H1 H2]. split.
  - intros Hk Hm. rewrite H1.
    replace (k <? Nat.min (length files) MAX_LIB)%nat with true
      by (symmetry; apply Nat.ltb_lt; lia).
    split; [reflexivity|]. apply H2. lia.
  - intros Hk. rewrite H1.
    replace (k <? Nat.min (length files) MAX_LIB)%nat with false
      by (symmetry; apply Nat.ltb_ge; lia).
    reflexivity.
Qed.

Lemma registration_fills_slots_in_order_witness :
  lib_at (build nothing_behind [("a;", "A"); ("b;", "B")]%string) 1 = Some "b;"%string /\
  lib_at (build nothing_behind [("a;", "A"); ("b;", "B")]%string) 2 = None.
Proof.
  destruct (registration_fills_slots_in_order nothing_behind
              [("a;", "A"); ("b;", "B")]%string 1) as [H _].
  destruct (registration_fills_slots_in_order nothing_behind
              [("a;", "A"); ("b;", "B")]%string 2) as [_ G].
  split.
  - apply H; [simpl; lia|unfold MAX_LIB; lia].
  - apply G. left. simpl. lia.
Defined.

(** X14. Expansion changes nothing when there is nothing to include: on a
    library without any fragment every shader source comes back as it is,
    and so does, on any library, a source without the directive. *)
Theorem expansion_without_dependencies_is_the_source
    (behind : string -> string) (lib : DRWShaderLibrary) (shader_code : string) :
  DRW_shader_library_create_shader_string behind DRW_shader_library_create shader_code
    = Some shader_code /\
  (strstr shader_code pragma_require = None ->
   DRW_shader_library_create_shader_string behind lib shader_code = Some shader_code).
Proof.
  split.
  - apply expand_empty.
  - apply expand_plain.
Qed.

Lemma expansion_without_dependencies_is_the_source_witness :
  DRW_shader_library_create_shader_string nothing_behind
    (build nothing_behind [("a;", "A")]%string) "void main() {}"
  = Some "void main() {}"%string.
Proof.
  destruct (expansion_without_dependencies_is_the_source nothing_behind
              (build nothing_behind [("a;", "A")]%string) "void main() {}") as [_ H].
  apply H. vm_compute. reflexivity.
Defined.

(** X15. The mask that [drw_shader_dependencies_get] returns fits the 64
    bits of [uint64_t]; each of its bits is the slot of a fragment, the
    first one whose name is a prefix of what follows some marker in the
    memory scanned; when no marker there is followed by a registered name,
    the mask is 0. For a code in which every directive is closed, the scan
    is exact: the mask has the bit of a slot exactly when some directive of
    the code resolves to it, and the log has the name of a directive
    exactly when no slot resolves it. *)
Theorem dependency_mask_names_registered_slots_only
    (behind : string -> string)
    (lib : DRWShaderLibrary) (pragma_str lib_code : string) :
  let r := drw_shader_dependencies_get behind lib pragma_str lib_code in
  let deps := fst r in
  0 <= deps < 2 ^ 64 /\
  (forall j : nat, Z.testbit deps (Z.of_nat j) = true ->
     (j < MAX_LIB)%nat /\ lib_at lib j <> None /\
     exists post, In post (directives pragma_str (region behind lib_code)) /\
       first_prefix lib post j) /\
  ((forall post, In post (directives pragma_str (region behind lib_code)) ->
      no_prefix lib post) -> deps = 0) /\
  (pragma_str = pragma_require -> well_formed lib_code ->
   (forall j : nat, Z.testbit deps (Z.of_nat j) = true <->
      exists post, In post (directives pragma_require lib_code) /\
        first_prefix lib (post ++ String NUL (behind lib_code)) j) /\
   (forall n : string, In n (snd r) <->
      exists post, In post (directives pragma_require lib_code) /\
        no_prefix lib (post ++ String NUL (behind lib_code)) /\
        n = logged_name post)).
Proof.
  cbv zeta.
  assert (Hsound : forall j : nat,
            Z.testbit (fst (drw_shader_dependencies_get behind lib pragma_str lib_code))
              (Z.of_nat j) = true ->
            exists post, In post (directives pragma_str (region behind lib_code)) /\
              first_prefix lib post j).
  { intros j Hj. apply deps_get_sound in Hj. destruct Hj as (post & Hin & Hs).
    exists post. split; [exact Hin|]. apply search_first_prefix, Hs. }
  assert (Hrange : 0 <= fst (drw_shader_dependencies_get behind lib pragma_str lib_code)
                   < 2 ^ 64).
  { unfold drw_shader_dependencies_get. apply deps_loop_u64. lia. }
  split; [exact Hrange|]. split; [|split].
  - intros j Hj. destruct (Hsound j Hj) as (post & Hin & Hf).
    destruct Hf as (Hlt & Hocc & Hrest).
    split; [exact Hlt|]. split; [apply Hocc; lia|].
    exists post. split; [exact Hin|]. split; [exact Hlt|]. split; [exact Hocc|exact Hrest].
  - intros Hnone. apply Z.bits_inj'. intros z Hz. rewrite Z.bits_0.
    destruct (Z.testbit _ z) eqn:Hb; [|reflexivity]. exfalso.
    rewrite <- (Z2Nat.id z Hz) in Hb.
    destruct (Hsound _ Hb) as (post & Hin & (Hlt & Hocc & Hp & _)).
    rewrite (Hnone post Hin _ Hlt Hocc) in Hp. discriminate.
  - intros -> Hwf.
    destruct (deps_get_well_formed behind lib lib_code Hwf) as [L B]. cbv zeta in L, B.
    split.
    + intros j. unfold has_bit in B. rewrite B.
      split; intros (post & Hin & H); exists post; (split; [exact Hin|]);
        apply search_first_prefix, H.
    + intros n. rewrite L, in_map_iff. split.
      * intros (post & <- & Hin). apply List.filter_In in Hin. destruct Hin as [Hin Hs].
        exists post. split; [exact Hin|]. split; [|reflexivity].
        apply search_no_prefix, Z.eqb_eq, Hs.
      * intros (post & Hin & Hno & ->). exists post. split; [reflexivity|].
        apply List.filter_In. split; [exact Hin|].
        apply Z.eqb_eq, search_no_prefix, Hno.
Qed.

(** A registry that holds [A]. A code whose only directive names [Z]: no
    stored name is a prefix of what follows the marker, and the mask is 0.
    A code that requires [A]: bit 0 is set. *)
Lemma dependency_mask_names_registered_slots_only_witness :
  let lib := build nothing_behind [("a;", "A")]%string in
  lib_at lib 0 = Some "a;"%string /\
  fst (drw_shader_dependencies_get nothing_behind lib pragma_require
         "BLENDER_REQUIRE(Z) x;") = 0 /\
  Z.testbit (fst (drw_shader_dependencies_get nothing_behind lib pragma_require
                    "BLENDER_REQUIRE(A) x;")) (Z.of_nat 0) = true.
Proof.
  intros lib. split; [reflexivity|]. split.
  - pose proof (dependency_mask_names_registered_slots_only nothing_behind lib
                  pragma_require "BLENDER_REQUIRE(Z) x;") as H.
    cbv zeta in H. destruct H as (_ & _ & H & _). apply H.
    intros post Hin k Hk Hocc.
    assert (Hpost : post = advance 16 (region nothing_behind "BLENDER_REQUIRE(Z) x;")).
    { vm_compute in Hin. destruct Hin as [<-|[]]. reflexivity. }
    destruct k as [|k].
    + rewrite Hpost. reflexivity.
    + exfalso. apply (Hocc 1%nat); [lia|reflexivity].
  - pose proof (dependency_mask_names_registered_slots_only nothing_behind lib
                  pragma_require "BLENDER_REQUIRE(A) x;") as H.
    cbv zeta in H. destruct H as (_ & _ & _ & H).
    destruct (H eq_refl) as [Hbits _].
    + split; [reflexivity|]. constructor; [|constructor].
      exists "A"%string. split; [repeat split|]. exists " x;"%string. reflexivity.
    + apply (proj2 (Hbits 0%nat)). exists "A) x;"%string. split; [left; reflexivity|].
      split; [unfold MAX_LIB; lia|]. split.
      * intros m Hm. assert (m = 0)%nat as -> by lia. vm_compute. discriminate.
      * split; [reflexivity|]. intros m Hm. lia.
Defined.

End ShaderLibProps.

(** ** The worker and the main thread: what every interleaving keeps *)

Module InterleavingProps.
Import Deferred DeferredSpec DeferredFacts Interleaving InterleavingSpec InterleavingFacts.

Local Open Scope nat_scope.

Lemma example_run6_reachable gpu_compile :
  creachable gpu_compile (comp example_start) (stat example_start) example_run6.
Proof.
  apply (creachable_step _ _ _ example_run5);
    [apply (creachable_step _ _ _ example_run4);
     [apply (creachable_step _ _ _ example_run3);
      [apply (creachable_step _ _ _ example_run2);
       [apply (creachable_step _ _ _ example_run1);
        [apply (creachable_step _ _ _ example_start);
         [apply creachable_start|]|]|]|]|]|]; apply cstep_main.
  - apply (ms_remove_call example_start 11). reflexivity.
  - apply (ms_remove_lock example_run1 11); reflexivity.
  - apply (ms_remove_unlink example_run2 11). reflexivity.
  - apply (ms_remove_not_compiling example_run3 11 (Some {| addr := 2; mat := 11 |}));
      reflexivity.
  - apply (ms_remove_spin_unlock example_run4 11 (Some {| addr := 2; mat := 11 |})).
    reflexivity.
  - apply (ms_remove_return example_run5 11 (Some {| addr := 2; mat := 11 |})).
    reflexivity.
Qed.

(** X16. A lock of the compiler the worker runs on is held by the thread
    whose place in the code says so, and by one thread at a time; the main
    thread holds one only inside a remove or a take that has reached that
    compiler, never inside a remove on a compiler installed since. During
    the call of [GPU_material_compile] the worker holds the compilation
    lock and not the queue lock. The compiling slot is filled exactly from
    the pop to the end of the turn. *)
Theorem locks_are_held_by_one_thread
    (gpu_compile : GPUMaterial -> eGPUMaterialStatus)
    (c : DRWShaderCompiler) (st : statuses) (s : cstate) :
  mat_compiling c = None ->
  creachable gpu_compile c st s ->
  (list_lock s = Some Worker <-> worker_holds_list (wpc s) = true) /\
  (list_lock s = Some Main <-> main_holds_list (mpc s) = true) /\
  (compilation_lock s = Some Worker <-> worker_holds_mutex (wpc s) = true) /\
  (compilation_lock s = Some Main <-> main_holds_mutex (mpc s) = true) /\
  (wpc s = W_in_compile ->
   compilation_lock s = Some Worker /\ list_lock s <> Some Worker) /\
  (mat_compiling (comp s) <> None <-> slot_filled (wpc s) = true).
Proof.
  intros Hc Hr. destruct (creachable_lock_inv _ _ _ _ Hc Hr) as (L1 & L2 & L3 & L4 & L5).
  rewrite L1, L3.
  destruct (worker_holds_list (wpc s)) eqn:Hwl; destruct (main_holds_list (mpc s)) eqn:Hml;
    destruct (worker_holds_mutex (wpc s)) eqn:Hwm;
    destruct (main_holds_mutex (mpc s)) eqn:Hmm;
    try discriminate;
    (split; [|split; [|split; [|split; [|split]]]]);
    try (split; congruence);
    try (intros Hw; rewrite Hw in *; cbn in *; split; congruence);
    destruct (slot_filled (wpc s)); split; congruence.
Qed.

(** After a take-over: the main thread is inside a remove on the installed
    compiler while the worker holds the queue lock of its own. *)
Lemma locks_are_held_by_one_thread_witness :
  exists s,
    creachable example_gpu (comp example_start) (stat example_start) s /\
    installed s = true /\ mpc s = M_iremove_locked 11 /\ wpc s = W_locked /\
    list_lock s = Some Worker /\
    (list_lock s = Some Main <-> main_holds_list (mpc s) = true).
Proof.
  pose proof (creachable_start example_gpu (comp example_start) (stat example_start)) as R.
  main_does R (apply ms_take_call; reflexivity).
  main_does R (apply ms_take_lock; reflexivity).
  main_does R (apply ms_take_move; reflexivity).
  main_does R (apply ms_take_spin_unlock; reflexivity).
  main_does R (apply ms_take_disown; reflexivity).
  main_does R (apply ms_take_install; reflexivity).
  main_does R (apply (ms_remove_call _ 11); reflexivity).
  main_does R (apply (ms_iremove_lock _ 11); reflexivity).
  worker_does R (apply ws_lock; reflexivity).
  match type of R with creachable _ _ _ ?S => exists S end.
  split; [exact R|]. split; [reflexivity|]. split; [reflexivity|].
  split; [reflexivity|]. split; [reflexivity|].
  exact (proj1 (proj2 (locks_are_held_by_one_thread example_gpu (comp example_start)
                         (stat example_start) _ eq_refl R))).
Defined.

(** X17. Whatever the threads do, no request is lost or doubled: the requests
    the compiler started with are, at every moment, each in exactly one of
    the queue, the conclude list, the compiling slot, the hand of a remove
    that has unlinked it and not yet freed it, the new compiler that took
    the queue, or among the freed ones. *)
Theorem every_request_is_in_exactly_one_place
    (gpu_compile : GPUMaterial -> eGPUMaterialStatus)
    (c : DRWShaderCompiler) (st : statuses) (s : cstate) :
  mat_compiling c = None ->
  List.NoDup (queue c ++ queue_conclude c) ->
  creachable gpu_compile c st s ->
  Permutation.Permutation (queue c ++ queue_conclude c) (places s) /\
  List.NoDup (places s).
Proof.
  intros Hc Hnd Hr. pose proof (creachable_places _ _ _ _ Hc Hr) as Hp.
  split; [exact Hp|]. apply (Permutation.Permutation_NoDup Hp Hnd).
Qed.

Lemma every_request_is_in_exactly_one_place_witness : List.NoDup (places example_run6).
Proof.
  refine (proj2 (every_request_is_in_exactly_one_place example_gpu (comp example_start)
                   (stat example_start) example_run6 eq_refl _ _)).
  - repeat constructor; simpl; intuition discriminate.
  - apply example_run6_reachable.
Defined.





(** X20. The two locks never leave both threads stuck: in every state a run
    reaches, the worker can take a step, or the main thread is inside a
    call and can take a step, or the worker has left its loop and the main
    thread is idle. In particular a remove that waits for the compilation
    lock is waiting for a worker that can go on. *)
Theorem no_deadlock
    (gpu_compile : GPUMaterial -> eGPUMaterialStatus)
    (c : DRWShaderCompiler) (st : statuses) (s : cstate) :
  mat_compiling c = None ->
  creachable gpu_compile c st s ->
  (exists s', worker_step gpu_compile s s') \/
  (mpc s <> M_idle /\ exists s', main_step s s') \/
  (wpc s = W_done /\ mpc s = M_idle).
Proof.
  intros Hc Hr. apply some_thread_can_step, (creachable_lock_inv _ _ _ _ Hc Hr).
Qed.

Lemma no_deadlock_witness :
  (exists s', worker_step example_gpu example_run6 s') \/
  (mpc example_run6 <> M_idle /\ exists s', main_step example_run6 s') \/
  (wpc example_run6 = W_done /\ mpc example_run6 = M_idle).
Proof.
  apply (no_deadlock example_gpu (comp example_start) (stat example_start) example_run6
           eq_refl).
  apply example_run6_reachable.
Defined.

(** X21. What the wait of [DRW_deferred_shader_remove] does not cover. The wait
    is for the compilation lock, which the worker gives back right after
    [GPU_material_compile]; the test of [GPU_material_status] on the
    material of the compiling slot comes later, under the queue lock. So
    whenever the queue is not empty there is a run in which the remove of
    the material being compiled has returned and the worker, holding the
    queue lock, has the request of that material in the compiling slot and
    its test of the status of the material still ahead. *)
Theorem worker_tests_the_status_after_remove_has_returned
    (gpu_compile : GPUMaterial -> eGPUMaterialStatus)
    (c : DRWShaderCompiler) (st : statuses)
    (q : list DRWDeferredShader) (d : DRWDeferredShader) :
  queue c = q ++ [d] ->
  exists s,
    creachable gpu_compile c st s /\
    In (CompileEnd d) (trace s) /\
    last (trace s) = Some (RemoveReturn (mat d)) /\
    wpc s = W_relocked /\ mpc s = M_idle /\
    mat_compiling (comp s) = Some d /\
    exists s', worker_step gpu_compile s s' /\ wpc s' = W_finish /\
      mat_compiling (comp s') = None /\
      (if status_eqb (gpu_compile (mat d)) GPU_MAT_QUEUED
       then queue_conclude (comp s') = queue_conclude c ++ [d]
       else last (trace s') = Some (Discarded d)).
Proof.
  intros Hq.
  assert (Hpop : BLI_poptail (queue c) = (Some d, q))
    by (rewrite Hq; apply BLI_poptail_snoc).
  pose proof (creachable_start gpu_compile c st) as R.
  worker_does R (apply ws_lock; reflexivity).
  worker_does R (apply (ws_pop _ _ d q); [reflexivity|exact Hpop]).
  worker_does R (apply ws_mutex_lock; reflexivity).
  worker_does R (apply ws_spin_unlock; reflexivity).
  worker_does R (apply (ws_compile_call _ _ d); reflexivity).
  worker_does R (apply (ws_compile_return _ _ d); reflexivity).
  worker_does R (apply ws_mutex_unlock; reflexivity).
  main_does R (apply (ms_remove_call _ (mat d)); reflexivity).
  main_does R (apply (ms_remove_lock _ (mat d)); reflexivity).
  main_does R (apply (ms_remove_unlink _ (mat d)); reflexivity).
  match type of R with
  | context [BLI_findptr ?a ?b] => destruct (BLI_findptr a b) as [d0|]
  end.
  - main_does R (apply (ms_remove_compiling _ (mat d) (Some d0)); [reflexivity|apply Nat.eqb_refl]).
    main_does R (apply (ms_remove_mutex_lock _ (mat d) (Some d0)); reflexivity).
    main_does R (apply (ms_remove_mutex_unlock _ (mat d) (Some d0)); reflexivity).
    main_does R (apply (ms_remove_spin_unlock _ (mat d) (Some d0)); reflexivity).
    main_does R (apply (ms_remove_return _ (mat d) (Some d0)); reflexivity).
    worker_does R (apply ws_relock; reflexivity).
    match type of R with creachable _ _ _ ?S => exists S end.
    split; [exact R|]. split; [cbn; tauto|]. split; [reflexivity|].
    split; [reflexivity|]. split; [reflexivity|]. split; [reflexivity|].
    destruct (status_eqb (gpu_compile (mat d)) GPU_MAT_QUEUED) eqn:Hs.
    + eexists. split; [apply (ws_conclude _ _ d); [reflexivity|reflexivity|]|].
      * cbn. unfold GPU_material_status, GPU_material_compile, GPU_material_status_set.
        rewrite Nat.eqb_refl. exact Hs.
      * split; [reflexivity|]. split; reflexivity.
    + eexists. split; [apply (ws_discard _ _ d); [reflexivity|reflexivity|]|].
      * cbn. unfold GPU_material_status, GPU_material_compile, GPU_material_status_set.
        rewrite Nat.eqb_refl. exact Hs.
      * split; [reflexivity|]. split; reflexivity.
  - main_does R (apply (ms_remove_compiling _ (mat d) None); [reflexivity|apply Nat.eqb_refl]).
    main_does R (apply (ms_remove_mutex_lock _ (mat d) None); reflexivity).
    main_does R (apply (ms_remove_mutex_unlock _ (mat d) None); reflexivity).
    main_does R (apply (ms_remove_spin_unlock _ (mat d) None); reflexivity).
    main_does R (apply (ms_remove_return _ (mat d) None); reflexivity).
    worker_does R (apply ws_relock; reflexivity).
    match type of R with creachable _ _ _ ?S => exists S end.
    split; [exact R|]. split; [cbn; tauto|]. split; [reflexivity|].
    split; [reflexivity|]. split; [reflexivity|]. split; [reflexivity|].
    destruct (status_eqb (gpu_compile (mat d)) GPU_MAT_QUEUED) eqn:Hs.
    + eexists. split; [apply (ws_conclude _ _ d); [reflexivity|reflexivity|]|].
      * cbn. unfold GPU_material_status, GPU_material_compile, GPU_material_status_set.
        rewrite Nat.eqb_refl. exact Hs.
      * split; [reflexivity|]. split; reflexivity.
    + eexists. split; [apply (ws_discard _ _ d); [reflexivity|reflexivity|]|].
      * cbn. unfold GPU_material_status, GPU_material_compile, GPU_material_status_set.
        rewrite Nat.eqb_refl. exact Hs.
      * split; [reflexivity|]. split; reflexivity.
Qed.

Lemma worker_tests_the_status_after_remove_has_returned_witness :
  exists s,
    creachable example_gpu (comp example_start) (stat example_start) s /\
    last (trace s) = Some (RemoveReturn 11) /\ wpc s = W_relocked /\
    mat_compiling (comp s) = Some {| addr := 2; mat := 11 |}.
Proof.
  destruct (worker_tests_the_status_after_remove_has_returned example_gpu
              (comp example_start) (stat example_start)
              [{| addr := 1; mat := 10 |}] {| addr := 2; mat := 11 |} eq_refl)
    as (s & H1 & _ & H3 & H4 & _ & H6 & _).
  exists s. split; [exact H1|]. split; [exact H3|]. split; [exact H4|exact H6].
Defined.

End InterleavingProps.

(** ** Shader creation through the library: what reaches the GPU module *)

Module ShaderCreateProps.
Import CStr CStrFacts ShaderLib ShaderLibSpec ShaderLibFacts ShaderLibMoreFacts.
Import ShaderLibTextFacts ShaderCreate.

Lemma expansion_built behind files code :
  well_named files -> dependency_order files -> source_directives files code ->
  exists out,
    DRW_shader_library_create_shader_string behind (build behind files) code = Some out /\
    expansion_of files code out.
Proof.
  intros Hw Hdep Hs.
  destruct (expand_spec behind files Hw Hdep code Hs) as (idx & H1 & H2 & H3).
  exists (concat_texts files idx ++ code)%string. split; [exact H3|].
  exists idx. split; [exact H1|]. split; [exact H2|reflexivity].
Qed.


Lemma example_files_well_named :
  well_named [("float f();", "common_lib.glsl")]%string.
Proof.
  split.
  - cbn. unfold MAX_LIB. lia.
  - intros n [<-|[]]. split; [repeat split|cbn; unfold MAX_LIB_NAME; lia].
  - intros [|a] [|b] ni nj Ha Hb Hne; cbn in Ha, Hb; try congruence;
      try (destruct a; discriminate); destruct b; discriminate.
Qed.

Lemma example_files_in_order :
  dependency_order [("float f();", "common_lib.glsl")]%string.
Proof.
  intros [|j] code name Hj; cbn in Hj; [|destruct j; discriminate].
  injection Hj as <- <-. split; [reflexivity|constructor].
Qed.

Lemma example_source_plain :
  source_directives [("float f();", "common_lib.glsl")]%string "void main() {}".
Proof. split; [reflexivity|constructor]. Qed.

Lemma example_source_requires :
  source_directives [("float f();", "common_lib.glsl")]%string
    "BLENDER_REQUIRE(common_lib.glsl) void main() {}".
Proof.
  split; [reflexivity|]. constructor; [|constructor].
  exists "common_lib.glsl"%string. split; [repeat split|].
  split; [exists " void main() {}"%string; reflexivity|].
  intros m [<-|[]] _. reflexivity.
Qed.


(** X23. With nothing to include, creation through the library is plain
    creation: when the library holds no fragment, or when no stage source
    has the directive, [DRW_shader_create_with_shaderlib_ex] makes the call
    that [DRW_shader_create_ex] makes on the same sources. *)
Theorem create_with_shaderlib_on_plain_sources_is_create_ex
    (GPUShader : Type)
    (GPU_shader_create : option string -> option string -> option string ->
                         option string -> option string -> option string -> GPUShader)
    (behind : string -> string)
    (lib : DRWShaderLibrary) (vert : string) (geom : option string)
    (frag : string) (defines name : option string) :
  lib = DRW_shader_library_create \/
  (strstr vert pragma_require = None /\ strstr frag pragma_require = None /\
   forall g, geom = Some g -> strstr g pragma_require = None) ->
  DRW_shader_create_with_shaderlib_ex GPUShader GPU_shader_create behind
    vert geom frag lib defines name
  = Some (DRW_shader_create_ex GPUShader GPU_shader_create
            (Some vert) geom (Some frag) defines name).
Proof.
  intros H. unfold DRW_shader_create_with_shaderlib_ex, DRW_shader_create_ex.
  assert (E : forall code, (code = vert \/ code = frag \/ geom = Some code) ->
              DRW_shader_library_create_shader_string behind lib code = Some code).
  { intros code Hc. destruct H as [->|(Hv & Hf & Hg)]; [apply expand_empty|].
    apply expand_plain. destruct Hc as [->|[->|Hc]]; auto. }
  rewrite (E vert), (E frag) by auto.
  destruct geom as [g|]; [|reflexivity].
  rewrite (E g) by auto. reflexivity.
Qed.

Lemma create_with_shaderlib_on_plain_sources_is_create_ex_witness :
  DRW_shader_create_with_shaderlib_ex _ recording_gpu nothing_behind
    "void main() {}" None "out vec4 c; void main() {}"
    (build nothing_behind [("float f();", "common_lib.glsl")]%string)
    None (Some "plain"%string)
  = Some [Some "void main() {}"%string; Some "out vec4 c; void main() {}"%string;
          None; None; None; Some "plain"%string].
Proof.
  apply (create_with_shaderlib_on_plain_sources_is_create_ex _ recording_gpu).
  right. split; [vm_compute; reflexivity|]. split; [vm_compute; reflexivity|].
  intros g Hg. discriminate Hg.
Defined.



End ShaderCreateProps.

(** ** The deferred compiler: the queue, the contexts and the remove *)

Module DeferredClaims.
Import Deferred DeferredSpec DeferredFacts Interleaving InterleavingSpec InterleavingFacts.

Local Open Scope nat_scope.

(** C9. Requests are appended at the tail of the queue and the worker
    takes them from the tail. With a queue that ends in [d]: a turn of the
    worker compiles the material of [d] and leaves the rest of the queue as
    it was; among other threads, the step of the worker that follows its
    lock either is the stop of the job or pops [d]; and the request that
    [drw_deferred_shader_add] queues goes behind [d], so that it is the one
    the next pop takes. Hence deferred requests for different materials,
    followed by a run of the worker that is not stopped, are compiled last
    requested first. *)
Theorem worker_pops_the_most_recent_request
    (gpu_compile : GPUMaterial -> eGPUMaterialStatus) (opengl : bool)
    (c : DRWShaderCompiler) (st : statuses)
    (q : list DRWDeferredShader) (d : DRWDeferredShader) :
  queue c = q ++ [d] ->
  (exists c' st' ev,
     exec_turn gpu_compile opengl false c st = Continue c' st' ev /\
     queue c' = q /\ compiled ev = [mat d] /\
     st' = GPU_material_compile gpu_compile st (mat d)) /\
  (forall s s' : cstate,
     comp s = c -> wpc s = W_locked -> worker_step gpu_compile s s' ->
     (wpc s' = W_break /\ comp s' = c) \/
     (wpc s' = W_popped /\ mat_compiling (comp s') = Some d /\ queue (comp s') = q)) /\
  (forall (env : DrawEnv) (m : GPUMaterial) (s : DRWState),
     job s = Some c -> sync_compile env true = false ->
     let x := {| addr := next s; mat := m |} in
     exists c', job (drw_deferred_shader_add gpu_compile env m true s) = Some c' /\
       queue c' = queue c ++ [x] /\
       BLI_poptail (queue c') = (Some x, queue c)) /\
  (forall (env : DrawEnv) (ms : list GPUMaterial) (st0 : statuses) (n : nat)
          (stop : nat -> bool),
     evil_C env = true -> image_render env = false ->
     List.NoDup ms -> (forall m, In m ms -> st0 m = GPU_MAT_CREATED) ->
     (forall i, stop i = false) ->
     let s := request_all gpu_compile env ms
                {| status := st0; job := None; retired := []; next := n; events := [] |} in
     forall c0, job s = Some c0 ->
       map mat (queue c0) = ms /\
       compiled (snd (drw_deferred_shader_compilation_exec gpu_compile opengl stop c0
                        (status s))) = rev ms).
Proof.
  intros Hq.
  assert (Hpop : BLI_poptail (queue c) = (Some d, q))
    by (rewrite Hq; apply BLI_poptail_snoc).
  split; [|split; [|split]].
  - destruct (exec_turn gpu_compile opengl false c st) as [c0|c' st' ev] eqn:Ht.
    + exfalso. unfold exec_turn in Ht. rewrite Hpop in Ht. cbv zeta in Ht.
      destruct (status_eqb _ GPU_MAT_QUEUED); discriminate Ht.
    + exists c', st', ev. split; [reflexivity|].
      apply exec_turn_Continue in Ht.
      destruct Ht as (d0 & rest & Hq0 & Hq' & Hst & _ & _ & _ & _ & Hc & _).
      rewrite Hq in Hq0. apply app_inj_tail in Hq0. destruct Hq0 as [-> ->].
      split; [exact Hq'|]. split; [exact Hc|exact Hst].
  - intros s s' Hc Hw Hstep.
    destruct Hstep as [s H|s H|s rest H H0|s dsh rest H H0|s H|s H H0|s H|s dsh H H0
                      |s dsh H H0|s H|s H H0|s dsh H H0 H1|s dsh H H0 H1|s H];
      try (rewrite Hw in H; discriminate H).
    + left. split; [reflexivity|exact Hc].
    + exfalso. rewrite Hc, Hpop in H0. discriminate H0.
    + right. rewrite Hc, Hpop in H0. injection H0 as <- <-.
      split; [reflexivity|]. split; reflexivity.
  - intros env m s Hj Hs x.
    destruct (add_deferred_spec gpu_compile env m true s Hs) as (_ & H2 & _).
    destruct (add_to_new_compiler_spec env (job s) m (next s)) as (Q1 & _).
    rewrite Hj in Q1 at 2.
    eexists. split; [exact H2|]. split; [exact Q1|].
    rewrite Q1. apply BLI_poptail_snoc.
  - intros env ms st0 n stop He Hi Hnd Hst Hstop s c0 Hc0.
    destruct (request_all_spec gpu_compile env ms
                {| status := st0; job := None; retired := []; next := n; events := [] |}
                He Hi Hnd Hst) as (H1 & _).
    fold s in H1. cbn in H1. unfold queue_of in H1. rewrite Hc0 in H1.
    split; [exact H1|]. unfold drw_deferred_shader_compilation_exec.
    destruct (exec_loop_drains gpu_compile opengl stop (S (length (queue c0))) 0 c0
                (status s) Hstop ltac:(lia))
      as (_ & _ & _ & _ & _ & _ & _ & _ & H9 & _).
    rewrite H9, map_rev, H1. reflexivity.
Qed.

Lemma worker_pops_the_most_recent_request_witness :
  exists c' st' ev,
    exec_turn example_gpu true false example_compiler all_queued = Continue c' st' ev /\
    queue c' = [ {| addr := 1; mat := 10 |}; {| addr := 2; mat := 11 |} ] /\
    compiled ev = [12].
Proof.
  destruct (worker_pops_the_most_recent_request example_gpu true example_compiler
              all_queued [ {| addr := 1; mat := 10 |}; {| addr := 2; mat := 11 |} ]
              {| addr := 3; mat := 12 |} eq_refl)
    as ((c' & st' & ev & H1 & H2 & H3 & _) & _).
  exists c', st', ev. split; [exact H1|]. split; [exact H2|exact H3].
Defined.

(** Three requests in a viewport, then the worker. *)
Example requests_are_compiled_last_in_first_out :
  let s := request_all example_gpu viewport_env [10; 11; 12] initial_state in
  option_map (fun c => compiled (snd (drw_deferred_shader_compilation_exec example_gpu true
                                        never_stop c (status s)))) (job s)
  = Some [12; 11; 10].
Proof. vm_compute. reflexivity. Qed.

(** C4. In an image render [DRW_shader_from_world], asked for a deferred
    compile of a material that is already queued, returns the material as
    it is: still queued, nothing compiled. It has no counterpart of the
    [deferred = false] of [DRW_shader_from_material]. *)
Theorem from_world_in_image_render_keeps_a_queued_material
    (gpu_compile : GPUMaterial -> eGPUMaterialStatus) (env : DrawEnv)
    (m : GPUMaterial) (s : DRWState) :
  image_render env = true -> status s m = GPU_MAT_QUEUED ->
  DRW_shader_from_world gpu_compile env m true s = s /\
  status (DRW_shader_from_world gpu_compile env m true s) m = GPU_MAT_QUEUED /\
  (gpu_compile m <> GPU_MAT_QUEUED ->
   status (DRW_shader_from_material gpu_compile env m true s) m <> GPU_MAT_QUEUED).
Proof.
  intros Hi Hq.
  assert (Hw : DRW_shader_from_world gpu_compile env m true s = s).
  { apply from_world_returns. right. right. auto. }
  split; [exact Hw|]. split; [rewrite Hw; exact Hq|].
  intros Hgpu. unfold DRW_shader_from_material, GPU_material_status.
  rewrite Hi, Hq. cbn [andb negb status_eqb]. rewrite Hq. cbn [status_eqb].
  rewrite add_sync_status; [exact Hgpu|].
  unfold sync_compile. rewrite Hi. cbn. apply orb_true_r.
Qed.

Lemma from_world_in_image_render_keeps_a_queued_material_witness :
  let s := {| status := all_queued; job := None; retired := []; next := 0;
              events := [] |} in
  DRW_shader_from_world example_gpu render_env 10 true s = s /\
  status (DRW_shader_from_material example_gpu render_env 10 true s) 10 <> GPU_MAT_QUEUED.
Proof.
  intros s.
  destruct (from_world_in_image_render_keeps_a_queued_material example_gpu render_env 10 s
              eq_refl eq_refl) as (H1 & _ & H3).
  split; [exact H1|]. apply H3. discriminate.
Defined.




(** C6. In every state a run reaches, at most one compiler owns a context,
    and it is the compiler of the job. A deferred request that finds a
    compiler moves its queue to the new compiler and hands the contexts
    over: the new compiler has the contexts and the ownership of the old
    one, the old one is left with an empty queue and without ownership, and
    no context is created; a request that finds none creates the one
    context (none with the main context workaround). At teardown a compiler
    disposes of its contexts exactly when it owns them, and no context is
    destroyed twice. *)
Theorem context_has_at_most_one_owner
    (gpu_compile : GPUMaterial -> eGPUMaterialStatus) (workaround : bool)
    (s : DRWState) :
  reachable gpu_compile workaround s ->
  length (owners s) <= 1 /\
  (forall c, In c (owners s) -> job s = Some c) /\
  (forall (env : DrawEnv) (m : GPUMaterial),
     main_context_workaround env = workaround -> sync_compile env true = false ->
     let s' := drw_deferred_shader_add gpu_compile env m true s in
     length (owners s') <= 1 /\
     match job s with
     | Some old =>
       exists new old',
         job s' = Some new /\ retired s' = old' :: retired s /\
         queue new = queue old ++ [{| addr := next s; mat := m |}] /\
         queue old' = [] /\ own_context old' = false /\
         gl_context new = gl_context old /\ gpu_context new = gpu_context old /\
         gl_context new <> None /\
         own_context new = own_context old /\
         created (events s') = created (events s)
     | None =>
       exists new,
         job s' = Some new /\ retired s' = retired s /\
         own_context new = negb workaround /\
         created (events s') =
           created (events s) ++ (if workaround then [] else [(next s + 1, next s + 2)])
     end) /\
  (forall (c : DRWShaderCompiler) (st : statuses),
     disposals (snd (drw_deferred_shader_compilation_free gpu_compile c st)) =
     if own_context c then [(gl_context c, gpu_context c)] else []) /\
  List.NoDup (destroyed (events s)).
Proof.
  intros Hreach. pose proof (reachable_context_inv _ _ _ Hreach) as Hinv.
  pose proof (owners_of_context_inv _ _ Hinv) as Ho.
  split; [|split; [|split; [|split]]].
  - rewrite Ho. destruct (job s) as [c|]; [destruct (own_context c)|]; cbn; lia.
  - intros c Hc. rewrite Ho in Hc.
    destruct (job s) as [c0|]; [destruct (own_context c0)|]; try destruct Hc as [<-|[]];
      try destruct Hc. reflexivity.
  - intros env m Hw Hs s'. split.
    + pose proof (add_keeps_context_inv gpu_compile workaround env m true s Hw Hinv) as Hinv'.
      fold s' in Hinv'. rewrite (owners_of_context_inv _ _ Hinv').
      destruct (job s') as [c|]; [destruct (own_context c)|]; cbn; lia.
    + destruct (add_deferred_spec gpu_compile env m true s Hs) as (_ & H2 & H3 & _ & H5).
      destruct (add_to_new_compiler_spec env (job s) m (next s))
        as (Q1 & _ & _ & _ & Q5 & Q6 & Q7).
      fold s' in H2, H3, H5. destruct Hinv as (_ & I2 & _).
      destruct (job s) as [old|] eqn:Hj.
      * destruct (I2 old eq_refl) as (Hown & gl & gpu & G1 & G2 & _).
        rewrite G1 in Q6, Q7. destruct Q7 as (K1 & K2 & K3).
        rewrite Q6 in H3.
        eexists. eexists. split; [exact H2|]. split; [exact H3|].
        split; [exact Q1|]. split; [reflexivity|]. split; [reflexivity|].
        split; [rewrite K1, G1; reflexivity|]. split; [exact K2|].
        split; [rewrite K1; discriminate|].
        split; [rewrite Q5, Hw, Hown; reflexivity|].
        rewrite H5, K3, app_nil_r. reflexivity.
      * rewrite Q6 in H3. eexists. split; [exact H2|]. split; [exact H3|].
        split; [rewrite Q5, Hw; reflexivity|].
        rewrite H5, created_app. rewrite Hw in Q7.
        destruct workaround; destruct Q7 as (_ & _ & ->); reflexivity.
  - intros c st. unfold drw_deferred_shader_compilation_free.
    destruct (queue_conclude c) as [|x rest] eqn:Hqc; cbn [BLI_listbase_is_empty negb snd].
    + rewrite !disposals_app, queue_free_disposals.
      destruct (own_context c); reflexivity.
    + rewrite conclude_loop_spec by lia. cbn [snd].
      change (EvContextEnable :: ?l) with ([EvContextEnable] ++ l).
      rewrite !disposals_app, queue_free_disposals, conclude_events_disposals.
      destruct (own_context c); reflexivity.
  - destruct Hinv as (_ & _ & _ & _ & I5). exact I5.
Qed.

(** Two deferred requests in a viewport: the second finds the compiler of
    the first and takes its queue and its context. *)
Lemma context_has_at_most_one_owner_witness :
  let s1 := DRW_shader_from_material example_gpu viewport_env 10 true initial_state in
  let s2 := drw_deferred_shader_add example_gpu viewport_env 11 true s1 in
  length (owners s1) <= 1 /\
  exists old new old',
    job s1 = Some old /\ job s2 = Some new /\ retired s2 = [old'] /\
    own_context old' = false /\ own_context new = true /\
    gl_context new = gl_context old /\
    created (events s2) = created (events s1).
Proof.
  intros s1 s2.
  assert (Hr : reachable example_gpu false s1).
  { eapply reachable_step; [apply reachable_start|].
    apply (step_from_material example_gpu false viewport_env 10 true). reflexivity. }
  destruct (context_has_at_most_one_owner example_gpu false s1 Hr) as (H1 & _ & H3 & _).
  split; [exact H1|].
  destruct (H3 viewport_env 11 eq_refl eq_refl) as (_ & H).
  destruct (job s1) as [old|] eqn:Hj; [|vm_compute in Hj; discriminate Hj].
  destruct H as (new & old' & K1 & K2 & _ & _ & K5 & K6 & _ & _ & K9 & K10).
  exists old, new, old'. split; [reflexivity|]. split; [exact K1|].
  split; [exact K2|]. split; [exact K5|].
  split; [|split; [exact K6|exact K10]].
  rewrite K9. vm_compute in Hj. injection Hj as <-. reflexivity.
Defined.

(** C1. The worker is inside [GPU_material_compile] for material 11. The
    main thread queues another material: [drw_deferred_shader_add] takes
    the queue over for a new compiler and installs it. A remove of material
    11 now visits the installed compiler, whose compiling slot is empty: it
    does not wait, and it returns while the compile of material 11 is still
    running. *)
Theorem remove_after_a_take_over_returns_during_the_compile :
  exists s : cstate,
    creachable example_gpu (comp example_start) (stat example_start) s /\
    installed s = true /\ mpc s = M_idle /\
    last (trace s) = Some (RemoveReturnInstalled 11) /\
    wpc s = W_in_compile /\
    mat_compiling (comp s) = Some {| addr := 2; mat := 11 |} /\
    compilation_lock s = Some Worker /\
    In (CompileBegin {| addr := 2; mat := 11 |}) (trace s) /\
    ~ In (CompileEnd {| addr := 2; mat := 11 |}) (trace s).
Proof.
  pose proof (creachable_start example_gpu (comp example_start) (stat example_start)) as R.
  worker_does R (apply ws_lock; reflexivity).
  worker_does R (apply (ws_pop _ _ {| addr := 2; mat := 11 |} [{| addr := 1; mat := 10 |}]);
                 reflexivity).
  worker_does R (apply ws_mutex_lock; reflexivity).
  worker_does R (apply ws_spin_unlock; reflexivity).
  worker_does R (apply (ws_compile_call _ _ {| addr := 2; mat := 11 |}); reflexivity).
  main_does R (apply ms_take_call; reflexivity).
  main_does R (apply ms_take_lock; reflexivity).
  main_does R (apply ms_take_move; reflexivity).
  main_does R (apply ms_take_spin_unlock; reflexivity).
  main_does R (apply ms_take_disown; reflexivity).
  main_does R (apply ms_take_install; reflexivity).
  main_does R (apply (ms_remove_call _ 11); reflexivity).
  main_does R (apply (ms_iremove_lock _ 11); reflexivity).
  main_does R (apply (ms_iremove_unlink _ 11); reflexivity).
  main_does R (apply (ms_iremove_not_compiling _ 11 None); reflexivity).
  main_does R (apply (ms_iremove_spin_unlock _ 11 None); reflexivity).
  main_does R (apply (ms_iremove_return _ 11 None); reflexivity).
  match type of R with creachable _ _ _ ?S => exists S end.
  split; [exact R|]. cbn.
  split; [reflexivity|]. split; [reflexivity|]. split; [reflexivity|].
  split; [reflexivity|]. split; [reflexivity|]. split; [reflexivity|].
  split; [left; reflexivity|].
  intros [H|[H|[]]]; discriminate H.
Qed.

End DeferredClaims.
